(** * PubTracker: a shallow embedding of [Final Project/tracker.py]

    The tracker keeps a list of live tracks across frames.  Every track
    is one of the detection dictionaries that the caller handed in, kept
    by reference and extended in place.  The embedding therefore has a
    store of dictionaries addressed by location, the tracker's two
    attributes that change ([id_count] and [tracks]), and an exception
    monad over both, because a Python exception leaves every mutation
    made before it in place. *)

From Stdlib Require Import ZArith QArith Lia Lqa.
From stdpp Require Import base option list gmap strings.

Open Scope Z_scope.

(** ** Numbers

    Python floats are modelled as exact rationals; rounding plays no
    part in the properties below.  The comparisons are the boolean
    ones the code branches on. *)

Definition Qgtb (x y : Q) : bool := (Qnum y * Zpos (Qden x) <? Qnum x * Zpos (Qden y)).

(** The sentinel added to the cost of a gated pair, and the bound the
    optimal mode uses afterwards to recognise one. *)
Definition sentinel : Q := inject_Z (10 ^ 18).
Definition sentinel_cut : Q := inject_Z (10 ^ 16).

(** ** Class names and class tables

    nuScenes names are strings, Waymo names are integers; [in] and
    [index] compare them with Python equality, under which a string
    never equals an integer. *)

Inductive cls_name :=
| Name (s : string)
| Num (n : Z).

#[global] Instance cls_name_eq_dec : EqDecision cls_name.
Proof. solve_decision. Defined.

Definition NUSCENES_TRACKING_NAMES : list cls_name :=
  [ Name "bicycle"; Name "bus"; Name "car"; Name "motorcycle";
    Name "pedestrian"; Name "trailer"; Name "truck";
    Name "construction_vehicle"; Name "barrier"; Name "traffic_cone" ].

Definition NUSCENE_CLS_VELOCITY_ERROR : list (cls_name * Q) :=
  [ (Name "car", 3#1); (Name "truck", 4#1); (Name "bus", 11#2);
    (Name "trailer", 2#1); (Name "pedestrian", 1#1);
    (Name "motorcycle", 4#1); (Name "bicycle", 5#2);
    (Name "construction_vehicle", 1#1); (Name "barrier", 1#1);
    (Name "traffic_cone", 1#1) ]%Q.

Definition WAYMO_TRACKING_NAMES : list cls_name := [ Num 1; Num 2; Num 4 ].

Definition WAYMO_CLS_VELOCITY_ERROR : list (cls_name * Q) :=
  [ (Num 1, 2#1); (Num 2, 1#5); (Num 4, 1#2) ]%Q.

(** [name in names] and [names.index(name)]. *)
Definition name_in (n : cls_name) (names : list cls_name) : bool :=
  bool_decide (n ∈ names).

Fixpoint index_of (n : cls_name) (names : list cls_name) : option nat :=
  match names with
  | [] => None
  | m :: rest => if decide (n = m) then Some 0%nat else S <$> index_of n rest
  end.

(** [table[name]] on a dict written as the list of its items. *)
Fixpoint dict_get (n : cls_name) (table : list (cls_name * Q)) : option Q :=
  match table with
  | [] => None
  | (m, v) :: rest => if decide (n = m) then Some v else dict_get n rest
  end.

(** ** Exceptions and results

    [Dangling] is not a Python exception: it is what the model answers
    when asked to follow a location that the store does not hold, which
    no Python program can do. *)

Inductive exn :=
| NotImplementedError
| TypeError
| IndexError
| KeyError
| AssertionError
| AttributeError
| UnboundLocalError
| ValueError
| Dangling.

Inductive result (A : Type) :=
| Ok (a : A)
| Raise (e : exn).
Arguments Ok {A} a.
Arguments Raise {A} e.

Definition is_ok {A} (r : result A) : bool :=
  match r with Ok _ => true | Raise _ => false end.

Definition rbind {A B} (r : result A) (k : A -> result B) : result B :=
  match r with Ok a => k a | Raise e => Raise e end.

Definition of_option {A} (o : option A) (e : exn) : result A :=
  match o with Some a => Ok a | None => Raise e end.

(** A comprehension or loop whose body can raise: the first exception
    ends it. *)
Fixpoint rmap {A B} (f : A -> result B) (l : list A) : result (list B) :=
  match l with
  | [] => Ok []
  | a :: rest => rbind (f a) (fun b => rbind (rmap f rest) (fun bs => Ok (b :: bs)))
  end.

(** [[x for x in l if keep(x)]] with a condition that can raise. *)
Fixpoint rfilter {A} (keep : A -> result bool) (l : list A) : result (list A) :=
  match l with
  | [] => Ok []
  | a :: rest =>
      rbind (keep a) (fun b =>
      rbind (rfilter keep rest) (fun r => Ok (if b then a :: r else r)))
  end.

(** ** numpy arrays

    Two-dimensional arrays carry their shape, so that an array with no
    row still has a number of columns; binary operations broadcast as
    numpy does and raise [ValueError] on shapes that do not fit. *)

Record array (A : Type) := mk_array {
  nrows : nat;
  ncols : nat;
  cell : nat -> nat -> A }.
Arguments mk_array {A} _ _ _.
Arguments nrows {A} _.
Arguments ncols {A} _.
Arguments cell {A} _ _ _.

Definition bdim (a b : nat) : result nat :=
  if (a =? b)%nat then Ok a
  else if (a =? 1)%nat then Ok b
  else if (b =? 1)%nat then Ok a
  else Raise ValueError.

Definition bidx (n i : nat) : nat := if (n =? 1)%nat then 0%nat else i.

Definition broadcast {A B C} (f : A -> B -> C) (a : array A) (b : array B)
  : result (array C) :=
  rbind (bdim (nrows a) (nrows b)) (fun r =>
  rbind (bdim (ncols a) (ncols b)) (fun c =>
  Ok (mk_array r c (fun i j =>
        f (cell a (bidx (nrows a) i) (bidx (ncols a) j))
          (cell b (bidx (nrows b) i) (bidx (ncols b) j)))))).

Definition amap {A B} (f : A -> B) (a : array A) : array B :=
  mk_array (nrows a) (ncols a) (fun i j => f (cell a i j)).

(** [v.reshape(n, 1)] and [v.reshape(1, n)] for a vector [v] of [n]
    entries. *)
Definition column {A} (dflt : A) (v : list A) : array A :=
  mk_array (length v) 1 (fun i _ => nth i v dflt).
Definition row {A} (dflt : A) (v : list A) : array A :=
  mk_array 1 (length v) (fun _ j => nth j v dflt).

(** [a[i, j]] *)
Definition aget {A} (a : array A) (i j : nat) : result A :=
  if ((i <? nrows a) && (j <? ncols a))%nat then Ok (cell a i j)
  else Raise IndexError.

(** What an assignment routine hands back.  [greedy_assignment] and the
    first-frame branch produce a k-by-2 integer array, one row per
    pair; scipy's [linear_sum_assignment] produces a tuple of two index
    arrays. *)
Inductive assignment :=
| PairArray (pairs : list (nat * nat))
| IndexTuple (row_ind col_ind : list nat).

(** [matched_indices[:, k]]: a tuple cannot be indexed by a tuple. *)
Definition column_of (a : assignment) (k : nat) : result (list nat) :=
  match a with
  | PairArray pairs => Ok (map (fun p => if (k =? 0)%nat then p.1 else p.2) pairs)
  | IndexTuple _ _ => Raise TypeError
  end.

(** [for m in matched_indices]: the rows of an array, the two members
    of a tuple. *)
Definition items (a : assignment) : list (list nat) :=
  match a with
  | PairArray pairs => map (fun p => [p.1; p.2]) pairs
  | IndexTuple r c => [r; c]
  end.

(** [m[k]] *)
Definition item (m : list nat) (k : nat) : result nat :=
  of_option (m !! k) IndexError.

(** [np.array(matches).reshape(-1, 2)] for a list of integer rows. *)
Fixpoint pair_up (flat : list nat) : result (list (nat * nat)) :=
  match flat with
  | [] => Ok []
  | [_] => Raise ValueError
  | a :: b :: rest => rbind (pair_up rest) (fun ps => Ok ((a, b) :: ps))
  end.

Definition reshape_pairs (rows : list (list nat)) : result (list (nat * nat)) :=
  match rows with
  | [] => Ok []
  | r :: _ =>
      if forallb (fun r' => (length r' =? length r)%nat) rows
      then pair_up (concat rows)
      else Raise ValueError
  end.

(** ** Library routines

    numpy's square root, scipy's assignment solver and filterpy's
    Kalman filter are used as they come.  [KalmanFilter use_vel ct v]
    stands for the filter built at a track's birth: six states, four or
    two observed, [x] set to [ct], [v] and two zeros, [P] scaled by
    ten. *)

Class Library := {
  np_sqrt : Q -> Q;
  linear_sum_assignment : array Q -> list nat * list nat;
  kalman : Type;
  KalmanFilter : bool -> Q * Q -> Q * Q -> kalman;
  kf_predict : Q -> kalman -> kalman;
  kf_update : list Q -> kalman -> kalman;
  kf_x : kalman -> nat -> Q }.

(** [reshape], the helper that turns the solver's tuple into rows of
    pairs; [range(len(hungarian[0]))] drives it, so a shorter second
    array raises. *)
Definition reshape (hungarian : list nat * list nat) : result (list (nat * nat)) :=
  rmap (fun i =>
          rbind (of_option (hungarian.1 !! i) IndexError) (fun a =>
          rbind (of_option (hungarian.2 !! i) IndexError) (fun b => Ok (a, b))))
       (seq 0 (length hungarian.1)).

(** [greedy_assignment]: the body is a stub that raises. *)
Definition greedy_assignment (dist : array Q) : result assignment :=
  Raise NotImplementedError.

#[global] Instance result_ret : MRet result := fun _ a => Ok a.
#[global] Instance result_bind : MBind result := fun _ _ k r => rbind r k.

(** ** Detection and track dictionaries

    A detection arrives with a class name, a translation, a velocity
    and a score; translation and velocity are sequences of at least two
    numbers, of which the tracker reads and writes the first two.  The
    remaining keys are the ones the tracker adds; a key that has not
    been added yet is [None], and reading it raises [KeyError]. *)

Record vec := mk_vec { v0 : Q; v1 : Q; vrest : list Q }.

Definition first2 (v : vec) : Q * Q := (v0 v, v1 v).
Definition set_first2 (v : vec) (p : Q * Q) : vec := mk_vec p.1 p.2 (vrest v).

Definition loc := nat.

Inductive tracker_kind :=
| PointTracker
| KF
| OtherTracker.

Section Tracker.
Context `{Library}.

Record det := mk_det {
  detection_name : cls_name;
  translation : vec;
  velocity : vec;
  detection_score : Q;
  ct : option (Q * Q);
  tracking : option (Q * Q);
  label_preds : option nat;
  tracking_id : option Z;
  age : option Z;
  active : option Z;
  kf : option kalman }.

Definition set_translation (v : vec) (d : det) : det :=
  mk_det (detection_name d) v (velocity d) (detection_score d) (ct d)
         (tracking d) (label_preds d) (tracking_id d) (age d) (active d) (kf d).
Definition set_velocity (v : vec) (d : det) : det :=
  mk_det (detection_name d) (translation d) v (detection_score d) (ct d)
         (tracking d) (label_preds d) (tracking_id d) (age d) (active d) (kf d).
Definition set_detection_score (s : Q) (d : det) : det :=
  mk_det (detection_name d) (translation d) (velocity d) s (ct d)
         (tracking d) (label_preds d) (tracking_id d) (age d) (active d) (kf d).
Definition set_ct (c : Q * Q) (d : det) : det :=
  mk_det (detection_name d) (translation d) (velocity d) (detection_score d) (Some c)
         (tracking d) (label_preds d) (tracking_id d) (age d) (active d) (kf d).
Definition set_tracking (t : Q * Q) (d : det) : det :=
  mk_det (detection_name d) (translation d) (velocity d) (detection_score d) (ct d)
         (Some t) (label_preds d) (tracking_id d) (age d) (active d) (kf d).
Definition set_label_preds (n : nat) (d : det) : det :=
  mk_det (detection_name d) (translation d) (velocity d) (detection_score d) (ct d)
         (tracking d) (Some n) (tracking_id d) (age d) (active d) (kf d).
Definition set_tracking_id (i : Z) (d : det) : det :=
  mk_det (detection_name d) (translation d) (velocity d) (detection_score d) (ct d)
         (tracking d) (label_preds d) (Some i) (age d) (active d) (kf d).
Definition set_age (a : Z) (d : det) : det :=
  mk_det (detection_name d) (translation d) (velocity d) (detection_score d) (ct d)
         (tracking d) (label_preds d) (tracking_id d) (Some a) (active d) (kf d).
Definition set_active (a : Z) (d : det) : det :=
  mk_det (detection_name d) (translation d) (velocity d) (detection_score d) (ct d)
         (tracking d) (label_preds d) (tracking_id d) (age d) (Some a) (kf d).
Definition set_kf (k : kalman) (d : det) : det :=
  mk_det (detection_name d) (translation d) (velocity d) (detection_score d) (ct d)
         (tracking d) (label_preds d) (tracking_id d) (age d) (active d) (Some k).

(** ** The tracker object

    [PubTracker] holds the attributes fixed by [__init__]; [id_count]
    and [tracks] live in the world below.  [velocity_error] and
    [tracking_names] are only set for the two known datasets, so they
    are absent ([AttributeError] on use) for any other. *)

Inductive dataset_name :=
| Nuscenes
| Waymo
| OtherDataset.

Record PubTracker := mk_tracker {
  tracker : tracker_kind;
  hungarian : bool;
  max_age : Z;
  min_hits : Z;
  noise : Q;
  s_th : Q;
  score_update : bool;
  det_th : Q;
  del_th : Q;
  use_vel : bool;
  velocity_error : option (list (cls_name * Q));
  tracking_names : option (list cls_name) }.

(** [__init__]; [score_update] records whether the argument is not
    [None], [tracker_arg] is [None] or the given kind. *)
Definition init (hungarian_arg : bool) (max_age_arg : Z) (noise_arg active_th : Q)
    (min_hits_arg : Z) (score_update_arg : bool) (deletion_th detection_th : Q)
    (dataset : dataset_name) (use_vel_arg : bool) (tracker_arg : option tracker_kind)
  : PubTracker :=
  mk_tracker (default PointTracker tracker_arg) hungarian_arg max_age_arg min_hits_arg
    noise_arg active_th score_update_arg detection_th deletion_th use_vel_arg
    (match dataset with
     | Nuscenes => Some NUSCENE_CLS_VELOCITY_ERROR
     | Waymo => Some WAYMO_CLS_VELOCITY_ERROR
     | OtherDataset => None
     end)
    (match dataset with
     | Nuscenes => Some NUSCENES_TRACKING_NAMES
     | Waymo => Some WAYMO_TRACKING_NAMES
     | OtherDataset => None
     end).

(** ** The assignment stage *)

Definition sqdist (p q : Q * Q) : Q :=
  ((p.1 - q.1) * (p.1 - q.1) + (p.2 - q.2) * (p.2 - q.2))%Q.

(** The loop of the optimal mode over the solver's pairs: a pair whose
    cost is above [1e16] gives its detection back to the unmatched
    ones, any other pair is kept. *)
Fixpoint hungarian_filter (dist : option (array Q)) (ms : list (list nat))
    (matches : list (list nat)) (unmatched2 : list nat)
  : result (list (list nat) * list nat) :=
  match ms with
  | [] => Ok (matches, unmatched2)
  | m :: rest =>
      d ← of_option dist UnboundLocalError;
      m0 ← item m 0;
      m1 ← item m 1;
      c ← aget d m0 m1;
      if Qgtb c sentinel_cut
      then hungarian_filter dist rest matches (unmatched2 ++ [m0])
      else hungarian_filter dist rest (matches ++ [m]) unmatched2
  end.

(** The gated cost matrix, one row per detection and one column per
    track. *)
Definition cost_matrix (positions1_cat positions2_cat : list nat) (max_diff : list Q)
    (positions1 positions2 : list (Q * Q)) : result (array Q) :=
  let dist :=
    mk_array (length positions2) (length positions1)
      (fun i j => np_sqrt (sqdist (nth j positions1 (0, 0)%Q) (nth i positions2 (0, 0)%Q))) in
  over ← broadcast Qgtb dist (column 0%Q max_diff);
  differ ← broadcast (fun a b => negb (a =? b)%nat)
             (column 0%nat positions2_cat) (row 0%nat positions1_cat);
  invalid ← broadcast orb over differ;
  broadcast (fun d (b : bool) => (d + (if b then sentinel else 0))%Q) dist invalid.

(** Lines 77-90: the unmatched indices on both sides, and in optimal
    mode the pairs that survive the cut. *)
Definition unmatched_and_matches (self : PubTracker) (dist : option (array Q))
    (matched_indices : assignment) (positions1 positions2 : list (Q * Q))
  : result (assignment * list nat * list nat) :=
  unmatched_positions1_data ←
    rfilter (fun d => col ← column_of matched_indices 1; Ok (negb (bool_decide (d ∈ col))))
            (seq 0 (length positions1));
  unmatched_positions2_data ←
    rfilter (fun d => col ← column_of matched_indices 0; Ok (negb (bool_decide (d ∈ col))))
            (seq 0 (length positions2));
  if hungarian self then
    '(matches, unmatched_positions2_data) ←
      hungarian_filter dist (items matched_indices) [] unmatched_positions2_data;
    matches ← reshape_pairs matches;
    Ok (PairArray matches, unmatched_positions1_data, unmatched_positions2_data)
  else
    Ok (matched_indices, unmatched_positions1_data, unmatched_positions2_data).

(** Line 69: costs above the sentinel are brought down to it. *)
Definition cap (dist : array Q) : array Q :=
  amap (fun c => if Qgtb c sentinel then sentinel else c) dist.

Definition comparing_positions (self : PubTracker)
    (positions1_data positions2_data : list det)
    (positions1 positions2 : list (Q * Q))
  : result (assignment * list nat * list nat) :=
  let M := length positions1_data in
  let N := length positions2_data in
  positions1_cat ← rmap (fun index => of_option (label_preds index) KeyError) positions1_data;
  positions2_cat ← rmap (fun index => of_option (label_preds index) KeyError) positions2_data;
  max_diff ← rmap (fun box =>
                     table ← of_option (velocity_error self) AttributeError;
                     of_option (dict_get (detection_name box) table) KeyError)
                  positions2_data;
  '(dist, matched_indices) ←
    (if (0 <? length positions1)%nat then
       dist ← cost_matrix positions1_cat positions2_cat max_diff positions1 positions2;
       if hungarian self then
         let dist := cap dist in
         let solved := linear_sum_assignment dist in
         Ok (Some dist, IndexTuple solved.1 solved.2)
       else
         matched_indices ← greedy_assignment dist;
         Ok (Some dist, matched_indices)
     else
       if (M =? 0)%nat then Ok (None, PairArray []) else Raise AssertionError);
  unmatched_and_matches self dist matched_indices positions1 positions2.

(** ** The world: the tracker's mutable attributes and the store

    [heap] holds every dictionary the caller or the tracker can reach,
    [tracks] is [self.tracks] as a list of locations.  A computation
    returns a value or an exception together with the world as it left
    it. *)

Record world := mk_world {
  id_count : Z;
  tracks : list loc;
  heap : gmap loc det }.

Definition M (A : Type) : Type := world -> result A * world.

#[global] Instance M_ret : MRet M := fun _ a w => (Ok a, w).
#[global] Instance M_bind : MBind M := fun _ _ k m w =>
  match m w with
  | (Ok a, w') => k a w'
  | (Raise e, w') => (Raise e, w')
  end.

Definition raise {A} (e : exn) : M A := fun w => (Raise e, w).
Definition lift {A} (r : result A) : M A := fun w => (r, w).

(** Reading a dictionary through a reference, and [d[key] = value]. *)
Definition load (l : loc) : M det :=
  fun w => (of_option (heap w !! l) Dangling, w).
Definition modify (l : loc) (f : det -> det) : M unit :=
  fun w =>
    match heap w !! l with
    | Some d => (Ok tt, mk_world (id_count w) (tracks w) (<[l := f d]> (heap w)))
    | None => (Raise Dangling, w)
    end.

Definition get_tracks : M (list loc) := fun w => (Ok (tracks w), w).
Definition set_tracks (ts : list loc) : M unit :=
  fun w => (Ok tt, mk_world (id_count w) ts (heap w)).
Definition get_id_count : M Z := fun w => (Ok (id_count w), w).
Definition set_id_count (n : Z) : M unit :=
  fun w => (Ok tt, mk_world n (tracks w) (heap w)).

(** [d[key]] for a key the tracker adds. *)
Definition field {A} (l : loc) (key : det -> option A) : M A :=
  d ← load l; lift (of_option (key d) KeyError).

(** A [for] loop that appends to a local list. *)
Fixpoint foldM {A B} (body : B -> A -> M B) (acc : B) (l : list A) : M B :=
  match l with
  | [] => mret acc
  | a :: rest => acc' ← body acc a; foldM body acc' rest
  end.

Fixpoint mapM {A B} (f : A -> M B) (l : list A) : M (list B) :=
  match l with
  | [] => mret []
  | a :: rest => b ← f a; bs ← mapM f rest; mret (b :: bs)
  end.

(** [reset] *)
Definition reset : M unit := set_id_count 0;; set_tracks [].

(** ** The per-frame entry point, stage by stage *)

Definition scale (p : Q * Q) (k : Q) : Q * Q := ((p.1 * k)%Q, (p.2 * k)%Q).
Definition plus2 (p q : Q * Q) : Q * Q := ((p.1 + q.1)%Q, (p.2 + q.2)%Q).

(** Lines 163-176: keep the detections of tracked classes and extend
    each with [ct], [tracking] (point mode) and [label_preds]. *)
Definition extend_detection (self : PubTracker) (time_lag : Q)
    (temp : list loc) (det : loc) : M (list loc) :=
  d ← load det;
  names ← lift (of_option (tracking_names self) AttributeError);
  if negb (name_in (detection_name d) names) then mret temp
  else
    modify det (set_ct (first2 (translation d)));;
    match tracker self with
    | PointTracker =>
        modify det (set_tracking (scale (scale (first2 (velocity d)) (-1)%Q) time_lag))
    | _ => mret tt
    end;;
    idx ← lift (of_option (index_of (detection_name d) names) ValueError);
    modify det (set_label_preds idx);;
    mret (temp ++ [det]).

(** Lines 196-208 and 277-289: the filter of a track that is born.  The
    source stores the new filter under ['KF'] before reading ['ct'] for
    its state; every dictionary that reaches this point has ['ct']. *)
Definition birth_filter (self : PubTracker) (track : loc) : M unit :=
  match tracker self with
  | KF =>
      c ← field track ct;
      d ← load track;
      modify track (set_kf (KalmanFilter (use_vel self) c (first2 (velocity d))))
  | _ => mret tt
  end.

(** Lines 184-209: the first frame, or any frame met with no live
    track. *)
Definition first_birth (self : PubTracker) (ret : list loc) (result : loc)
  : M (list loc) :=
  let track := result in
  n ← get_id_count;
  set_id_count (n + 1);;
  n ← get_id_count;
  modify track (set_tracking_id n);;
  modify track (set_age 1);;
  modify track (set_active (min_hits self));;
  birth_filter self track;;
  mret (ret ++ [track]).

(** Lines 214-245: the positions handed to the assignment stage.  In
    filter mode every live track's filter is advanced on the way; with
    any other tracker name neither array is bound when line 248 reads
    them. *)
Definition predict_positions (self : PubTracker) (time_lag : Q) (results : list loc)
  : M (list (Q * Q) * list (Q * Q)) :=
  match tracker self with
  | PointTracker =>
      first ← lift (of_option (results !! 0%nat) IndexError);
      d0 ← load first;
      dets ← (if bool_decide (is_Some (tracking d0))
              then mapM (fun det =>
                           c ← field det ct; t ← field det tracking; mret (plus2 c t))
                        results
              else mapM (fun det => field det ct) results);
      ts ← get_tracks;
      tracks ← mapM (fun pre_det => field pre_det ct) ts;
      mret (dets, tracks)
  | KF =>
      dets ← mapM (fun det => field det ct) results;
      ts ← get_tracks;
      tracks ← mapM (fun tracklet =>
                       k ← field tracklet kf;
                       modify tracklet (set_kf (kf_predict time_lag k));;
                       k ← field tracklet kf;
                       mret (kf_x k 0%nat, kf_x k 1%nat))
                    ts;
      mret (dets, tracks)
  | OtherTracker => raise UnboundLocalError
  end.

(** [l[i]] on a Python list. *)
Definition list_item {A} (l : list A) (i : nat) : M A :=
  lift (of_option (l !! i) IndexError).

(** Lines 258-267 and 319-323: the track's translation and velocity
    are overwritten from the filter state. *)
Definition write_back (track : loc) : M unit :=
  k ← field track kf;
  d ← load track;
  modify track (set_translation (mk_vec (kf_x k 0%nat) (v1 (translation d)) (vrest (translation d))));;
  k ← field track kf;
  d ← load track;
  modify track (set_translation (mk_vec (v0 (translation d)) (kf_x k 1%nat) (vrest (translation d))));;
  k ← field track kf;
  d ← load track;
  modify track (set_velocity (mk_vec (kf_x k 2%nat) (v1 (velocity d)) (vrest (velocity d))));;
  k ← field track kf;
  d ← load track;
  modify track (set_velocity (mk_vec (v0 (velocity d)) (kf_x k 3%nat) (vrest (velocity d)))).

(** Lines 252-268: a matched detection takes over the identity of its
    track. *)
Definition add_match (self : PubTracker) (results : list loc)
    (ret : list loc) (m : list nat) : M (list loc) :=
  m0 ← lift (item m 0);
  track ← list_item results m0;
  m1 ← lift (item m 1);
  ts ← get_tracks;
  old ← list_item ts m1;
  i ← field old tracking_id;
  modify track (set_tracking_id i);;
  modify track (set_age 1);;
  m1 ← lift (item m 1);
  ts ← get_tracks;
  old ← list_item ts m1;
  a ← field old active;
  modify track (set_active (a + 1));;
  match tracker self with
  | KF =>
      m1 ← lift (item m 1);
      ts ← get_tracks;
      old ← list_item ts m1;
      k ← field old kf;
      modify track (set_kf k);;
      k ← field track kf;
      c ← field track ct;
      d ← load track;
      (if use_vel self
       then modify track (set_kf (kf_update [c.1; c.2; v0 (velocity d); v1 (velocity d)] k))
       else modify track (set_kf (kf_update [c.1; c.2] k)));;
      write_back track
  | _ => mret tt
  end;;
  mret (ret ++ [track]).

(** Lines 271-294: an unmatched detection is born as a track. *)
Definition add_birth (self : PubTracker) (results : list loc)
    (ret : list loc) (i : nat) : M (list loc) :=
  track ← list_item results i;
  n ← get_id_count;
  set_id_count (n + 1);;
  n ← get_id_count;
  modify track (set_tracking_id n);;
  modify track (set_age 1);;
  modify track (set_active 1);;
  birth_filter self track;;
  d ← load track;
  (if Qgtb (detection_score d) (det_th self)
   then modify track (set_active 1)
   else modify track (set_active 0));;
  mret (ret ++ [track]).

(** Lines 298-324: an unmatched track is kept, one frame older, or
    dropped. *)
Definition add_stale (self : PubTracker) (ret : list loc) (i : nat) : M (list loc) :=
  ts ← get_tracks;
  track ← list_item ts i;
  (if score_update self
   then d ← load track;
        modify track (set_detection_score (detection_score d - noise self)%Q)
   else mret tt);;
  a ← field track age;
  d ← load track;
  if (a <? max_age self) && Qgtb (detection_score d) (del_th self) then
    a ← field track age;
    modify track (set_age (a + 1));;
    d ← load track;
    (if Qgtb (detection_score d) (s_th self)
     then a ← field track active; modify track (set_active (a + 1))
     else modify track (set_active 0));;
    c ← field track ct;
    d ← load track;
    match tracking d, kf d with
    | Some t, _ =>
        let offset := scale t (-1)%Q in
        modify track (set_ct (plus2 c offset));;
        c ← field track ct;
        d ← load track;
        modify track (set_translation (set_first2 (translation d) c))
    | None, Some _ => write_back track
    | None, None => mret tt
    end;;
    mret (ret ++ [track])
  else mret ret.

(** Lines 251-327: what is done with the outcome of the assignment
    stage. *)
Definition update_tracks (self : PubTracker) (results : list loc)
    (matching : assignment * list nat * list nat) : M (list loc) :=
  let '(matched, unmatched_trk, unmatched_det) := matching in
  ret ← foldM (add_match self results) [] (items matched);
  ret ← foldM (add_birth self results) ret unmatched_det;
  ret ← foldM (add_stale self) ret unmatched_trk;
  set_tracks ret;;
  mret ret.

Definition step_centertrack (self : PubTracker) (results : list loc) (time_lag : Q)
  : M (list loc) :=
  if (length results =? 0)%nat then
    set_tracks [];;
    mret []
  else
    temp ← foldM (extend_detection self time_lag) [] results;
    let results := temp in
    ts ← get_tracks;
    let M := length ts in
    if (M =? 0)%nat then
      ret ← foldM (first_birth self) [] results;
      set_tracks ret;;
      mret ret
    else
      '(dets, tracks) ← predict_positions self time_lag results;
      ts ← get_tracks;
      positions1_data ← mapM load ts;
      positions2_data ← mapM load results;
      matching ← lift (comparing_positions self positions1_data positions2_data tracks dets);
      update_tracks self results matching.

End Tracker.

(** ** A concrete library, to run the tracker on examples

    Square roots are exact on rational squares and rounded down
    otherwise; the solver pairs row [i] with column [i]; the filter is
    its state vector, advanced with the transition matrix of line 237
    and corrected by copying the observation. *)

Definition Qsqrt_floor (q : Q) : Q :=
  Qmake (Z.sqrt (Qnum q * Zpos (Qden q))) (Qden q).

Definition diagonal_assignment (cost : array Q) : list nat * list nat :=
  let k := Nat.min (nrows cost) (ncols cost) in (seq 0 k, seq 0 k).

Definition state_predict (dt : Q) (x : list Q) : list Q :=
  let g (i : nat) : Q := nth i x 0%Q in
  [ (g 0%nat + dt * g 2%nat + dt * dt * g 4%nat)%Q;
    (g 1%nat + dt * g 3%nat + dt * dt * g 5%nat)%Q;
    (g 2%nat + dt * g 4%nat)%Q;
    (g 3%nat + dt * g 5%nat)%Q;
    g 4%nat;
    g 5%nat ].

Definition state_update (z x : list Q) : list Q := z ++ drop (length z) x.

Definition toy_library : Library := {|
  np_sqrt := Qsqrt_floor;
  linear_sum_assignment := diagonal_assignment;
  kalman := list Q;
  KalmanFilter := fun _ c v => [c.1; c.2; v.1; v.2; 0%Q; 0%Q];
  kf_predict := state_predict;
  kf_update := state_update;
  kf_x := fun x i => nth i x 0%Q |}.

(** ** A small scene

    Three dictionaries as a detector would deliver them: a car at the
    origin, a car ten metres away, and an animal, which is not a
    tracked class. *)

Section Scene.
#[local] Existing Instance toy_library.

Definition detection (name : string) (x y score : Q) : det :=
  mk_det (Name name) (mk_vec x y [0%Q]) (mk_vec 1 0 []) score
         None None None None None None None.

Definition scene : gmap loc det :=
  <[0%nat := detection "car" 0 0 (1#2)]>
  (<[1%nat := detection "car" 10 0 (1#2)]>
  (<[2%nat := detection "animal" 0 0 1]> ∅)).

(** [PubTracker(hungarian, max_age, tracker)] on nuScenes, the other
    arguments at their defaults. *)
Definition nuscenes_tracker (hungarian_arg : bool) (max_age_arg : Z)
    (tracker_arg : option tracker_kind) : PubTracker :=
  init hungarian_arg max_age_arg (1#20) 1 1 false 0 0 Nuscenes false tracker_arg.

Definition point_tracker : PubTracker := nuscenes_tracker false 6 None.
Definition optimal_tracker : PubTracker := nuscenes_tracker true 6 None.
Definition filter_tracker : PubTracker := nuscenes_tracker false 6 (Some KF).
Definition optimal_filter_tracker : PubTracker := nuscenes_tracker true 6 (Some KF).
Definition brief_tracker : PubTracker := nuscenes_tracker false 0 None.

(** A tracker just built, and the same tracker after a frame holding
    the first car. *)
Definition fresh : world := mk_world 0 [] scene.

Definition one_track (self : PubTracker) : world :=
  (step_centertrack self [0%nat] (1#2) fresh).2.

(** The first car as the live track it becomes, and a car at [(x, 0)]
    as the class filter leaves it, half a second after the last
    frame; ['tracking'] is the velocity [(1, 0)] times [-1] times the
    half second, as the products leave the fractions. *)
Definition live_car : det :=
  mk_det (Name "car") (mk_vec 0 0 [0%Q]) (mk_vec 1 0 []) (1#2)
         (Some (0, 0)%Q) (Some (-1#2, 0#2)%Q) (Some 2%nat)
         (Some 1) (Some 1) (Some 1) None.

Definition seen_car (x : Q) : det :=
  mk_det (Name "car") (mk_vec x 0 [0%Q]) (mk_vec 1 0 []) (1#2)
         (Some (x, 0)%Q) (Some (-1#2, 0#2)%Q) (Some 2%nat)
         None None None None.

End Scene.

(** * Verification *)

(** ** Numbers and class tables *)

Lemma Qgtb_lt x y : Qgtb x y = true <-> (y < x)%Q.
Proof. unfold Qgtb, Qlt. apply Z.ltb_lt. Qed.

Lemma Qgtb_le x y : Qgtb x y = false <-> (x <= y)%Q.
Proof. unfold Qgtb, Qle. apply Z.ltb_ge. Qed.

(** ** Results *)

Lemma rbind_ok {A B} (r : result A) (k : A -> result B) b :
  rbind r k = Ok b -> exists a, r = Ok a /\ k a = Ok b.
Proof. destruct r as [a|e]; simpl; [eauto | discriminate]. Qed.

Lemma rfilter_raise {A} (keep : A -> result bool) (l : list A) e :
  l <> [] -> (forall a, keep a = Raise e) -> rfilter keep l = Raise e.
Proof. destruct l as [|a rest]; [done|]. intros _ Hk. simpl. by rewrite Hk. Qed.

Lemma rfilter_const {A} (b : bool) (l : list A) :
  rfilter (fun _ => Ok b) l = Ok (if b then l else []).
Proof.
  induction l as [|a rest IH]; simpl; [by destruct b|].
  rewrite IH. by destruct b.
Qed.

Section Assignment.
Context `{Library}.

(** ** The assignment stage never returns once there is a track

    With a non-empty array of track positions the greedy mode stops in
    [greedy_assignment], and the optimal mode stops at the first test
    of [matched_indices[:, 1]], where [matched_indices] is the solver's
    tuple. *)

Lemma comparing_positions_ok_inv self p1d p2d positions1 positions2 r :
  comparing_positions self p1d p2d positions1 positions2 = Ok r ->
  positions1 = [] /\ p1d = [] /\
  r = (PairArray [], [], seq 0 (length positions2)).
Proof.
  unfold comparing_positions, mbind, result_bind. intros Hr.
  apply rbind_ok in Hr as (cat1 & _ & Hr).
  apply rbind_ok in Hr as (cat2 & _ & Hr).
  apply rbind_ok in Hr as (max_diff & _ & Hr).
  apply rbind_ok in Hr as ([dist mi] & Hsolve & Hr).
  destruct positions1 as [|p positions1]; simpl in Hsolve.
  - destruct p1d as [|d p1d]; simpl in Hsolve; [|discriminate].
    injection Hsolve as <- <-. unfold unmatched_and_matches in Hr. simpl in Hr.
    rewrite (rfilter_const true) in Hr. simpl in Hr.
    destruct (hungarian self); simpl in Hr; by injection Hr as <-.
  - exfalso.
    apply rbind_ok in Hsolve as (cost & _ & Hsolve).
    destruct (hungarian self).
    + injection Hsolve as <- <-. unfold unmatched_and_matches in Hr.
      apply rbind_ok in Hr as (u1 & Hu1 & _).
      by rewrite (rfilter_raise _ _ TypeError) in Hu1.
    + discriminate.
Qed.

End Assignment.

(** ** A weakest-precondition calculus for [M]

    [wp m Q w] says that running [m] in [w] ends, with a value or an
    exception, in a world where [Q] holds of the outcome. *)

Section Calculus.
Context `{Library}.

Definition wp {A} (m : M A) (Q : result A -> world -> Prop) (w : world) : Prop :=
  Q (m w).1 (m w).2.

Lemma wp_run {A} (m : M A) Q w r w' : wp m Q w -> m w = (r, w') -> Q r w'.
Proof. unfold wp. intros HQ Hrun. by rewrite Hrun in HQ. Qed.

Lemma wp_mono {A} (m : M A) (Q Q' : result A -> world -> Prop) w :
  wp m Q w -> (forall r w', Q r w' -> Q' r w') -> wp m Q' w.
Proof. unfold wp. auto. Qed.

Lemma wp_ret {A} (a : A) Q w : Q (Ok a) w -> wp (mret a) Q w.
Proof. done. Qed.

Lemma wp_raise {A} e (Q : result A -> world -> Prop) w : Q (Raise e) w -> wp (raise e) Q w.
Proof. done. Qed.

Lemma wp_lift {A} (r : result A) Q w : Q r w -> wp (lift r) Q w.
Proof. done. Qed.

Lemma wp_bind {A B} (m : M A) (k : A -> M B) Q w :
  wp m (fun r w' => match r with
                    | Ok a => wp (k a) Q w'
                    | Raise e => Q (Raise e) w'
                    end) w ->
  wp (m ≫= k) Q w.
Proof.
  unfold wp, mbind, M_bind. destruct (m w) as [[a|e] w']; simpl; auto.
Qed.

Lemma wp_load l Q w :
  match heap w !! l with
  | Some d => Q (Ok d) w
  | None => Q (Raise Dangling) w
  end ->
  wp (load l) Q w.
Proof. unfold wp, load. simpl. by destruct (heap w !! l). Qed.

Lemma wp_modify l f Q w :
  match heap w !! l with
  | Some d => Q (Ok tt) (mk_world (id_count w) (tracks w) (<[l := f d]> (heap w)))
  | None => Q (Raise Dangling) w
  end ->
  wp (modify l f) Q w.
Proof. unfold wp, modify. by destruct (heap w !! l). Qed.

Lemma wp_field {A} l (key : det -> option A) Q w :
  match heap w !! l with
  | Some d => match key d with
              | Some a => Q (Ok a) w
              | None => Q (Raise KeyError) w
              end
  | None => Q (Raise Dangling) w
  end ->
  wp (field l key) Q w.
Proof.
  intros HQ. unfold field. apply wp_bind, wp_load.
  destruct (heap w !! l) as [d|]; [|done].
  apply wp_lift. by destruct (key d).
Qed.

Lemma wp_get_tracks Q w : Q (Ok (tracks w)) w -> wp get_tracks Q w.
Proof. done. Qed.

Lemma wp_set_tracks ts Q w :
  Q (Ok tt) (mk_world (id_count w) ts (heap w)) -> wp (set_tracks ts) Q w.
Proof. done. Qed.

Lemma wp_get_id_count Q w : Q (Ok (id_count w)) w -> wp get_id_count Q w.
Proof. done. Qed.

Lemma wp_set_id_count n Q w :
  Q (Ok tt) (mk_world n (tracks w) (heap w)) -> wp (set_id_count n) Q w.
Proof. done. Qed.

Lemma wp_list_item {A} (l : list A) i Q w :
  match l !! i with
  | Some a => Q (Ok a) w
  | None => Q (Raise IndexError) w
  end ->
  wp (list_item l i) Q w.
Proof. unfold list_item. intros HQ. apply wp_lift. by destruct (l !! i). Qed.

(** Loops, by an invariant on the accumulator, the elements still to
    come and the world; an exception may leave the loop in any world
    that [E] accepts. *)
Lemma wp_foldM {A B} (body : B -> A -> M B)
    (I : B -> list A -> world -> Prop) (E : exn -> world -> Prop) l acc w :
  I acc l w ->
  (forall acc a rest w, I acc (a :: rest) w ->
     wp (body acc a) (fun r w' => match r with
                                  | Ok acc' => I acc' rest w'
                                  | Raise e => E e w'
                                  end) w) ->
  wp (foldM body acc l) (fun r w' => match r with
                                     | Ok acc' => I acc' [] w'
                                     | Raise e => E e w'
                                     end) w.
Proof.
  intros HI Hbody. revert acc w HI.
  induction l as [|a rest IH]; intros acc w HI; simpl.
  - by apply wp_ret.
  - apply wp_bind. eapply wp_mono; [by apply Hbody|].
    intros [acc'|e] w' Hr; [by apply IH | done].
Qed.

Lemma wp_mapM {A B} (f : A -> M B)
    (I : list B -> list A -> world -> Prop) (E : exn -> world -> Prop) l w :
  I [] l w ->
  (forall done a rest w, I done (a :: rest) w ->
     wp (f a) (fun r w' => match r with
                           | Ok b => I (done ++ [b]) rest w'
                           | Raise e => E e w'
                           end) w) ->
  wp (mapM f l) (fun r w' => match r with
                             | Ok bs => I bs [] w'
                             | Raise e => E e w'
                             end) w.
Proof.
  intros HI Hf.
  cut (forall done w, I done l w ->
         wp (mapM f l) (fun r w' => match r with
                                    | Ok bs => I (done ++ bs) [] w'
                                    | Raise e => E e w'
                                    end) w).
  { intros Hgen. by apply (Hgen []). }
  clear HI w. induction l as [|a rest IH]; intros done w HI; simpl.
  - apply wp_ret. by rewrite app_nil_r.
  - apply wp_bind. eapply wp_mono; [by apply Hf|].
    intros [b|e] w' Hr; [|done].
    apply wp_bind. eapply wp_mono; [apply IH; exact Hr|].
    intros [bs|e] w'' Hr'; [|done].
    apply wp_ret. by rewrite <- app_assoc in Hr'.
Qed.

End Calculus.

(** ** Class filtering *)

Lemma index_of_in n names : n ∈ names -> is_Some (index_of n names).
Proof.
  induction names as [|m rest IH]; intros Hin; [by apply elem_of_nil in Hin|].
  simpl. destruct (decide (n = m)) as [|Hne]; [by eexists|].
  apply elem_of_cons in Hin as [|Hin]; [done|].
  destruct (IH Hin) as [i ->]. by eexists.
Qed.

(** Running a chain of writes to one dictionary. *)
Ltac run_heap :=
  repeat progress (simpl; rewrite ?lookup_insert_eq, ?insert_insert_eq).

Section Stages.
Context `{Library}.

(** The record a tracked detection becomes in lines 169-173. *)
Definition extended (self : PubTracker) (time_lag : Q) (idx : nat) (d : det) : det :=
  set_label_preds idx
    (match tracker self with
     | PointTracker =>
         set_tracking (scale (scale (first2 (velocity d)) (-1)%Q) time_lag)
     | _ => fun d' => d'
     end (set_ct (first2 (translation d)) d)).

(** Whether a record is of a class the tracker follows. *)
Definition tracked (self : PubTracker) (d : det) : bool :=
  match tracking_names self with
  | Some names => name_in (detection_name d) names
  | None => false
  end.

Lemma extend_detection_untracked self time_lag temp l d names w :
  heap w !! l = Some d -> tracking_names self = Some names ->
  tracked self d = false ->
  extend_detection self time_lag temp l w = (Ok temp, w).
Proof.
  intros Hl Hn Ht. unfold tracked in Ht. rewrite Hn in Ht.
  unfold extend_detection, mbind, M_bind, load, lift. simpl.
  rewrite Hl, Hn. simpl. by rewrite Ht.
Qed.

Lemma extend_detection_tracked self time_lag temp l d w :
  heap w !! l = Some d -> tracked self d = true ->
  exists idx,
    extend_detection self time_lag temp l w =
      (Ok (temp ++ [l]),
       mk_world (id_count w) (tracks w) (<[l := extended self time_lag idx d]> (heap w))).
Proof.
  intros Hl Ht. unfold tracked in Ht.
  destruct (tracking_names self) as [names|] eqn:Hn; [|done].
  destruct (index_of_in (detection_name d) names) as [idx Hidx].
  { by apply bool_decide_eq_true in Ht. }
  exists idx.
  unfold extend_detection, mbind, M_bind, load, lift, modify, extended. simpl.
  rewrite Hl, Hn. simpl. rewrite Ht. simpl. rewrite Hl. simpl.
  destruct (tracker self); simpl;
    rewrite ?lookup_insert_eq, ?Hidx; simpl;
    rewrite ?lookup_insert_eq, ?insert_insert_eq; done.
Qed.

Lemma extend_detection_no_names self time_lag temp l d w :
  heap w !! l = Some d -> tracking_names self = None ->
  extend_detection self time_lag temp l w = (Raise AttributeError, w).
Proof.
  intros Hl Hn. unfold extend_detection, mbind, M_bind, load, lift. simpl.
  by rewrite Hl, Hn.
Qed.

Lemma extend_detection_dangling self time_lag temp l w :
  heap w !! l = None ->
  extend_detection self time_lag temp l w = (Raise Dangling, w).
Proof.
  intros Hl. unfold extend_detection, mbind, M_bind, load. simpl. by rewrite Hl.
Qed.

(** *** Relating the world before and after a stage *)

Definition same_state (w w' : world) : Prop :=
  id_count w' = id_count w /\ tracks w' = tracks w.

(** Every dictionary of [w] is still there in [w'], changed as [F]
    allows, and no dictionary has appeared. *)
Definition heap_rel (F : loc -> det -> det -> Prop) (w w' : world) : Prop :=
  forall l,
    match heap w !! l with
    | Some d => exists d', heap w' !! l = Some d' /\ F l d d'
    | None => heap w' !! l = None
    end.

Lemma heap_rel_refl (F : loc -> det -> det -> Prop) w :
  (forall l d, F l d d) -> heap_rel F w w.
Proof. intros HF l. destruct (heap w !! l) as [d|] eqn:Hl; eauto. Qed.

Lemma heap_rel_trans (F G K : loc -> det -> det -> Prop) w1 w2 w3 :
  (forall l a b c, F l a b -> G l b c -> K l a c) ->
  heap_rel F w1 w2 -> heap_rel G w2 w3 -> heap_rel K w1 w3.
Proof.
  intros HK H12 H23 l. specialize (H12 l). specialize (H23 l).
  destruct (heap w1 !! l) as [a|].
  - destruct H12 as (b & Hb & Hab). rewrite Hb in H23.
    destruct H23 as (c & Hc & Hbc). eauto.
  - by rewrite H12 in H23.
Qed.

Lemma heap_rel_mono (F G : loc -> det -> det -> Prop) w w' :
  (forall l a b, F l a b -> G l a b) -> heap_rel F w w' -> heap_rel G w w'.
Proof.
  intros HFG Hr l. specialize (Hr l).
  destruct (heap w !! l); [|done]. destruct Hr as (d' & ? & ?). eauto.
Qed.

Lemma heap_rel_insert (F : loc -> det -> det -> Prop) w l d d' :
  heap w !! l = Some d -> F l d d' -> (forall l0 d0, F l0 d0 d0) ->
  heap_rel F w (mk_world (id_count w) (tracks w) (<[l := d']> (heap w))).
Proof.
  intros Hl HF Hrefl l0. simpl.
  destruct (decide (l = l0)) as [<-|Hne].
  - rewrite Hl, lookup_insert_eq. eauto.
  - rewrite lookup_insert_ne by done. destruct (heap w !! l0); eauto.
Qed.

(** *** The class filter as a whole *)

Definition tracked_at (self : PubTracker) (w : world) (l : loc) : bool :=
  match heap w !! l with
  | Some d => tracked self d
  | None => false
  end.

(** What the filter may do to the dictionary at [l]: nothing, or, for a
    tracked detection of the frame, the extension of lines 169-173. *)
Definition ext_step (self : PubTracker) (time_lag : Q) (frame : list loc)
    (l : loc) (d d' : det) : Prop :=
  d' = d \/
  (l ∈ frame /\ tracked self d = true /\ exists idx, d' = extended self time_lag idx d).

Lemma extended_tracked self time_lag idx d :
  tracked self (extended self time_lag idx d) = tracked self d.
Proof. unfold tracked, extended. by destruct (tracker self). Qed.

Lemma extended_idem self time_lag idx idx' d :
  extended self time_lag idx' (extended self time_lag idx d) =
  extended self time_lag idx' d.
Proof. unfold extended. by destruct (tracker self). Qed.

Lemma ext_step_trans self time_lag frame l a b c :
  ext_step self time_lag frame l a b -> ext_step self time_lag frame l b c ->
  ext_step self time_lag frame l a c.
Proof.
  intros [->|(Hin & Ht & idx & ->)]; [done|].
  intros [->|(_ & _ & idx' & ->)]; right; split_and!; eauto.
  rewrite extended_idem. eauto.
Qed.

Lemma ext_step_weaken self time_lag frame frame' l a b :
  (forall x, x ∈ frame -> x ∈ frame') ->
  ext_step self time_lag frame l a b -> ext_step self time_lag frame' l a b.
Proof. intros Hsub [->|(Hin & Ht & Hex)]; [by left|right; auto]. Qed.

Lemma tracked_at_ext self time_lag frame w w' l :
  heap_rel (ext_step self time_lag frame) w w' ->
  tracked_at self w' l = tracked_at self w l.
Proof.
  intros Hr. specialize (Hr l). unfold tracked_at.
  destruct (heap w !! l) as [d|]; [|by rewrite Hr].
  destruct Hr as (d' & -> & [->|(_ & _ & idx & ->)]); [done|].
  apply extended_tracked.
Qed.

(** The loop of lines 164-174 leaves the tracker's attributes alone,
    extends the tracked detections of the frame and nothing else, and
    returns them in order; it can only stop on a missing class table. *)
Lemma extend_loop self time_lag results temp w :
  let out := foldM (extend_detection self time_lag) temp results w in
  same_state w out.2 /\
  heap_rel (ext_step self time_lag results) w out.2 /\
  match out.1 with
  | Ok temp' =>
      temp' = temp ++ filter (fun l => tracked_at self w l = true) results /\
      forall l, l ∈ results -> tracked_at self w l = true ->
        exists d idx, heap w !! l = Some d /\
                      heap out.2 !! l = Some (extended self time_lag idx d)
  | Raise e =>
      (e = AttributeError /\ tracking_names self = None) \/
      (e = Dangling /\ exists l, l ∈ results /\ heap w !! l = None)
  end.
Proof.
  revert temp w. induction results as [|a rest IH]; intros temp w; simpl.
  { split_and!.
    - done.
    - apply heap_rel_refl. by left.
    - by rewrite filter_nil, app_nil_r.
    - intros l Hl. by apply elem_of_nil in Hl. }
  unfold mbind at 1 2 3 4. unfold M_bind.
  destruct (heap w !! a) as [d|] eqn:Ha.
  2:{ rewrite extend_detection_dangling by done. simpl.
      split_and!; [done|by apply heap_rel_refl; left|].
      right. split; [done|]. exists a. split; [apply elem_of_cons; auto|done]. }
  destruct (tracking_names self) as [names|] eqn:Hn.
  2:{ rewrite (extend_detection_no_names _ _ _ _ d) by done. simpl.
      split_and!; [done|by apply heap_rel_refl; left|]. by left. }
  destruct (tracked self d) eqn:Ht.
  - destruct (extend_detection_tracked self time_lag temp a d w Ha Ht) as [idx ->].
    set (w1 := mk_world _ _ _).
    specialize (IH (temp ++ [a]) w1). simpl in IH.
    destruct IH as ([Hid Htr] & Hrel & Hout).
    assert (Hstep : heap_rel (ext_step self time_lag (a :: rest)) w w1).
    { apply (heap_rel_insert _ w a d); [done| |by left].
      right. split_and!; [apply elem_of_cons; auto|done|eauto]. }
    assert (Hrel' : heap_rel (ext_step self time_lag (a :: rest)) w
                      (foldM (extend_detection self time_lag) (temp ++ [a]) rest w1).2).
    { eapply heap_rel_trans; [apply ext_step_trans|exact Hstep|].
      eapply heap_rel_mono; [|exact Hrel].
      intros l x y. apply ext_step_weaken. intros z Hz. apply elem_of_cons; auto. }
    split_and!; [done|exact Hrel'|].
    destruct (foldM _ _ rest w1).1 as [temp'|e] eqn:Hres.
    + destruct Hout as [-> Hall]. split.
      * rewrite filter_cons_True by (unfold tracked_at; by rewrite Ha).
        rewrite <- app_assoc. simpl. f_equal. f_equal.
        apply list_filter_iff. intros l.
        by rewrite (tracked_at_ext self time_lag (a :: rest) w w1 l Hstep).
      * intros l Hl Htl.
        specialize (Hrel' l). unfold tracked_at in Htl.
        destruct (heap w !! l) as [dl|] eqn:Hdl; [|done].
        destruct Hrel' as (dl' & Hdl' & Hext).
        destruct (decide (l = a)) as [->|Hne].
        -- assert (dl = d) as -> by congruence.
           specialize (Hrel a). unfold w1 in Hrel at 1. simpl in Hrel.
           rewrite lookup_insert_eq in Hrel.
           destruct Hrel as (d2 & Hd2 & Hx). rewrite Hdl' in Hd2.
           injection Hd2 as <-.
           destruct Hx as [Hx|(_ & _ & idx' & Hx)].
           ++ exists d, idx. split; [done|]. by rewrite Hdl', Hx.
           ++ rewrite extended_idem in Hx. exists d, idx'. split; [done|].
              by rewrite Hdl', Hx.
        -- apply elem_of_cons in Hl as [|Hl]; [done|].
           destruct (Hall l Hl) as (d1 & idx1 & Hd1 & Hd1').
           { rewrite (tracked_at_ext self time_lag (a :: rest) w w1 l Hstep).
             unfold tracked_at. by rewrite Hdl. }
           unfold w1 in Hd1. simpl in Hd1. rewrite lookup_insert_ne in Hd1 by done.
           assert (d1 = dl) as -> by congruence. eauto.
    + destruct Hout as [Hout|(-> & l & Hl & Hnone)]; [by left|].
      right. split; [done|]. exists l. split; [apply elem_of_cons; auto|].
      specialize (Hstep l). destruct (heap w !! l); [|done].
      destruct Hstep as (? & Hsome & _). unfold w1 in Hsome. simpl in *. congruence.
  - rewrite (extend_detection_untracked _ _ _ _ d names) by done.
    specialize (IH temp w). simpl in IH.
    destruct IH as (Hst & Hrel & Hout).
    split_and!; [done| |].
    { eapply heap_rel_mono; [|exact Hrel].
      intros l x y. apply ext_step_weaken. intros z Hz. apply elem_of_cons; auto. }
    destruct (foldM _ _ rest w).1 as [temp'|e].
    + destruct Hout as [-> Hall]. split.
      * rewrite filter_cons_False; [done|].
        unfold tracked_at. rewrite Ha. congruence.
      * intros l Hl Htl. apply elem_of_cons in Hl as [->|Hl]; [|by apply Hall].
        unfold tracked_at in Htl. rewrite Ha in Htl. congruence.
    + destruct Hout as [Hout|(-> & l & Hl & Hnone)]; [by left|].
      right. split; [done|]. exists l. split; [apply elem_of_cons; auto|done].
Qed.

(** The record a detection becomes when it is born as track [n] with
    activity [a]. *)
Definition born (self : PubTracker) (n a : Z) (d : det) : det :=
  let d1 := set_active a (set_age 1 (set_tracking_id n d)) in
  match tracker self, ct d with
  | KF, Some c => set_kf (KalmanFilter (use_vel self) c (first2 (velocity d))) d1
  | _, _ => d1
  end.

Definition kf_ready (self : PubTracker) (d : det) : Prop :=
  tracker self = KF -> is_Some (ct d).

Definition birth_activity (self : PubTracker) (d : det) : Z :=
  if Qgtb (detection_score d) (det_th self) then 1 else 0.

Lemma first_birth_eq self ret l d w :
  heap w !! l = Some d -> kf_ready self d ->
  first_birth self ret l w =
    (Ok (ret ++ [l]),
     mk_world (id_count w + 1) (tracks w)
       (<[l := born self (id_count w + 1) (min_hits self) d]> (heap w))).
Proof.
  intros Hl Hk.
  unfold first_birth, birth_filter, field, born, mbind, M_bind,
    get_id_count, set_id_count, modify, load, lift. simpl.
  rewrite Hl. run_heap.
  destruct (tracker self) eqn:Htr; run_heap; try done.
  destruct (Hk Htr) as [c Hc]. rewrite Hc. by run_heap.
Qed.

Lemma add_birth_eq self results ret i l d w :
  results !! i = Some l -> heap w !! l = Some d -> kf_ready self d ->
  add_birth self results ret i w =
    (Ok (ret ++ [l]),
     mk_world (id_count w + 1) (tracks w)
       (<[l := born self (id_count w + 1) (birth_activity self d) d]> (heap w))).
Proof.
  intros Hi Hl Hk.
  unfold add_birth, list_item, birth_filter, field, born, birth_activity, mbind, M_bind,
    get_id_count, set_id_count, modify, load, lift. simpl.
  rewrite Hi. simpl. rewrite Hl. run_heap.
  destruct (tracker self) eqn:Htr; run_heap.
  - destruct (Qgtb _ _); by run_heap.
  - destruct (Hk Htr) as [c Hc]. rewrite Hc. run_heap.
    destruct (Qgtb _ _); by run_heap.
  - destruct (Qgtb _ _); by run_heap.
Qed.

(** *** Loops of births

    The first-frame loop and the loop over unmatched detections both
    give one fresh identity per element, in order.  [birth_step] is
    what such a loop may do to one dictionary. *)

Definition birth_step (self : PubTracker) (act : det -> Z) (lo hi : Z)
    (ls : list loc) (l : loc) (d d' : det) : Prop :=
  d' = d \/ (l ∈ ls /\ exists n, lo < n <= hi /\ d' = born self n (act d) d).

Lemma born_idem self n n' a d :
  born self n' a (born self n a d) = born self n' a d.
Proof.
  unfold born. destruct (tracker self); try done.
  destruct (ct d) as [c|] eqn:Hc; simpl; by rewrite Hc.
Qed.

Lemma born_kf_ready self n a d : kf_ready self d -> kf_ready self (born self n a d).
Proof.
  unfold kf_ready, born. intros Hk Htr. destruct (Hk Htr) as [c Hc].
  rewrite Hc, Htr. simpl. eauto.
Qed.

Lemma birth_step_trans self act lo hi ls l a b c :
  (forall n x d, act (born self n x d) = act d) ->
  birth_step self act lo hi ls l a b -> birth_step self act lo hi ls l b c ->
  birth_step self act lo hi ls l a c.
Proof.
  intros Hact [->|(Hin & n & Hn & ->)]; [done|].
  intros [->|(_ & n' & Hn' & ->)]; right; split; eauto.
  exists n'. split; [done|]. by rewrite Hact, born_idem.
Qed.

Lemma birth_step_weaken self act lo hi lo' hi' ls ls' l a b :
  lo' <= lo -> hi <= hi' -> (forall x, x ∈ ls -> x ∈ ls') ->
  birth_step self act lo hi ls l a b -> birth_step self act lo' hi' ls' l a b.
Proof.
  intros Hlo Hhi Hsub [->|(Hin & n & Hn & ->)]; [by left|].
  right. split; [auto|]. exists n. split; [lia|done].
Qed.

Lemma birth_loop {A} self (body : list loc -> A -> M (list loc))
    (loc_of : A -> loc -> Prop) (act : det -> Z) items ls ret w :
  (forall ret a l d w, loc_of a l -> heap w !! l = Some d -> kf_ready self d ->
     body ret a w =
       (Ok (ret ++ [l]),
        mk_world (id_count w + 1) (tracks w)
          (<[l := born self (id_count w + 1) (act d) d]> (heap w)))) ->
  (forall n x d, act (born self n x d) = act d) ->
  Forall2 loc_of items ls ->
  (forall l, l ∈ ls -> exists d, heap w !! l = Some d /\ kf_ready self d) ->
  let out := foldM body ret items w in
  out.1 = Ok (ret ++ ls) /\
  id_count out.2 = id_count w + Z.of_nat (length ls) /\
  tracks out.2 = tracks w /\
  heap_rel (birth_step self act (id_count w) (id_count w + Z.of_nat (length ls)) ls) w out.2 /\
  forall k l d, ls !! k = Some l -> l ∉ drop (S k) ls -> heap w !! l = Some d ->
    heap out.2 !! l = Some (born self (id_count w + Z.of_nat k + 1) (act d) d).
Proof.
  intros Hbody Hact Hitems. revert ret w.
  induction Hitems as [|a l items ls Hal Hitems IH]; intros ret w Hready.
  { simpl. split_and!.
    - by rewrite app_nil_r.
    - lia.
    - done.
    - apply heap_rel_refl. by left.
    - intros k l d Hk. by rewrite lookup_nil in Hk. }
  destruct (Hready l) as (d & Hl & Hk); [apply elem_of_cons; auto|].
  cbn [foldM]. unfold mbind at 1 2 3 4 5. unfold M_bind.
  rewrite (Hbody ret a l d w Hal Hl Hk).
  set (w1 := mk_world _ _ _).
  assert (Hstep : heap_rel (birth_step self act (id_count w)
                     (id_count w + Z.of_nat (length (l :: ls))) (l :: ls)) w w1).
  { apply (heap_rel_insert _ w l d); [done| |by left].
    right. split; [apply elem_of_cons; auto|].
    exists (id_count w + 1). split; [simpl; lia|done]. }
  destruct (IH (ret ++ [l]) w1) as (Hout & Hid & Htr & Hrel & Hexact).
  { intros l' Hl'. unfold w1. simpl.
    destruct (decide (l = l')) as [<-|Hne].
    - rewrite lookup_insert_eq. eexists. split; [done|]. by apply born_kf_ready.
    - rewrite lookup_insert_ne by done. apply Hready, elem_of_cons. auto. }
  assert (Hrel' : heap_rel (birth_step self act (id_count w)
                     (id_count w + Z.of_nat (length (l :: ls))) (l :: ls)) w
                     (foldM body (ret ++ [l]) items w1).2).
  { eapply heap_rel_trans; [intros ????; by apply birth_step_trans|exact Hstep|].
    eapply heap_rel_mono; [|exact Hrel].
    intros l' x y. apply birth_step_weaken.
    - unfold w1. simpl. lia.
    - unfold w1. simpl. lia.
    - intros z Hz. apply elem_of_cons. auto. }
  split_and!.
  - rewrite Hout. by rewrite <- app_assoc.
  - rewrite Hid. unfold w1. simpl. lia.
  - by rewrite Htr.
  - exact Hrel'.
  - intros k l' d' Hk' Hlast Hl'. destruct k as [|k]; simpl in Hk', Hlast.
    + injection Hk' as <-. assert (d' = d) as -> by congruence.
      specialize (Hrel l). unfold w1 in Hrel at 1. simpl in Hrel.
      rewrite lookup_insert_eq in Hrel.
      destruct Hrel as (d2 & Hd2 & [->|(Hin & _)]); [|done].
      rewrite Hd2. do 2 f_equal. lia.
    + destruct (decide (l = l')) as [<-|Hne].
      * assert (d' = d) as -> by congruence.
        rewrite (Hexact k l (born self (id_count w + 1) (act d) d) Hk' Hlast).
        -- rewrite Hact, born_idem. do 2 f_equal. unfold w1. simpl. lia.
        -- unfold w1. simpl. by rewrite lookup_insert_eq.
      * rewrite (Hexact k l' d' Hk' Hlast).
        -- do 2 f_equal. unfold w1. simpl. lia.
        -- unfold w1. simpl. by rewrite lookup_insert_ne.
Qed.

(** *** Predicting positions

    In point mode the stage only reads; in filter mode it advances the
    filter of every live track.  Either way it hands the assignment
    stage one position per live track. *)

Definition kf_step (ts : list loc) (l : loc) (d d' : det) : Prop :=
  d' = d \/ (l ∈ ts /\ exists k, d' = set_kf k d).

Lemma kf_step_trans ts l a b c :
  kf_step ts l a b -> kf_step ts l b c -> kf_step ts l a c.
Proof.
  intros [->|(Hin & k & ->)]; [done|].
  intros [->|(_ & k' & ->)]; right; split; eauto.
Qed.

Lemma mapM_reads {A B} (f : A -> M B) (l : list A) w :
  (forall a w, (f a w).2 = w) ->
  (mapM f l w).2 = w /\
  forall bs, (mapM f l w).1 = Ok bs -> length bs = length l.
Proof.
  intros Hf. induction l as [|a rest [IHw IHl]]; simpl; [by split; [|intros ? [= <-]]|].
  unfold mbind, M_bind. specialize (Hf a w).
  destruct (f a w) as [[b|e] w1]; simpl in *; subst w1; [|done].
  destruct (mapM f rest w) as [[bs|e] w2]; simpl in *; subst w2; [|done].
  split; [done|]. intros ? [= <-]. simpl. f_equal. by apply IHl.
Qed.

Lemma field_reads {A} l (key : det -> option A) w : (field l key w).2 = w.
Proof.
  unfold field, mbind, M_bind, load, lift. simpl. by destruct (heap w !! l).
Qed.

Lemma load_reads l w : (load l w).2 = w.
Proof. done. Qed.

Lemma predict_positions_spec self time_lag results w :
  wp (predict_positions self time_lag results)
     (fun r w' =>
        same_state w w' /\
        heap_rel (kf_step (tracks w)) w w' /\
        forall dets trks, r = Ok (dets, trks) -> length trks = length (tracks w)) w.
Proof.
  assert (Hrefl : heap_rel (kf_step (tracks w)) w w) by (apply heap_rel_refl; by left).
  unfold predict_positions. destruct (tracker self).
  - (* point mode: nothing is written *)
    apply wp_bind, wp_lift. destruct (results !! 0%nat) as [first|]; [|done].
    apply wp_bind, wp_load. destruct (heap w !! first) as [d0|]; [|done].
    apply wp_bind. unfold wp at 1.
    set (m := if bool_decide _ then _ else _).
    assert (Hm : (m w).2 = w).
    { unfold m. destruct (bool_decide _); apply mapM_reads; intros a w0.
      - unfold mbind, M_bind.
        pose proof (field_reads a ct w0) as H1.
        destruct (field a ct w0) as [[c|e] w1]; simpl in *; subst; [|done].
        pose proof (field_reads a tracking w0) as H2.
        destruct (field a tracking w0) as [[t|e] w1]; simpl in *; by subst.
      - apply field_reads. }
    destruct (m w) as [[dets|e] w1]; simpl in Hm; subst w1; simpl; [|done].
    apply wp_bind, wp_get_tracks. apply wp_bind. unfold wp at 1.
    destruct (mapM_reads (fun pre_det => field pre_det ct) (tracks w) w) as [Hw Hlen].
    { intros. apply field_reads. }
    destruct (mapM _ (tracks w) w) as [[trks|e] w1]; simpl in *; subst w1; [|done].
    apply wp_ret. split_and!; [done|done|]. intros ?? [= <- <-]. by apply Hlen.
  - (* filter mode: every live track's filter is advanced *)
    apply wp_bind. unfold wp at 1.
    destruct (mapM_reads (fun det => field det ct) results w) as [Hw _].
    { intros. apply field_reads. }
    destruct (mapM _ results w) as [[dets|e] w1]; simpl in *; subst w1; [|done].
    apply wp_bind, wp_get_tracks. apply wp_bind.
    eapply wp_mono.
    + apply (wp_mapM _
        (fun done rest w' =>
           same_state w w' /\ heap_rel (kf_step (tracks w)) w w' /\
           (length done + length rest = length (tracks w))%nat /\
           forall x, x ∈ rest -> x ∈ tracks w)
        (fun _ w' => same_state w w' /\ heap_rel (kf_step (tracks w)) w w')).
      * split_and!; [done|done|done|auto].
      * intros done a rest w0 (Hst & Hrel & Hlen & Hsub).
        apply wp_bind, wp_field. destruct (heap w0 !! a) as [d|] eqn:Ha; [|done].
        destruct (kf d) as [k|]; [|done].
        apply wp_bind, wp_modify. rewrite Ha.
        set (w1 := mk_world _ _ _).
        assert (Hrel1 : heap_rel (kf_step (tracks w)) w w1).
        { eapply heap_rel_trans; [apply kf_step_trans|exact Hrel|].
          apply (heap_rel_insert _ w0 a d); [done| |by left].
          right. split; [apply Hsub, elem_of_cons; auto|eauto]. }
        apply wp_bind, wp_field. unfold w1 at 1. simpl. rewrite lookup_insert_eq. simpl.
        apply wp_ret. split_and!.
        -- done.
        -- exact Hrel1.
        -- rewrite length_app. simpl in *. lia.
        -- intros x Hx. apply Hsub, elem_of_cons. auto.
    + intros [trks|e] w1; [|by intros [? ?]].
      intros (Hst & Hrel & Hlen & _). apply wp_ret.
      split_and!; [done|done|]. intros ?? [= <- <-]. simpl in Hlen. lia.
  - by apply wp_raise.
Qed.

(** *** A frame met with live tracks

    Whatever the detections, a non-empty frame processed while a track
    is alive ends in an exception: the class filter and the prediction
    run, then the assignment stage stops.  The tracker's attributes are
    as before; dictionaries have at most been extended by the filter
    and had their Kalman state advanced. *)

Definition live_step (self : PubTracker) (time_lag : Q) (frame ts : list loc)
    (l : loc) (d d' : det) : Prop :=
  exists d1, ext_step self time_lag frame l d d1 /\ kf_step ts l d1 d'.

Lemma same_state_trans w1 w2 w3 :
  same_state w1 w2 -> same_state w2 w3 -> same_state w1 w3.
Proof. unfold same_state. intros [-> ->] [-> ->]. done. Qed.

Lemma step_live_frame self results time_lag w :
  results <> [] -> tracks w <> [] ->
  let out := step_centertrack self results time_lag w in
  is_ok out.1 = false /\
  same_state w out.2 /\
  heap_rel (live_step self time_lag results (tracks w)) w out.2 /\
  ((forall x, x ∈ results -> is_Some (heap w !! x)) ->
   forall l, l ∈ results -> tracked_at self w l = true ->
     exists d idx d', heap w !! l = Some d /\ heap out.2 !! l = Some d' /\
                      kf_step (tracks w) l (extended self time_lag idx d) d').
Proof.
  intros Hres Htr.
  change (wp (step_centertrack self results time_lag)
            (fun r w' => is_ok r = false /\ same_state w w' /\
               heap_rel (live_step self time_lag results (tracks w)) w w' /\
               ((forall x, x ∈ results -> is_Some (heap w !! x)) ->
                forall l, l ∈ results -> tracked_at self w l = true ->
                  exists d idx d', heap w !! l = Some d /\ heap w' !! l = Some d' /\
                     kf_step (tracks w) l (extended self time_lag idx d) d')) w).
  assert (Hlift : forall w', same_state w w' ->
            heap_rel (ext_step self time_lag results) w w' ->
            heap_rel (live_step self time_lag results (tracks w)) w w').
  { intros w' _. apply heap_rel_mono. intros l a b Hab. exists b. split; [done|by left]. }
  unfold step_centertrack.
  destruct results as [|r0 results]; [done|]. cbn [length Nat.eqb].
  set (frame := r0 :: results).
  apply wp_bind. unfold wp at 1.
  destruct (extend_loop self time_lag frame [] w) as (Hst & Hrel & Hout).
  destruct (foldM _ [] frame w) as [[temp|e] w1]; simpl in Hst, Hrel, Hout |- *.
  2:{ split_and!; auto. intros Hrefs l Hl Ht. exfalso.
      destruct Hout as [[_ Hn]|(_ & x & Hx & Hnone)].
      - unfold tracked_at, tracked in Ht. rewrite Hn in Ht. by destruct (heap w !! l).
      - destruct (Hrefs x Hx). congruence. }
  destruct Hout as [_ Hext].
  assert (Hfinal : forall w2, heap_rel (kf_step (tracks w)) w1 w2 ->
            (forall x, x ∈ frame -> is_Some (heap w !! x)) ->
            forall l, l ∈ frame -> tracked_at self w l = true ->
              exists d idx d', heap w !! l = Some d /\ heap w2 !! l = Some d' /\
                 kf_step (tracks w) l (extended self time_lag idx d) d').
  { intros w2 Hrel2 _ l Hl Ht. destruct (Hext l Hl Ht) as (d & idx & Hd & Hd1).
    specialize (Hrel2 l). rewrite Hd1 in Hrel2. destruct Hrel2 as (d' & Hd' & Hk).
    eauto 10. }
  apply wp_bind, wp_get_tracks.
  destruct Hst as [Hid Hts]. rewrite Hts.
  destruct (tracks w) as [|t0 ts] eqn:Hw; [done|]. cbn [length Nat.eqb].
  rewrite <- Hw in *.
  apply wp_bind. eapply wp_mono; [apply predict_positions_spec|].
  intros [[dets trks]|e] w2 ((Hid2 & Hts2) & Hrel2 & Hlen); simpl; rewrite Hts in Hrel2.
  2:{ split_and!; [done|split; congruence| |by apply Hfinal].
      eapply heap_rel_trans; [|exact Hrel|exact Hrel2].
      intros l a b c Hab Hbc. exists b. eauto. }
  assert (Hrel12 : heap_rel (live_step self time_lag frame (tracks w)) w w2).
  { eapply heap_rel_trans; [|exact Hrel|exact Hrel2].
    intros l a b c Hab Hbc. exists b. eauto. }
  assert (Hst12 : same_state w w2) by (split; congruence).
  specialize (Hfinal w2 Hrel2).
  apply wp_bind, wp_get_tracks.
  apply wp_bind. unfold wp at 1.
  destruct (mapM_reads load (tracks w2) w2) as [Hw2 _]; [done|].
  destruct (mapM load (tracks w2) w2) as [[p1d|e] w3]; simpl in Hw2; subst w3; simpl; [|done].
  apply wp_bind. unfold wp at 1.
  destruct (mapM_reads load temp w2) as [Hw2 _]; [done|].
  destruct (mapM load temp w2) as [[p2d|e] w3]; simpl in Hw2; subst w3; simpl; [|done].
  apply wp_bind, wp_lift.
  destruct (comparing_positions self p1d p2d trks dets) as [r|e] eqn:Hcmp; [|done].
  exfalso. apply comparing_positions_ok_inv in Hcmp as (-> & _).
  specialize (Hlen dets [] eq_refl). rewrite Hts, Hw in Hlen. done.
Qed.

(** *** A frame met with no live track

    Every tracked detection of the frame is born, in order, with the
    next identities; the frame can only fail on a missing class
    table. *)

Definition first_step (self : PubTracker) (time_lag : Q) (frame ret : list loc)
    (lo hi : Z) (l : loc) (d d' : det) : Prop :=
  exists d1, ext_step self time_lag frame l d d1 /\
             birth_step self (fun _ => min_hits self) lo hi ret l d1 d'.

Lemma extended_kf_ready self time_lag idx d : kf_ready self (extended self time_lag idx d).
Proof. intros _. unfold extended. destruct (tracker self); simpl; eauto. Qed.

Lemma Forall2_eq_refl {A} (l : list A) : Forall2 eq l l.
Proof. induction l; constructor; auto. Qed.

Lemma step_first_frame self results time_lag w :
  results <> [] -> tracks w = [] ->
  wp (step_centertrack self results time_lag)
     (fun r w' =>
        match r with
        | Ok ret =>
            ret = filter (fun l => tracked_at self w l = true) results /\
            tracks w' = ret /\
            id_count w' = id_count w + Z.of_nat (length ret) /\
            heap_rel (first_step self time_lag results ret (id_count w)
                        (id_count w + Z.of_nat (length ret))) w w' /\
            forall k l d, ret !! k = Some l -> l ∉ drop (S k) ret -> heap w !! l = Some d ->
              exists idx,
                heap w' !! l =
                  Some (born self (id_count w + Z.of_nat k + 1) (min_hits self)
                          (extended self time_lag idx d))
        | Raise e =>
            same_state w w' /\
            heap_rel (ext_step self time_lag results) w w' /\
            ((e = AttributeError /\ tracking_names self = None) \/
             (e = Dangling /\ exists l, l ∈ results /\ heap w !! l = None))
        end) w.
Proof.
  intros Hres Htr. unfold step_centertrack.
  destruct results as [|r0 results]; [done|]. cbn [length Nat.eqb].
  set (frame := r0 :: results).
  apply wp_bind. unfold wp at 1.
  destruct (extend_loop self time_lag frame [] w) as (Hst & Hrel & Hout).
  destruct (foldM _ [] frame w) as [[temp|e] w1]; simpl in Hst, Hrel, Hout |- *; [|done].
  destruct Hst as [Hid Hts]. destruct Hout as [-> Hext].
  apply wp_bind, wp_get_tracks.
  rewrite Hts, Htr. cbn [length Nat.eqb].
  set (ls := filter _ frame) in *.
  assert (Hls : forall l, l ∈ ls -> l ∈ frame /\ tracked_at self w l = true).
  { intros l Hl. by apply list_elem_of_filter in Hl as [? ?]. }
  apply wp_bind. unfold wp at 1.
  destruct (birth_loop self (first_birth self) eq (fun _ => min_hits self) ls ls [] w1)
    as (Hok & Hid' & Hts' & Hrel' & Hexact).
  { intros ret a l d w0 <-. apply first_birth_eq. }
  { done. }
  { apply Forall2_eq_refl. }
  { intros l Hl. destruct (Hls l Hl) as [Hin Ht].
    destruct (Hext l Hin Ht) as (d & idx & _ & Hd).
    eexists. split; [exact Hd|]. apply extended_kf_ready. }
  destruct (foldM (first_birth self) [] ls w1) as [r w2]. simpl in *. subst r. simpl.
  apply wp_bind, wp_set_tracks, wp_ret. simpl.
  split_and!.
  - done.
  - done.
  - lia.
  - eapply heap_rel_trans; [|exact Hrel|exact Hrel'].
    intros l a b c Hab Hbc. exists b. split; [done|].
    eapply birth_step_weaken; [| |intros x Hx; exact Hx|exact Hbc]; lia.
  - intros k l d Hk Hlast Hd.
    assert (Hl : l ∈ ls) by (by eapply list_elem_of_lookup_2).
    destruct (Hls l Hl) as [Hin Ht].
    destruct (Hext l Hin Ht) as (d' & idx & Hd' & Hd1).
    assert (d' = d) as -> by congruence.
    exists idx. rewrite (Hexact k l _ Hk Hlast Hd1). do 2 f_equal. lia.
Qed.

(** *** The update stages, one iteration at a time *)

Lemma heap_rel_modify (F : loc -> det -> det -> Prop) w0 w l d d' :
  (forall l a, F l a a) -> (forall l a b c, F l a b -> F l b c -> F l a c) ->
  heap_rel F w0 w -> heap w !! l = Some d -> F l d d' ->
  forall n ts, heap_rel F w0 (mk_world n ts (<[l := d']> (heap w))).
Proof.
  intros Hrefl Htrans Hrel Hl HF n ts l0. specialize (Hrel l0). simpl.
  destruct (decide (l = l0)) as [<-|Hne].
  - rewrite lookup_insert_eq. destruct (heap w0 !! l) as [a|].
    + destruct Hrel as (b & Hb & Hab). assert (b = d) as -> by congruence. eauto.
    + congruence.
  - by rewrite lookup_insert_ne.
Qed.

Lemma heap_rel_state (F : loc -> det -> det -> Prop) w0 w n ts :
  heap_rel F w0 w -> heap_rel F w0 (mk_world n ts (heap w)).
Proof. done. Qed.

(** A fact about one dictionary that later writes do not disturb. *)
Definition holds_at (P : det -> Prop) (w : world) (l : loc) : Prop :=
  exists d, heap w !! l = Some d /\ P d.

Lemma holds_at_modify (P : det -> Prop) w t l d d' n ts :
  holds_at P w t -> heap w !! l = Some d -> (P d -> P d') ->
  holds_at P (mk_world n ts (<[l := d']> (heap w))) t.
Proof.
  intros (d0 & Hd0 & HP) Hl Hf. unfold holds_at. simpl.
  destruct (decide (l = t)) as [<-|Hne].
  - rewrite lookup_insert_eq. assert (d0 = d) as -> by congruence. eauto.
  - rewrite lookup_insert_ne by done. eauto.
Qed.

Lemma holds_at_new (P : det -> Prop) w l d' n ts :
  P d' -> holds_at P (mk_world n ts (<[l := d']> (heap w))) l.
Proof. intros HP. exists d'. simpl. by rewrite lookup_insert_eq. Qed.

(** What matching may do to a dictionary: the score and the centre
    stay, the age stays or becomes 1. *)
Definition match_rel (l : loc) (d d' : det) : Prop :=
  detection_score d' = detection_score d /\ ct d' = ct d /\
  (age d' = age d \/ age d' = Some 1).

Lemma match_rel_refl l d : match_rel l d d.
Proof. repeat split; auto. Qed.

Lemma match_rel_trans l a b c : match_rel l a b -> match_rel l b c -> match_rel l a c.
Proof.
  intros (Hs1 & Hc1 & Hab) (Hs2 & Hc2 & Hbc). split_and!; [congruence|congruence|].
  destruct Hbc as [Hbc|Hbc]; [|by right].
  rewrite Hbc. exact Hab.
Qed.

Ltac wp_exit := try done; split_and!; (done || eauto).

(** One write of a loop body.  [Hrel] relates the world at the start
    ([w0]) to the current one by [F]; a hypothesis on the tracker's
    attributes and, when there is one, a fact [holds_at P] about a
    dictionary are carried over to the world after the write. *)
Ltac wp_write w0 F Hrefl Htrans P sideF sideP newP :=
  first [apply wp_bind|idtac]; apply wp_modify;
  lazymatch goal with
  | |- match heap ?w !! ?l with _ => _ end =>
      let d := fresh "d" in
      let Hd := fresh "Hd" in
      first
        [ match goal with
          | Hk : heap w !! l = Some ?d0 |- _ => rewrite Hk; pose proof Hk as Hd
          end
        | destruct (heap w !! l) as [d|] eqn:Hd; [|by wp_exit] ];
      lazymatch type of Hd with
      | _ = Some ?d =>
      lazymatch goal with
      | |- context [mk_world ?n ?ts (<[l := ?d']> (heap w))] =>
          let Hrel' := fresh "Hrel" in
          let Hst' := fresh "Hst" in
          let Hat' := fresh "Hat" in
          let w1 := fresh "w" in
          assert (Hrel' : heap_rel F w0 (mk_world n ts (<[l := d']> (heap w))))
            by (apply (heap_rel_modify F w0 w l d d' Hrefl Htrans); [assumption|exact Hd|sideF]);
          first [ assert (Hst' : same_state w0 (mk_world n ts (<[l := d']> (heap w))))
                    by assumption
                | assert (Hst' : tracks (mk_world n ts (<[l := d']> (heap w))) = tracks w0)
                    by assumption ];
          first [ assert (Hat' : holds_at P (mk_world n ts (<[l := d']> (heap w))) l)
                    by (first [ eapply holds_at_modify; [eassumption|exact Hd|sideP]
                              | apply holds_at_new; newP ])
                | idtac ];
          set (w1 := mk_world n ts (<[l := d']> (heap w))) in *;
          clearbody w1
      end
      end
  end.

Ltac wp_read :=
  first [apply wp_bind|idtac];
  first
    [ apply wp_field;
      lazymatch goal with
      | |- match heap ?w !! ?l with _ => _ end =>
          let d := fresh "d" in
          let Hd := fresh "Hd" in
          first
            [ match goal with
              | Hk : heap w !! l = Some ?d0 |- _ => rewrite Hk
              end
            | destruct (heap w !! l) as [d|] eqn:Hd; [|by wp_exit] ];
          lazymatch goal with
          | |- match ?o with _ => _ end =>
              let Ho := fresh "Hkey" in
              first
                [ match goal with
                  | Hk : o = Some _ |- _ => rewrite Hk
                  end
                | destruct o eqn:Ho; [|by wp_exit] ]
          end
      end
    | apply wp_load;
      lazymatch goal with
      | |- match heap ?w !! ?l with _ => _ end =>
          let d := fresh "d" in
          let Hd := fresh "Hd" in
          first
            [ match goal with
              | Hk : heap w !! l = Some ?d0 |- _ => rewrite Hk
              end
            | destruct (heap w !! l) as [d|] eqn:Hd; [|by wp_exit] ]
      end
    | apply wp_list_item;
      lazymatch goal with
      | |- match ?o with _ => _ end =>
          let Ho := fresh "Hitem" in
          destruct o eqn:Ho; [|by wp_exit]
      end
    | apply wp_lift;
      lazymatch goal with
      | |- match ?r with _ => _ end =>
          let Hr := fresh "Hres" in
          destruct r eqn:Hr; [|by wp_exit]
      end
    | apply wp_get_tracks
    | apply wp_get_id_count ].

Lemma write_back_spec (F : loc -> det -> det -> Prop) (P : det -> Prop) track w0 w :
  (forall l a, F l a a) -> (forall l a b c, F l a b -> F l b c -> F l a c) ->
  (forall d v, F track d (set_translation v d) /\ F track d (set_velocity v d)) ->
  (forall d v, P d -> P (set_translation v d) /\ P (set_velocity v d)) ->
  same_state w0 w -> heap_rel F w0 w -> holds_at P w track ->
  wp (write_back track)
     (fun _ w' => same_state w0 w' /\ heap_rel F w0 w' /\ holds_at P w' track) w.
Proof.
  intros Hrefl Htrans HF HP Hst Hrel Hat. unfold write_back.
  do 4 (
    apply wp_bind, wp_field;
    destruct (heap w !! track) as [d|] eqn:Hd; [|by wp_exit];
    destruct (kf d) as [k|]; [|by wp_exit];
    apply wp_bind, wp_load; rewrite Hd;
    first [apply wp_bind|idtac]; apply wp_modify; rewrite Hd;
    match goal with
    | |- context [mk_world ?n ?ts (<[track := ?d']> (heap w))] =>
        assert (Hrel' := heap_rel_modify F w0 w track d d' Hrefl Htrans Hrel Hd
                           ltac:(apply HF) n ts);
        assert (Hat' := holds_at_modify P w track track d d' n ts Hat Hd
                           ltac:(apply HP));
        assert (Hst' : same_state w0 (mk_world n ts (<[track := d']> (heap w))))
          by exact Hst;
        generalize dependent (mk_world n ts (<[track := d']> (heap w)))
    end;
    clear dependent w; intros w Hrel Hat Hst; clear d k).
  by wp_exit.
Qed.

Lemma add_match_inv self results ret m w0 w :
  same_state w0 w -> heap_rel match_rel w0 w ->
  wp (add_match self results ret m)
     (fun r w' =>
        same_state w0 w' /\ heap_rel match_rel w0 w' /\
        forall ret', r = Ok ret' ->
          exists l, ret' = ret ++ [l] /\ l ∈ results /\
                    holds_at (fun d => age d = Some 1) w' l) w.
Proof.
  intros Hst Hrel. unfold add_match.
  pose proof match_rel_refl as Hrefl. pose proof match_rel_trans as Htrans.
  do 6 wp_read.
  wp_write w0 match_rel Hrefl Htrans (fun x : det => age x = Some 1)
    ltac:(by repeat split; auto) ltac:(done) ltac:(reflexivity).
  wp_write w0 match_rel Hrefl Htrans (fun x : det => age x = Some 1)
    ltac:(by repeat split; auto) ltac:(done) ltac:(reflexivity).
  do 4 wp_read.
  wp_write w0 match_rel Hrefl Htrans (fun x : det => age x = Some 1)
    ltac:(by repeat split; auto) ltac:(done) ltac:(reflexivity).
  assert (Hin : l ∈ results) by (by eapply list_elem_of_lookup_2).
  assert (Hend : forall w', same_state w0 w' -> heap_rel match_rel w0 w' ->
            holds_at (fun d => age d = Some 1) w' l ->
            wp (mret (ret ++ [l]))
              (fun r w' =>
                 same_state w0 w' /\ heap_rel match_rel w0 w' /\
                 forall ret', r = Ok ret' ->
                   exists l, ret' = ret ++ [l] /\ l ∈ results /\
                             holds_at (fun d => age d = Some 1) w' l) w').
  { intros w' ? ? ?. apply wp_ret. split_and!; [done|done|].
    intros ? [= <-]. eauto. }
  apply wp_bind.
  destruct (tracker self).
  - apply wp_ret. by apply Hend.
  - do 4 wp_read.
    wp_write w0 match_rel Hrefl Htrans (fun x : det => age x = Some 1)
    ltac:(by repeat split; auto) ltac:(done) ltac:(reflexivity).
    do 3 wp_read.
    apply wp_bind.
    assert (Hwb : forall w', same_state w0 w' -> heap_rel match_rel w0 w' ->
              holds_at (fun d => age d = Some 1) w' l ->
              wp (write_back l)
                (fun r w'' => match r with
                              | Ok _ => wp (mret (ret ++ [l]))
                                  (fun r w' =>
                                     same_state w0 w' /\ heap_rel match_rel w0 w' /\
                                     forall ret', r = Ok ret' ->
                                       exists l, ret' = ret ++ [l] /\ l ∈ results /\
                                         holds_at (fun d => age d = Some 1) w' l) w''
                              | Raise e =>
                                  same_state w0 w'' /\ heap_rel match_rel w0 w'' /\
                                  forall ret', Raise e = Ok ret' ->
                                    exists l, ret' = ret ++ [l] /\ l ∈ results /\
                                      holds_at (fun d => age d = Some 1) w'' l
                              end) w').
    { intros w' Hs Hr Ha. eapply wp_mono.
      - apply (write_back_spec match_rel (fun d => age d = Some 1) l w0 w');
          [done|done| | |done|done|done].
        + intros d' v. split; repeat split; auto.
        + intros d' v Hage. by split.
      - intros [[]|e] w'' (? & ? & ?); [by apply Hend|]. by split_and!. }
    destruct (use_vel self).
    + wp_write w0 match_rel Hrefl Htrans (fun x : det => age x = Some 1)
        ltac:(by repeat split; auto) ltac:(done) ltac:(reflexivity).
      by apply Hwb.
    + wp_write w0 match_rel Hrefl Htrans (fun x : det => age x = Some 1)
        ltac:(by repeat split; auto) ltac:(done) ltac:(reflexivity).
      by apply Hwb.
  - apply wp_ret. by apply Hend.
Qed.

(** What ageing an unmatched track may do: only that track's
    dictionary changes, and its age stays or becomes at most
    [max_age]. *)
Definition stale_rel (self : PubTracker) (track : option loc) (l : loc) (d d' : det) : Prop :=
  (track <> Some l -> d' = d) /\
  (age d' = age d \/ exists a, age d' = Some a /\ a <= max_age self).

Lemma stale_rel_refl self track l d : stale_rel self track l d d.
Proof. split; auto. Qed.

Lemma stale_rel_trans self track l a b c :
  stale_rel self track l a b -> stale_rel self track l b c -> stale_rel self track l a c.
Proof.
  intros [Hf1 Ha1] [Hf2 Ha2]. split.
  - intros Hne. rewrite (Hf2 Hne). auto.
  - destruct Ha2 as [Ha2|Ha2]; [|by right]. by rewrite Ha2.
Qed.

Definition young (self : PubTracker) (d : det) : Prop :=
  exists a, age d = Some a /\ a <= max_age self.

Lemma add_stale_inv self ret i w0 w :
  same_state w0 w -> heap_rel (stale_rel self (tracks w0 !! i)) w0 w ->
  wp (add_stale self ret i)
     (fun r w' =>
        same_state w0 w' /\ heap_rel (stale_rel self (tracks w0 !! i)) w0 w' /\
        forall ret', r = Ok ret' ->
          ret' = ret \/
          exists l, ret' = ret ++ [l] /\ tracks w0 !! i = Some l /\
                    holds_at (young self) w' l) w.
Proof.
  intros Hst Hrel. unfold add_stale.
  pose proof (stale_rel_refl self (tracks w0 !! i)) as Hrefl.
  pose proof (stale_rel_trans self (tracks w0 !! i)) as Htrans.
  do 2 wp_read.
  assert (Htrack : tracks w0 !! i = Some l) by (destruct Hst as [_ <-]; done).
  rewrite Htrack in *.
  assert (Hside : forall d d', (age d' = age d \/ exists a, age d' = Some a /\ a <= max_age self) ->
            stale_rel self (Some l) l d d').
  { intros d d' Hage. split; [done|exact Hage]. }
  apply wp_bind.
  assert (Hrest : forall w1, same_state w0 w1 -> heap_rel (stale_rel self (Some l)) w0 w1 ->
    wp (field l age ≫= fun a => load l ≫= fun d =>
          if (a <? max_age self) && Qgtb (detection_score d) (del_th self)
          then
            field l age ≫= fun a => modify l (set_age (a + 1)) ≫= fun _ =>
            load l ≫= fun d =>
            (if Qgtb (detection_score d) (s_th self)
             then field l active ≫= fun a => modify l (set_active (a + 1))
             else modify l (set_active 0)) ≫= fun _ =>
            field l ct ≫= fun c => load l ≫= fun d =>
            match tracking d, kf d with
            | Some t, _ =>
                modify l (set_ct (plus2 c (scale t (-1)%Q))) ≫= fun _ =>
                field l ct ≫= fun c => load l ≫= fun d =>
                modify l (set_translation (set_first2 (translation d) c))
            | None, Some _ => write_back l
            | None, None => mret tt
            end ≫= fun _ => mret (ret ++ [l])
          else mret ret)
      (fun r w' =>
        same_state w0 w' /\ heap_rel (stale_rel self (Some l)) w0 w' /\
        forall ret', r = Ok ret' ->
          ret' = ret \/
          exists l0, ret' = ret ++ [l0] /\ Some l = Some l0 /\
                     holds_at (young self) w' l0) w1).
  { clear dependent w. intros w Hst Hrel.
    do 2 wp_read.
    lazymatch goal with
    | |- wp (if ?b then _ else _) _ _ => destruct b eqn:Hguard
    end.
    2:{ apply wp_ret. split_and!; [done|done|]. intros ? [= <-]. by left. }
    apply andb_prop in Hguard as [Hlt _]. apply Z.ltb_lt in Hlt.
    wp_read.
    wp_write w0 (stale_rel self (Some l)) Hrefl Htrans (young self)
      ltac:(apply Hside; right; eexists; split; [reflexivity|lia])
      ltac:(done)
      ltac:(eexists; split; [reflexivity|lia]).
    wp_read.
    assert (Hend : forall w', same_state w0 w' -> heap_rel (stale_rel self (Some l)) w0 w' ->
              holds_at (young self) w' l ->
              wp (mret (ret ++ [l]))
                (fun r w' =>
                   same_state w0 w' /\ heap_rel (stale_rel self (Some l)) w0 w' /\
                   forall ret', r = Ok ret' ->
                     ret' = ret \/
                     exists l0, ret' = ret ++ [l0] /\ Some l = Some l0 /\
                                holds_at (young self) w' l0) w').
    { intros w' ? ? ?. apply wp_ret. split_and!; [done|done|].
      intros ? [= <-]. right. eauto. }
    apply wp_bind.
    assert (Hafter : forall w', same_state w0 w' -> heap_rel (stale_rel self (Some l)) w0 w' ->
              holds_at (young self) w' l ->
              wp (field l ct ≫= fun c => load l ≫= fun d =>
                  match tracking d, kf d with
                  | Some t, _ =>
                      modify l (set_ct (plus2 c (scale t (-1)%Q))) ≫= fun _ =>
                      field l ct ≫= fun c => load l ≫= fun d =>
                      modify l (set_translation (set_first2 (translation d) c))
                  | None, Some _ => write_back l
                  | None, None => mret tt
                  end ≫= fun _ => mret (ret ++ [l]))
                (fun r w' =>
                   same_state w0 w' /\ heap_rel (stale_rel self (Some l)) w0 w' /\
                   forall ret', r = Ok ret' ->
                     ret' = ret \/
                     exists l0, ret' = ret ++ [l0] /\ Some l = Some l0 /\
                                holds_at (young self) w' l0) w').
    { clear dependent w. clear dependent w1. intros w Hst Hrel Hat.
      do 2 wp_read. apply wp_bind.
      lazymatch goal with
      | |- wp (match tracking ?x with _ => _ end) _ _ => destruct (tracking x) as [t|]
      end.
      - wp_write w0 (stale_rel self (Some l)) Hrefl Htrans (young self)
          ltac:(apply Hside; by left) ltac:(done) ltac:(fail).
        do 2 wp_read.
        wp_write w0 (stale_rel self (Some l)) Hrefl Htrans (young self)
          ltac:(apply Hside; by left) ltac:(done) ltac:(fail).
        by apply Hend.
      - lazymatch goal with
        | |- wp (match kf ?x with _ => _ end) _ _ => destruct (kf x)
        end.
        + eapply wp_mono.
          * apply (write_back_spec (stale_rel self (Some l)) (young self) l w0 w);
              [done|done| | |done|done|done].
            -- intros d' v. split; apply Hside; by left.
            -- intros d' v Hy. by split.
          * intros [[]|e] w'' (? & ? & ?); [by apply Hend|]. by split_and!.
        + apply wp_ret. by apply Hend. }
    lazymatch goal with
    | |- wp (if ?b then _ else _) _ _ => destruct b
    end.
    - wp_read.
      wp_write w0 (stale_rel self (Some l)) Hrefl Htrans (young self)
        ltac:(apply Hside; by left) ltac:(done) ltac:(fail).
      by apply Hafter.
    - wp_write w0 (stale_rel self (Some l)) Hrefl Htrans (young self)
        ltac:(apply Hside; by left) ltac:(done) ltac:(fail).
      by apply Hafter. }
  destruct (score_update self).
  - wp_read.
    wp_write w0 (stale_rel self (Some l)) Hrefl Htrans (young self)
      ltac:(apply Hside; by left) ltac:(done) ltac:(fail).
    by apply Hrest.
  - apply wp_ret. by apply Hrest.
Qed.

Lemma add_birth_inv self results ret i w0 w :
  tracks w = tracks w0 -> heap_rel match_rel w0 w ->
  wp (add_birth self results ret i)
     (fun r w' =>
        tracks w' = tracks w0 /\ heap_rel match_rel w0 w' /\
        forall ret', r = Ok ret' ->
          exists l, ret' = ret ++ [l] /\ l ∈ results /\
                    holds_at (fun d => age d = Some 1) w' l) w.
Proof.
  intros Hst Hrel. unfold add_birth.
  pose proof match_rel_refl as Hrefl. pose proof match_rel_trans as Htrans.
  do 2 wp_read.
  apply wp_bind, wp_set_id_count.
  assert (Hrel1 := heap_rel_state match_rel w0 w (id_count w + 1) (tracks w) Hrel).
  assert (Hst1 : tracks (mk_world (id_count w + 1) (tracks w) (heap w)) = tracks w0) by done.
  set (w1 := mk_world _ _ (heap w)) in *. clearbody w1.
  wp_read.
  do 3 (wp_write w0 match_rel Hrefl Htrans (fun x : det => age x = Some 1)
          ltac:(by repeat split; auto) ltac:(done) ltac:(reflexivity)).
  assert (Hin : l ∈ results) by (by eapply list_elem_of_lookup_2).
  assert (Hend : forall w', tracks w' = tracks w0 -> heap_rel match_rel w0 w' ->
            holds_at (fun d => age d = Some 1) w' l ->
            wp (load l ≫= fun d =>
                (if Qgtb (detection_score d) (det_th self)
                 then modify l (set_active 1) else modify l (set_active 0)) ≫= fun _ =>
                mret (ret ++ [l]))
              (fun r w' =>
                 tracks w' = tracks w0 /\ heap_rel match_rel w0 w' /\
                 forall ret', r = Ok ret' ->
                   exists l, ret' = ret ++ [l] /\ l ∈ results /\
                             holds_at (fun d => age d = Some 1) w' l) w').
  { clear dependent w. clear dependent w1. clear dependent w2. clear dependent w3.
    intros w Hst Hrel Hat. wp_read. apply wp_bind.
    lazymatch goal with
    | |- wp (if ?b then _ else _) _ _ => destruct b
    end;
      wp_write w0 match_rel Hrefl Htrans (fun x : det => age x = Some 1)
        ltac:(by repeat split; auto) ltac:(done) ltac:(reflexivity);
      apply wp_ret; (split_and!; [done|done|]); intros ? [= <-]; eauto. }
  apply wp_bind. unfold birth_filter.
  destruct (tracker self).
  - apply wp_ret. by apply Hend.
  - do 2 wp_read.
    wp_write w0 match_rel Hrefl Htrans (fun x : det => age x = Some 1)
      ltac:(by repeat split; auto) ltac:(done) ltac:(reflexivity).
    by apply Hend.
  - apply wp_ret. by apply Hend.
Qed.

(** An unmatched track that is too old, or whose score (after the
    decay, when there is one) is not above the deletion threshold, is
    not kept. *)
Definition decayed_score (self : PubTracker) (d : det) : Q :=
  if score_update self then (detection_score d - noise self)%Q else detection_score d.

Lemma add_stale_drops self ret i l d a w :
  tracks w !! i = Some l -> heap w !! l = Some d -> age d = Some a ->
  max_age self <= a \/ (decayed_score self d <= del_th self)%Q ->
  (add_stale self ret i w).1 = Ok ret.
Proof.
  intros Hi Hl Ha Hdrop.
  assert (Hguard : ((a <? max_age self) && Qgtb (decayed_score self d) (del_th self)) = false).
  { apply andb_false_iff. destruct Hdrop as [Hold|Hlow].
    - left. by apply Z.ltb_ge.
    - right. by apply Qgtb_le. }
  unfold add_stale, decayed_score, list_item, field, mbind, M_bind, get_tracks,
    modify, load, lift in *. simpl.
  rewrite Hi. simpl.
  destruct (score_update self);
    repeat progress (simpl; rewrite ?Hl, ?Ha, ?Hguard, ?lookup_insert_eq); done.
Qed.

(** *** Ages after an update

    Whatever the assignment stage hands over, a dictionary that the
    update stage returns has an age, and that age is at most
    [max_age], or 1 if [max_age] is smaller. *)

Definition bounded (B : Z) (d : det) : Prop :=
  exists a, age d = Some a /\ a <= B.

Definition age_rel (B : Z) (l : loc) (d d' : det) : Prop :=
  age d' = age d \/ bounded B d'.

Lemma age_rel_refl B l d : age_rel B l d d.
Proof. by left. Qed.

Lemma age_rel_trans B l a b c : age_rel B l a b -> age_rel B l b c -> age_rel B l a c.
Proof.
  intros Hab [Hbc|Hbc]; [|by right].
  destruct Hab as [Hab|(x & Hx & Hle)]; [left; congruence|].
  right. exists x. split; [congruence|done].
Qed.

Lemma bounded_age_rel B w w' l :
  heap_rel (age_rel B) w w' -> holds_at (bounded B) w l -> holds_at (bounded B) w' l.
Proof.
  intros Hrel (d & Hd & a & Ha & Hle). specialize (Hrel l). rewrite Hd in Hrel.
  destruct Hrel as (d' & Hd' & [Hsame|Hb]); exists d'; (split; [done|]); [|done].
  exists a. split; [congruence|done].
Qed.

Lemma ages_loop {A} B (body : list loc -> A -> M (list loc)) items ret w :
  (forall ret a w,
     wp (body ret a)
        (fun r w' =>
           heap_rel (age_rel B) w w' /\
           forall ret', r = Ok ret' ->
             ret' = ret \/ exists l, ret' = ret ++ [l] /\ holds_at (bounded B) w' l) w) ->
  (forall l, l ∈ ret -> holds_at (bounded B) w l) ->
  wp (foldM body ret items)
     (fun r w' =>
        forall ret', r = Ok ret' -> forall l, l ∈ ret' -> holds_at (bounded B) w' l) w.
Proof.
  intros Hbody Hret.
  eapply wp_mono.
  - apply (wp_foldM body
             (fun acc _ w' => forall l, l ∈ acc -> holds_at (bounded B) w' l)
             (fun _ _ => True)); [exact Hret|].
    intros acc a rest w1 Hacc.
    eapply wp_mono; [apply Hbody|].
    intros [acc'|e] w2 [Hrel Hok]; [|done].
    intros l Hl. destruct (Hok acc' eq_refl) as [->|(l' & -> & Hl')].
    + eapply bounded_age_rel; [exact Hrel|by apply Hacc].
    + apply elem_of_app in Hl as [Hl|Hl].
      * eapply bounded_age_rel; [exact Hrel|by apply Hacc].
      * apply list_elem_of_singleton in Hl as ->. exact Hl'.
  - intros [acc|e] w'; [|done]. intros Hacc ? [= <-]. exact Hacc.
Qed.

Lemma update_tracks_ages self results matching w :
  wp (update_tracks self results matching)
     (fun r w' =>
        forall ret, r = Ok ret ->
        forall l, l ∈ ret -> holds_at (bounded (Z.max 1 (max_age self))) w' l) w.
Proof.
  set (B := Z.max 1 (max_age self)).
  destruct matching as [[matched unmatched_trk] unmatched_det].
  unfold update_tracks.
  assert (Hm : forall l d d', match_rel l d d' -> age_rel B l d d').
  { intros l d d' (_ & _ & [Ha|Ha]); [by left|right]. exists 1. split; [done|]. unfold B. lia. }
  assert (Hone : forall w' l, holds_at (fun d => age d = Some 1) w' l ->
                              holds_at (bounded B) w' l).
  { intros w' l (d & Hd & Ha). exists d. split; [done|]. exists 1. split; [done|].
    unfold B. lia. }
  apply wp_bind. eapply wp_mono.
  { apply (ages_loop B (add_match self results)).
    - intros ret a w1. eapply wp_mono.
      + apply (add_match_inv self results ret a w1 w1); [done|].
        apply heap_rel_refl, match_rel_refl.
      + intros r w2 (_ & Hrel & Hok). split.
        * eapply heap_rel_mono; [apply Hm|exact Hrel].
        * intros ret' Hr. right. destruct (Hok ret' Hr) as (l & -> & _ & Hl). eauto.
    - intros l Hl. by apply elem_of_nil in Hl. }
  intros [ret1|e] w1 Hret1; [|done]. specialize (Hret1 ret1 eq_refl).
  apply wp_bind. eapply wp_mono.
  { apply (ages_loop B (add_birth self results)); [|exact Hret1].
    intros ret a w2. eapply wp_mono.
    + apply (add_birth_inv self results ret a w2 w2); [done|].
      apply heap_rel_refl, match_rel_refl.
    + intros r w3 (_ & Hrel & Hok). split.
      * eapply heap_rel_mono; [apply Hm|exact Hrel].
      * intros ret' Hr. right. destruct (Hok ret' Hr) as (l & -> & _ & Hl). eauto. }
  intros [ret2|e] w2 Hret2; [|done]. specialize (Hret2 ret2 eq_refl).
  apply wp_bind. eapply wp_mono.
  { apply (ages_loop B (add_stale self)); [|exact Hret2].
    intros ret a w3. eapply wp_mono.
    + apply (add_stale_inv self ret a w3 w3); [done|].
      apply heap_rel_refl, stale_rel_refl.
    + intros r w4 (_ & Hrel & Hok). split.
      * eapply heap_rel_mono; [|exact Hrel].
        intros l d d' [_ [Ha|(x & Hx & Hle)]]; [by left|right].
        exists x. split; [done|]. unfold B. lia.
      * intros ret' Hr. destruct (Hok ret' Hr) as [->|(l & -> & _ & d & Hd & x & Hx & Hle)];
          [by left|right].
        exists l. split; [done|]. exists d. split; [done|].
        exists x. split; [done|]. unfold B. lia. }
  intros [ret3|e] w3 Hret3; [|done]. specialize (Hret3 ret3 eq_refl).
  apply wp_bind, wp_set_tracks, wp_ret.
  intros ? [= <-]. exact Hret3.
Qed.

Lemma first_birth_inv self ret l w0 w :
  tracks w = tracks w0 -> heap_rel match_rel w0 w ->
  wp (first_birth self ret l)
     (fun r w' =>
        tracks w' = tracks w0 /\ heap_rel match_rel w0 w' /\
        forall ret', r = Ok ret' ->
          ret' = ret ++ [l] /\ holds_at (fun d => age d = Some 1) w' l) w.
Proof.
  intros Hst Hrel. unfold first_birth.
  pose proof match_rel_refl as Hrefl. pose proof match_rel_trans as Htrans.
  wp_read.
  apply wp_bind, wp_set_id_count.
  assert (Hrel1 := heap_rel_state match_rel w0 w (id_count w + 1) (tracks w) Hrel).
  assert (Hst1 : tracks (mk_world (id_count w + 1) (tracks w) (heap w)) = tracks w0) by done.
  set (w1 := mk_world _ _ (heap w)) in *. clearbody w1.
  wp_read.
  do 3 (wp_write w0 match_rel Hrefl Htrans (fun x : det => age x = Some 1)
          ltac:(by repeat split; auto) ltac:(done) ltac:(reflexivity)).
  apply wp_bind. unfold birth_filter.
  destruct (tracker self).
  - do 2 apply wp_ret. split_and!; [done|done|]. by intros ? [= <-].
  - do 2 wp_read.
    wp_write w0 match_rel Hrefl Htrans (fun x : det => age x = Some 1)
      ltac:(by repeat split; auto) ltac:(done) ltac:(reflexivity).
    apply wp_ret. split_and!; [done|done|]. by intros ? [= <-].
  - do 2 apply wp_ret. split_and!; [done|done|]. by intros ? [= <-].
Qed.

Lemma wp_bind_any {A B} (m : M A) (k : A -> M B) (Q : result B -> world -> Prop) w :
  (forall a w', wp (k a) Q w') -> (forall e w', Q (Raise e) w') ->
  wp (m ≫= k) Q w.
Proof.
  intros Hk He. apply wp_bind. unfold wp at 1.
  destruct (m w) as [[a|e] w']; simpl; auto.
Qed.

(** The same bound for a whole frame. *)
Lemma step_centertrack_ages self results time_lag w :
  wp (step_centertrack self results time_lag)
     (fun r w' =>
        forall ret, r = Ok ret ->
        forall l, l ∈ ret -> holds_at (bounded (Z.max 1 (max_age self))) w' l) w.
Proof.
  set (B := Z.max 1 (max_age self)).
  unfold step_centertrack.
  destruct (length results =? 0)%nat.
  { apply wp_bind, wp_set_tracks, wp_ret. intros ? [= <-] l Hl. by apply elem_of_nil in Hl. }
  apply wp_bind_any; [|done]. intros temp w1.
  apply wp_bind, wp_get_tracks.
  destruct (length (tracks w1) =? 0)%nat.
  - apply wp_bind. eapply wp_mono.
    { apply (ages_loop B (first_birth self)).
      - intros ret a w2. eapply wp_mono.
        + apply (first_birth_inv self ret a w2 w2); [done|].
          apply heap_rel_refl, match_rel_refl.
        + intros r w3 (_ & Hrel & Hok). split.
          * eapply heap_rel_mono; [|exact Hrel].
            intros l d d' (_ & _ & [Ha|Ha]); [by left|right].
            exists 1. split; [done|]. unfold B. lia.
          * intros ret' Hr. right. destruct (Hok ret' Hr) as (-> & d & Hd & Ha).
            exists a. split; [done|]. exists d. split; [done|].
            exists 1. split; [done|]. unfold B. lia.
      - intros l Hl. by apply elem_of_nil in Hl. }
    intros [ret|e] w2 Hret; [|done]. specialize (Hret ret eq_refl).
    apply wp_bind, wp_set_tracks, wp_ret. intros ? [= <-]. exact Hret.
  - apply wp_bind_any; [|done]. intros [dets trks] w2.
    apply wp_bind, wp_get_tracks.
    apply wp_bind_any; [|done]. intros p1d w3.
    apply wp_bind_any; [|done]. intros p2d w4.
    apply wp_bind_any; [|done]. intros matching w5.
    apply update_tracks_ages.
Qed.

(** *** Births after an update *)

Lemma wp_foldM_rel {A} (R : world -> world -> Prop)
    (body : list loc -> A -> M (list loc)) items ret w :
  (forall w, R w w) -> (forall a b c, R a b -> R b c -> R a c) ->
  (forall ret a w,
     wp (body ret a)
        (fun r w' => R w w' /\ forall ret', r = Ok ret' -> exists extra, ret' = ret ++ extra) w) ->
  wp (foldM body ret items)
     (fun r w' => R w w' /\ forall ret', r = Ok ret' -> exists extra, ret' = ret ++ extra) w.
Proof.
  intros Hrefl Htrans Hbody.
  eapply wp_mono.
  - apply (wp_foldM body
             (fun acc _ w' => R w w' /\ exists extra, acc = ret ++ extra)
             (fun _ w' => R w w')).
    + split; [done|]. exists []. by rewrite app_nil_r.
    + intros acc a rest w1 [HR (extra & ->)].
      eapply wp_mono; [apply Hbody|].
      intros [acc'|e] w2 [HR' Hok]; [|by eapply Htrans].
      split; [by eapply Htrans|].
      destruct (Hok acc' eq_refl) as (extra' & ->).
      exists (extra ++ extra'). by rewrite app_assoc.
  - intros [acc|e] w'; [|by intros ?; split].
    intros [HR (extra & ->)]. split; [done|]. intros ? [= <-]. eauto.
Qed.

(** What the loop over unmatched tracks may do: it touches live
    tracks only. *)
Definition frame_rel (ts : list loc) (l : loc) (d d' : det) : Prop :=
  l ∉ ts -> d' = d.

Lemma match_loop self results ret items w :
  wp (foldM (add_match self results) ret items)
     (fun r w' => (same_state w w' /\ heap_rel match_rel w w') /\
                  forall ret', r = Ok ret' -> exists extra, ret' = ret ++ extra) w.
Proof.
  apply (wp_foldM_rel (fun w w' => same_state w w' /\ heap_rel match_rel w w')).
  - intros w1. split; [done|]. apply heap_rel_refl, match_rel_refl.
  - intros a b c [Hs1 Hr1] [Hs2 Hr2]. split; [by eapply same_state_trans|].
    eapply heap_rel_trans; [apply match_rel_trans|exact Hr1|exact Hr2].
  - intros ret1 a w1. eapply wp_mono.
    + apply (add_match_inv self results ret1 a w1 w1); [done|].
      apply heap_rel_refl, match_rel_refl.
    + intros r w2 (Hs & Hr & Hok). split; [done|].
      intros ret' Hret. destruct (Hok ret' Hret) as (l & -> & _). eauto.
Qed.

Lemma stale_loop self ret items w :
  wp (foldM (add_stale self) ret items)
     (fun r w' => (same_state w w' /\ heap_rel (frame_rel (tracks w)) w w') /\
                  forall ret', r = Ok ret' -> exists extra, ret' = ret ++ extra) w.
Proof.
  apply (wp_foldM_rel (fun w w' => same_state w w' /\ heap_rel (frame_rel (tracks w)) w w')).
  - intros w1. split; [done|]. apply heap_rel_refl. by intros l d _.
  - intros a b c [Hs1 Hr1] [Hs2 Hr2]. split; [by eapply same_state_trans|].
    eapply heap_rel_trans; [|exact Hr1|exact Hr2].
    intros l x y z Hxy Hyz Hl. destruct Hs1 as [_ Hts]. rewrite Hts in Hyz.
    rewrite (Hyz Hl). by apply Hxy.
  - intros ret1 a w1. eapply wp_mono.
    + apply (add_stale_inv self ret1 a w1 w1); [done|].
      apply heap_rel_refl, stale_rel_refl.
    + intros r w2 (Hs & Hr & Hok). split.
      * split; [done|]. eapply heap_rel_mono; [|exact Hr].
        intros l d d' [Hframe _] Hl. apply Hframe. intros Hi. apply Hl.
        by eapply list_elem_of_lookup_2.
      * intros ret' Hret. destruct (Hok ret' Hret) as [->|(l & -> & _)]; [|eauto].
        exists []. by rewrite app_nil_r.
Qed.

Lemma born_fields self n a d :
  tracking_id (born self n a d) = Some n /\
  age (born self n a d) = Some 1 /\
  active (born self n a d) = Some a.
Proof. unfold born. by destruct (tracker self), (ct d). Qed.

(** Every unmatched detection whose dictionary is not a live track and
    is not listed again later comes out as the next track in line. *)
Lemma update_tracks_births self results matched unmatched_trk unmatched_det ls w :
  Forall2 (fun i l => results !! i = Some l) unmatched_det ls ->
  (forall l, l ∈ ls -> exists d, heap w !! l = Some d /\ kf_ready self d) ->
  wp (update_tracks self results (matched, unmatched_trk, unmatched_det))
     (fun r w' =>
        forall ret, r = Ok ret ->
        forall k l d, ls !! k = Some l -> l ∉ drop (S k) ls -> l ∉ tracks w ->
          heap w !! l = Some d ->
          l ∈ ret /\
          exists d', heap w' !! l = Some d' /\
            tracking_id d' = Some (id_count w + Z.of_nat k + 1) /\
            age d' = Some 1 /\
            active d' = Some (birth_activity self d)) w.
Proof.
  intros Hls Hready. unfold update_tracks.
  apply wp_bind. eapply wp_mono; [apply match_loop|].
  intros [ret1|e] w1 [[[Hid1 Hts1] Hrel1] _]; [|done].
  apply wp_bind. unfold wp at 1.
  destruct (birth_loop self (add_birth self results) (fun i l => results !! i = Some l)
              (birth_activity self) unmatched_det ls ret1 w1)
    as (Hok & Hid2 & Hts2 & _ & Hexact).
  { intros ret a l d w0 Hal. by apply add_birth_eq. }
  { intros n x d. unfold birth_activity, born. by destruct (tracker self), (ct d). }
  { exact Hls. }
  { intros l Hl. destruct (Hready l Hl) as (d & Hd & Hk).
    specialize (Hrel1 l). rewrite Hd in Hrel1.
    destruct Hrel1 as (d1 & Hd1 & _ & Hct & _).
    exists d1. split; [done|]. intros Htr. rewrite Hct. by apply Hk. }
  destruct (foldM (add_birth self results) ret1 unmatched_det w1) as [r2 w2].
  simpl in Hok, Hid2, Hts2, Hexact |- *. subst r2.
  apply wp_bind. eapply wp_mono; [apply stale_loop|].
  intros [ret3|e] w3 [[[Hid3 Hts3] Hrel3] Hext]; [|done].
  destruct (Hext ret3 eq_refl) as (extra & ->).
  apply wp_bind, wp_set_tracks, wp_ret.
  intros ? [= <-] k l d Hk Hlast Hlive Hd. simpl.
  split.
  { apply elem_of_app. left. apply elem_of_app. right. by eapply list_elem_of_lookup_2. }
  pose proof (Hrel1 l) as Hl1. rewrite Hd in Hl1.
  destruct Hl1 as (d1 & Hd1 & Hscore & _).
  pose proof (Hexact k l d1 Hk Hlast Hd1) as Hd2.
  pose proof (Hrel3 l) as Hl3. rewrite Hd2 in Hl3.
  destruct Hl3 as (d3 & Hd3 & Hframe).
  rewrite Hframe in Hd3 by (rewrite Hts2, Hts1; exact Hlive).
  eexists. split; [exact Hd3|].
  destruct (born_fields self (id_count w1 + Z.of_nat k + 1) (birth_activity self d1) d1)
    as (-> & -> & ->).
  rewrite Hid1. split_and!; [done|done|].
  unfold birth_activity. by rewrite Hscore.
Qed.

(** *** The update stage completes on a well-formed outcome

    Before the update every live track carries the keys the tracker
    gave it, and in filter mode every detection of the frame has its
    centre.  No write removes a key, so this stays true throughout. *)

(** No key is lost and the class name stays. *)
Definition keeps_keys (d d' : det) : Prop :=
  detection_name d' = detection_name d /\
  (is_Some (ct d) -> is_Some (ct d')) /\
  (is_Some (tracking d) -> is_Some (tracking d')) /\
  (is_Some (label_preds d) -> is_Some (label_preds d')) /\
  (is_Some (tracking_id d) -> is_Some (tracking_id d')) /\
  (is_Some (age d) -> is_Some (age d')) /\
  (is_Some (active d) -> is_Some (active d')) /\
  (is_Some (kf d) -> is_Some (kf d')).

Lemma keeps_keys_refl d : keeps_keys d d.
Proof. by repeat split. Qed.

Lemma keeps_keys_trans a b c : keeps_keys a b -> keeps_keys b c -> keeps_keys a c.
Proof.
  unfold keeps_keys. intros (-> & ? & ? & ? & ? & ? & ? & ?) (-> & ? & ? & ? & ? & ? & ? & ?).
  split_and!; auto.
Qed.

Lemma keeps_keys_extended self time_lag idx d :
  keeps_keys d (extended self time_lag idx d).
Proof. unfold extended. destruct (tracker self); repeat split; simpl; eauto. Qed.

Lemma keeps_keys_born self n a d : keeps_keys d (born self n a d).
Proof. unfold born. destruct (tracker self), (ct d); repeat split; simpl; eauto. Qed.

Lemma keeps_keys_set_kf k d : keeps_keys d (set_kf k d).
Proof. repeat split; simpl; eauto. Qed.


Definition track_ready (self : PubTracker) (d : det) : Prop :=
  is_Some (tracking_id d) /\ is_Some (age d) /\ is_Some (active d) /\
  is_Some (ct d) /\ (tracker self = KF -> is_Some (kf d)).

Lemma track_ready_keeps self d d' :
  keeps_keys d d' -> track_ready self d -> track_ready self d'.
Proof.
  intros (_ & Hct & _ & _ & Hid & Hage & Hact & Hkf) (? & ? & ? & ? & ?).
  split_and!; auto.
Qed.

Lemma kf_ready_keeps self d d' :
  keeps_keys d d' -> kf_ready self d -> kf_ready self d'.
Proof. intros (_ & Hct & _) Hk Htr. auto. Qed.

Definition ready_world (self : PubTracker) (ts results : list loc) (w : world) : Prop :=
  tracks w = ts /\
  (forall l, l ∈ ts -> holds_at (track_ready self) w l) /\
  (forall l, l ∈ results -> holds_at (kf_ready self) w l).

Lemma ready_world_modify self ts results w l d d' n :
  ready_world self ts results w -> heap w !! l = Some d -> keeps_keys d d' ->
  ready_world self ts results (mk_world n (tracks w) (<[l := d']> (heap w))).
Proof.
  intros (Hts & Htr & Hdet) Hl Hk. split_and!; [done| |].
  - intros x Hx. eapply holds_at_modify; [by apply Htr|exact Hl|].
    by apply track_ready_keeps.
  - intros x Hx. eapply holds_at_modify; [by apply Hdet|exact Hl|].
    by apply kf_ready_keeps.
Qed.

Ltac keys := repeat split; simpl; eauto.

(** A write to a dictionary known to be there, in a ready world. *)
Ltac tot_write self ts results :=
  first [apply wp_bind|idtac]; apply wp_modify;
  lazymatch goal with
  | |- match heap ?w !! ?l with _ => _ end =>
      lazymatch goal with
      | Hd : heap w !! l = Some ?d |- _ =>
          rewrite Hd;
          lazymatch goal with
          | |- context [mk_world ?n (tracks w) (<[l := ?d']> (heap w))] =>
              let Hrw := fresh "Hrw" in
              let w1 := fresh "w" in
              let Hnew := fresh "Hnew" in
              assert (Hrw : ready_world self ts results
                              (mk_world n (tracks w) (<[l := d']> (heap w))))
                by (apply (ready_world_modify self ts results w l d d' n);
                    [assumption|exact Hd|keys]);
              assert (Hnew : heap (mk_world n (tracks w) (<[l := d']> (heap w))) !! l
                             = Some d')
                by (simpl; apply lookup_insert_eq);
              set (w1 := mk_world n (tracks w) (<[l := d']> (heap w))) in *;
              clearbody w1
          end
      end
  end.

Ltac tot_field :=
  first [apply wp_bind|idtac]; apply wp_field;
  lazymatch goal with
  | |- match heap ?w !! ?l with _ => _ end =>
      lazymatch goal with
      | Hd : heap w !! l = Some ?d |- _ =>
          rewrite Hd;
          first
            [ lazymatch goal with
              | |- match ?key d with _ => _ end =>
                  lazymatch goal with
                  | Hk : key d = Some _ |- _ => rewrite Hk
                  end
              end
            | progress simpl;
              try lazymatch goal with
              | |- match ?o with _ => _ end =>
                  lazymatch goal with
                  | Hk : o = Some _ |- _ => rewrite Hk
                  end
              end ]
      end
  end.

Ltac tot_load :=
  first [apply wp_bind|idtac]; apply wp_load;
  lazymatch goal with
  | |- match heap ?w !! ?l with _ => _ end =>
      lazymatch goal with
      | Hd : heap w !! l = Some ?d |- _ => rewrite Hd
      end
  end.

Lemma write_back_total self ts results track w :
  ready_world self ts results w ->
  holds_at (fun d => is_Some (kf d)) w track ->
  wp (write_back track)
     (fun r w' => ready_world self ts results w' /\ is_ok r = true) w.
Proof.
  intros Hrw Hhas. unfold write_back.
  do 4 (
    let d := fresh "d" in
    let Hd := fresh "Hd" in
    let k := fresh "k" in
    let Hk := fresh "Hk" in
    lazymatch goal with
    | Hat : holds_at _ ?w0 track |- wp _ _ ?w0 =>
        destruct Hat as (d & Hd & [k Hk]);
        tot_field; tot_load;
        first [apply wp_bind|idtac]; apply wp_modify; rewrite Hd;
        lazymatch goal with
        | |- context [mk_world ?n (tracks w0) (<[track := ?d']> (heap w0))] =>
            let Hrw' := fresh "Hrw" in
            let Hat' := fresh "Hat" in
            let w1 := fresh "w" in
            assert (Hrw' : ready_world self ts results
                             (mk_world n (tracks w0) (<[track := d']> (heap w0))))
              by (apply (ready_world_modify self ts results w0 track d d' n);
                  [assumption|exact Hd|keys]);
            assert (Hat' : holds_at (fun x => is_Some (kf x))
                             (mk_world n (tracks w0) (<[track := d']> (heap w0))) track)
              by (apply holds_at_new; simpl; eauto);
            set (w1 := mk_world n (tracks w0) (<[track := d']> (heap w0))) in *;
            clearbody w1
        end
    end).
  done.
Qed.

(** The dictionary of a live track, with its keys. *)
Ltac the_track l :=
  lazymatch goal with
  | Hrw : ready_world _ _ _ ?w |- wp _ _ ?w =>
      let d := fresh "d" in
      let Hd := fresh "Hd" in
      let Hid := fresh "Hid" in
      let Hage := fresh "Hage" in
      let Hact := fresh "Hact" in
      let Hct := fresh "Hct" in
      let Hkf := fresh "Hkf" in
      destruct (proj1 (proj2 Hrw) l ltac:(assumption))
        as (d & Hd & ([? Hid] & [? Hage] & [? Hact] & [? Hct] & Hkf))
  end.

(** The dictionary of a detection of the frame. *)
Ltac the_det l :=
  lazymatch goal with
  | Hrw : ready_world _ _ _ ?w |- wp _ _ ?w =>
      let d := fresh "d" in
      let Hd := fresh "Hd" in
      let Hk := fresh "Hk" in
      destruct (proj2 (proj2 Hrw) l ltac:(assumption)) as (d & Hd & Hk)
  end.

Lemma add_match_total self ts results ret p w :
  ready_world self ts results w ->
  (p.1 < length results)%nat -> (p.2 < length ts)%nat ->
  wp (add_match self results ret [p.1; p.2])
     (fun r w' => ready_world self ts results w' /\ is_ok r = true) w.
Proof.
  intros Hrw H1 H2. unfold add_match.
  destruct (lookup_lt_is_Some_2 results p.1 H1) as [track Htrack].
  destruct (lookup_lt_is_Some_2 ts p.2 H2) as [old Hold].
  assert (Htin : track ∈ results) by (by eapply list_elem_of_lookup_2).
  assert (Hoin : old ∈ ts) by (by eapply list_elem_of_lookup_2).
  apply wp_bind, wp_lift. simpl.
  apply wp_bind, wp_list_item. rewrite Htrack.
  apply wp_bind, wp_lift. simpl.
  apply wp_bind, wp_get_tracks. rewrite (proj1 Hrw).
  apply wp_bind, wp_list_item. rewrite Hold.
  the_track old. tot_field.
  the_det track. tot_write self ts results.
  tot_write self ts results.
  apply wp_bind, wp_lift. simpl.
  apply wp_bind, wp_get_tracks. rewrite (proj1 Hrw1).
  apply wp_bind, wp_list_item. rewrite Hold.
  the_track old. tot_field.
  tot_write self ts results.
  apply wp_bind.
  destruct (tracker self) eqn:Htr.
  - do 2 apply wp_ret. done.
  - apply wp_bind, wp_lift. simpl.
    apply wp_bind, wp_get_tracks. rewrite (proj1 Hrw2).
    apply wp_bind, wp_list_item. rewrite Hold.
    the_track old. destruct (Hkf1 Htr) as [k Hkalman]. tot_field.
    tot_write self ts results.
    tot_field.
    destruct (Hk Htr) as [c Hc].
    apply wp_bind, wp_field. rewrite Hnew2. simpl. rewrite Hc.
    tot_load.
    apply wp_bind.
    assert (Hwb : forall w', ready_world self ts results w' ->
              holds_at (fun d => is_Some (kf d)) w' track ->
              wp (write_back track)
                (fun r w'' => match r with
                              | Ok _ => wp (mret (ret ++ [track]))
                                  (fun r w' => ready_world self ts results w' /\
                                               is_ok r = true) w''
                              | Raise e => ready_world self ts results w'' /\
                                           is_ok (Raise (A:=list loc) e) = true
                              end) w').
    { intros w' Hr Hat. eapply wp_mono; [by apply (write_back_total self ts results)|].
      intros [[]|e] w'' [? ?]; [by apply wp_ret|done]. }
    destruct (use_vel self).
    + tot_write self ts results. apply Hwb; [done|]. eexists. split; [exact Hnew3|]. simpl. eauto.
    + tot_write self ts results. apply Hwb; [done|]. eexists. split; [exact Hnew3|]. simpl. eauto.
  - do 2 apply wp_ret. done.
Qed.

Lemma add_birth_total self ts results ret i w :
  ready_world self ts results w -> (i < length results)%nat ->
  wp (add_birth self results ret i)
     (fun r w' => ready_world self ts results w' /\ is_ok r = true) w.
Proof.
  intros Hrw Hi. destruct (lookup_lt_is_Some_2 results i Hi) as [l Hl].
  destruct (proj2 (proj2 Hrw) l) as (d & Hd & Hk); [by eapply list_elem_of_lookup_2|].
  unfold wp. rewrite (add_birth_eq self results ret i l d w Hl Hd Hk). simpl.
  split; [|done].
  apply (ready_world_modify self ts results w l d); [done|done|apply keeps_keys_born].
Qed.

Lemma add_stale_total self ts results ret i w :
  ready_world self ts results w -> (i < length ts)%nat ->
  wp (add_stale self ret i)
     (fun r w' => ready_world self ts results w' /\ is_ok r = true) w.
Proof.
  intros Hrw Hi. unfold add_stale.
  destruct (lookup_lt_is_Some_2 ts i Hi) as [track Htrack].
  assert (Htin : track ∈ ts) by (by eapply list_elem_of_lookup_2).
  apply wp_bind, wp_get_tracks. rewrite (proj1 Hrw).
  apply wp_bind, wp_list_item. rewrite Htrack.
  assert (Hafter : forall w', ready_world self ts results w' ->
    wp (field track ct ≫= fun c => load track ≫= fun d =>
        match tracking d, kf d with
        | Some t, _ =>
            modify track (set_ct (plus2 c (scale t (-1)%Q))) ≫= fun _ =>
            field track ct ≫= fun c => load track ≫= fun d =>
            modify track (set_translation (set_first2 (translation d) c))
        | None, Some _ => write_back track
        | None, None => mret tt
        end ≫= fun _ => mret (ret ++ [track]))
      (fun r w'' => ready_world self ts results w'' /\ is_ok r = true) w').
  { clear dependent w. intros w Hrw.
    the_track track. tot_field. tot_load. apply wp_bind.
    destruct (tracking d) as [t|].
    - tot_write self ts results. tot_field. tot_load.
      tot_write self ts results. by apply wp_ret.
    - destruct (kf d) as [k|] eqn:Hkalman.
      + eapply wp_mono.
        * apply (write_back_total self ts results); [done|].
          exists d. split; [done|]. rewrite Hkalman. eauto.
        * intros [[]|e] w'' [? ?]; [by apply wp_ret|done].
      + do 2 apply wp_ret. done. }
  assert (Hrest : forall w', ready_world self ts results w' ->
    wp (field track age ≫= fun a => load track ≫= fun d =>
          if (a <? max_age self) && Qgtb (detection_score d) (del_th self)
          then
            field track age ≫= fun a => modify track (set_age (a + 1)) ≫= fun _ =>
            load track ≫= fun d =>
            (if Qgtb (detection_score d) (s_th self)
             then field track active ≫= fun a => modify track (set_active (a + 1))
             else modify track (set_active 0)) ≫= fun _ =>
            field track ct ≫= fun c => load track ≫= fun d =>
            match tracking d, kf d with
            | Some t, _ =>
                modify track (set_ct (plus2 c (scale t (-1)%Q))) ≫= fun _ =>
                field track ct ≫= fun c => load track ≫= fun d =>
                modify track (set_translation (set_first2 (translation d) c))
            | None, Some _ => write_back track
            | None, None => mret tt
            end ≫= fun _ => mret (ret ++ [track])
          else mret ret)
      (fun r w'' => ready_world self ts results w'' /\ is_ok r = true) w').
  { clear dependent w. intros w Hrw.
    the_track track. tot_field. tot_load.
    lazymatch goal with
    | |- wp (if ?b then _ else _) _ _ => destruct b
    end; [|by apply wp_ret].
    tot_field. tot_write self ts results. tot_load. apply wp_bind.
    lazymatch goal with
    | |- wp (if ?b then _ else _) _ _ => destruct b
    end.
    - tot_field. tot_write self ts results. by apply Hafter.
    - tot_write self ts results. by apply Hafter. }
  apply wp_bind. destruct (score_update self).
  - the_track track. tot_load. tot_write self ts results. by apply Hrest.
  - apply wp_ret. by apply Hrest.
Qed.

Lemma ready_loop {A} self ts results (body : list loc -> A -> M (list loc))
    (valid : A -> Prop) items ret w :
  (forall ret a w, ready_world self ts results w -> valid a ->
     wp (body ret a) (fun r w' => ready_world self ts results w' /\ is_ok r = true) w) ->
  (forall a, a ∈ items -> valid a) ->
  ready_world self ts results w ->
  wp (foldM body ret items)
     (fun r w' => ready_world self ts results w' /\ is_ok r = true) w.
Proof.
  intros Hbody Hvalid Hrw.
  eapply wp_mono.
  - apply (wp_foldM body
             (fun _ rest w' => ready_world self ts results w' /\
                               forall a, a ∈ rest -> valid a)
             (fun _ _ => False)); [by split|].
    intros acc a rest w1 [Hrw1 Hrest].
    eapply wp_mono; [apply Hbody; [done|apply Hrest, elem_of_cons; auto]|].
    intros [acc'|e] w2 [Hrw2 Hok]; [|done].
    split; [done|]. intros x Hx. apply Hrest, elem_of_cons. auto.
  - intros [acc|e] w' Hpost; [|done]. by destruct Hpost.
Qed.

(** On an outcome in index-pair form whose indices exist, the update
    stage returns. *)
Lemma update_tracks_total self results pairs unmatched_trk unmatched_det w :
  ready_world self (tracks w) results w ->
  (forall p, p ∈ pairs -> (p.1 < length results)%nat /\ (p.2 < length (tracks w))%nat) ->
  (forall i, i ∈ unmatched_det -> (i < length results)%nat) ->
  (forall i, i ∈ unmatched_trk -> (i < length (tracks w))%nat) ->
  is_ok (update_tracks self results (PairArray pairs, unmatched_trk, unmatched_det) w).1 = true.
Proof.
  intros Hrw Hpairs Hdet Htrk.
  change (wp (update_tracks self results (PairArray pairs, unmatched_trk, unmatched_det))
            (fun r _ => is_ok r = true) w).
  unfold update_tracks. set (ts := tracks w) in *.
  apply wp_bind. eapply wp_mono.
  { apply (ready_loop self ts results (add_match self results)
             (fun m => exists p, m = [p.1; p.2] /\
                                 (p.1 < length results)%nat /\ (p.2 < length ts)%nat)).
    - intros ret m w1 Hrw1 (p & -> & H1 & H2). by apply add_match_total.
    - intros m Hm. simpl in Hm. apply list_elem_of_fmap in Hm as (p & -> & Hp).
      exists p. split; [done|]. by apply Hpairs.
    - exact Hrw. }
  intros [ret1|e] w1 [Hrw1 Hok]; [|done].
  apply wp_bind. eapply wp_mono.
  { apply (ready_loop self ts results (add_birth self results)
             (fun i => (i < length results)%nat)).
    - intros ret i w2 Hrw2 Hi. by apply add_birth_total.
    - exact Hdet.
    - exact Hrw1. }
  intros [ret2|e] w2 [Hrw2 Hok2]; [|done].
  apply wp_bind. eapply wp_mono.
  { apply (ready_loop self ts results (add_stale self)
             (fun i => (i < length ts)%nat)).
    - intros ret i w3 Hrw3 Hi. by apply (add_stale_total self ts results).
    - exact Htrk.
    - exact Hrw2. }
  intros [ret3|e] w3 [Hrw3 Hok3]; [|done].
  apply wp_bind, wp_set_tracks, wp_ret. done.
Qed.

End Stages.

Section Gating.
Context `{Library}.

(** ** Gating in the optimal mode *)

(** Lines 58-69: the class labels, the thresholds, the gated cost
    matrix and its cap. *)
Definition gated_costs (self : PubTracker) (positions1_data positions2_data : list det)
    (positions1 positions2 : list (Q * Q)) : result (array Q) :=
  positions1_cat ← rmap (fun index => of_option (label_preds index) KeyError) positions1_data;
  positions2_cat ← rmap (fun index => of_option (label_preds index) KeyError) positions2_data;
  max_diff ← rmap (fun box =>
                     table ← of_option (velocity_error self) AttributeError;
                     of_option (dict_get (detection_name box) table) KeyError)
                  positions2_data;
  dist ← cost_matrix positions1_cat positions2_cat max_diff positions1 positions2;
  Ok (cap dist).

(** A detection and a track may be paired: same class label, and not
    further apart than the detection's class allows. *)
Definition gated (self : PubTracker) (positions1_data positions2_data : list det)
    (positions1 positions2 : list (Q * Q)) (d t : nat) : Prop :=
  exists det trk p q table thr,
    positions2_data !! d = Some det /\ positions1_data !! t = Some trk /\
    positions2 !! d = Some p /\ positions1 !! t = Some q /\
    is_Some (label_preds det) /\ label_preds det = label_preds trk /\
    velocity_error self = Some table /\
    dict_get (detection_name det) table = Some thr /\
    (np_sqrt (sqdist q p) <= thr)%Q.

Lemma rmap_ok {A B} (f : A -> result B) l bs :
  rmap f l = Ok bs ->
  length bs = length l /\
  forall i a, l !! i = Some a -> exists b, bs !! i = Some b /\ f a = Ok b.
Proof.
  revert bs. induction l as [|a rest IH]; intros bs Hr; simpl in Hr.
  - injection Hr as <-. split; [done|]. intros i a Hi. by rewrite lookup_nil in Hi.
  - apply rbind_ok in Hr as (b & Hb & Hr). apply rbind_ok in Hr as (bs' & Hbs & Hr).
    injection Hr as <-. destruct (IH bs' Hbs) as [Hlen Hall].
    split; [simpl; by rewrite Hlen|].
    intros [|i] x Hi; simpl in Hi.
    + injection Hi as <-. eauto.
    + by apply Hall.
Qed.

Lemma bdim_same n : bdim n n = Ok n.
Proof. unfold bdim. by rewrite Nat.eqb_refl. Qed.

Lemma bdim_one_r n : bdim n 1 = Ok n.
Proof.
  unfold bdim. destruct (n =? 1)%nat eqn:Hn; [by apply Nat.eqb_eq in Hn as ->|done].
Qed.

Lemma bdim_one_l n : bdim 1 n = Ok n.
Proof.
  unfold bdim. destruct (1 =? n)%nat eqn:Hn; [by apply Nat.eqb_eq in Hn as <-|done].
Qed.

Lemma bidx_lt n i : (i < n)%nat -> bidx n i = i.
Proof.
  unfold bidx. destruct (n =? 1)%nat eqn:Hn; [|done].
  apply Nat.eqb_eq in Hn. lia.
Qed.

(** The cost of a cell, when the arrays have one row per dictionary. *)
Lemma cost_matrix_cell cat1 cat2 max_diff positions1 positions2 dist d t :
  length cat1 = length positions1 -> length cat2 = length positions2 ->
  length max_diff = length positions2 ->
  cost_matrix cat1 cat2 max_diff positions1 positions2 = Ok dist ->
  (d < length positions2)%nat -> (t < length positions1)%nat ->
  nrows dist = length positions2 /\ ncols dist = length positions1 /\
  cell dist d t =
    (let base := np_sqrt (sqdist (nth t positions1 (0, 0)%Q) (nth d positions2 (0, 0)%Q)) in
     base + (if Qgtb base (nth d max_diff 0%Q)
                || negb (nth d cat2 0%nat =? nth t cat1 0%nat)%nat
             then sentinel else 0))%Q.
Proof.
  intros H1 H2 H3 Hc Hd Ht. unfold cost_matrix, broadcast, mbind, result_bind in Hc.
  simpl in Hc. rewrite H1, H2, H3 in Hc.
  rewrite !bdim_same, !bdim_one_r, !bdim_one_l in Hc. simpl in Hc.
  rewrite !bdim_same in Hc. simpl in Hc. rewrite !bdim_same in Hc. simpl in Hc.
  injection Hc as <-. simpl. split_and!; [done|done|].
  rewrite !(bidx_lt (length positions2) d Hd), !(bidx_lt (length positions1) t Ht).
  done.
Qed.

Lemma hungarian_filter_kept dist ms acc u acc' u' :
  hungarian_filter (Some dist) ms acc u = Ok (acc', u') ->
  forall m, m ∈ acc' ->
    m ∈ acc \/
    (m ∈ ms /\ exists m0 m1 c, m !! 0%nat = Some m0 /\ m !! 1%nat = Some m1 /\
                               aget dist m0 m1 = Ok c /\ Qgtb c sentinel_cut = false).
Proof.
  revert acc u. induction ms as [|m rest IH]; intros acc u Hf x Hx; simpl in Hf.
  - injection Hf as <- <-. by left.
  - unfold mbind, result_bind in Hf. simpl in Hf.
    apply rbind_ok in Hf as (m0 & Hm0 & Hf).
    apply rbind_ok in Hf as (m1 & Hm1 & Hf).
    apply rbind_ok in Hf as (c & Hc & Hf).
    unfold item in Hm0, Hm1.
    destruct (m !! 0%nat) as [a|] eqn:Ha; [|done]. injection Hm0 as ->.
    destruct (m !! 1%nat) as [b|] eqn:Hb; [|done]. injection Hm1 as ->.
    destruct (Qgtb c sentinel_cut) eqn:Hcut.
    + destruct (IH _ _ Hf x Hx) as [Hacc|(Hin & Hex)]; [by left|].
      right. split; [apply elem_of_cons; auto|done].
    + destruct (IH _ _ Hf x Hx) as [Hacc|(Hin & Hex)].
      * apply elem_of_app in Hacc as [Hacc|Hacc]; [by left|].
        apply list_elem_of_singleton in Hacc as ->.
        right. split; [apply elem_of_cons; auto|]. eauto 10.
      * right. split; [apply elem_of_cons; auto|done].
Qed.

Lemma pair_up_rows (ps : list (nat * nat)) :
  pair_up (concat (map (fun p => [p.1; p.2]) ps)) = Ok ps.
Proof.
  induction ps as [|[a b] ps IH]; [done|]. simpl. by rewrite IH.
Qed.

Lemma reshape_pairs_rows (ps : list (nat * nat)) :
  reshape_pairs (map (fun p => [p.1; p.2]) ps) = Ok ps.
Proof.
  destruct ps as [|p ps]; [done|]. unfold reshape_pairs.
  cbn [map]. rewrite (proj2 (forallb_forall _ _)).
  - apply (pair_up_rows (p :: ps)).
  - intros r Hr. apply in_inv in Hr as [<-|Hr]; [done|].
    apply in_map_iff in Hr as (q & <- & _). done.
Qed.

Lemma rows_are_pairs (ps : list (nat * nat)) (rows : list (list nat)) :
  (forall m, m ∈ rows -> m ∈ map (fun p => [p.1; p.2]) ps) ->
  exists qs, rows = map (fun p : nat * nat => [p.1; p.2]) qs.
Proof.
  induction rows as [|m rest IH]; intros Hall; [by exists []|].
  destruct IH as [qs ->]. { intros x Hx. apply Hall, elem_of_cons. auto. }
  assert (Hm : m ∈ map (fun p : nat * nat => [p.1; p.2]) ps).
  { apply Hall, elem_of_cons. auto. }
  apply list_elem_of_fmap in Hm as (q & -> & _). by exists (q :: qs).
Qed.

Lemma sentinel_above_cut : (sentinel_cut < sentinel)%Q.
Proof. unfold sentinel, sentinel_cut, Qlt. simpl. lia. Qed.

(** X24.  The cut of the optimal mode lets only gated pairs through.
    On the cost matrix of lines 58-69, and for whatever index pairs
    the solver stage hands over, every pair that lines 80-87 return as
    a match is gated: detection and track have the same class label,
    and their distance is at most the threshold of the detection's
    class. *)
Lemma optimal_tail_gated self p1d p2d positions1 positions2 dist pairs matches u1 u2 d t :
  (forall x, (0 <= np_sqrt x)%Q) ->
  hungarian self = true ->
  length positions1 = length p1d -> length positions2 = length p2d ->
  gated_costs self p1d p2d positions1 positions2 = Ok dist ->
  unmatched_and_matches self (Some dist) (PairArray pairs) positions1 positions2
    = Ok (matches, u1, u2) ->
  [d; t] ∈ items matches ->
  gated self p1d p2d positions1 positions2 d t.
Proof.
  intros Hsqrt Hhung Hlen1 Hlen2 Hcost Htail Hin.
  (* the pairs that come out are rows that passed the cut *)
  unfold unmatched_and_matches, mbind, result_bind in Htail.
  apply rbind_ok in Htail as (u1' & _ & Htail).
  apply rbind_ok in Htail as (u2' & _ & Htail).
  rewrite Hhung in Htail.
  apply rbind_ok in Htail as ([rows u2''] & Hfilter & Htail).
  apply rbind_ok in Htail as (ps & Hps & Htail).
  injection Htail as <- <- <-.
  pose proof (hungarian_filter_kept _ _ _ _ _ _ Hfilter) as Hkept.
  destruct (rows_are_pairs pairs rows) as [qs ->].
  { intros m Hm. destruct (Hkept m Hm) as [Hnil|[Hm' _]]; [by apply elem_of_nil in Hnil|done]. }
  rewrite reshape_pairs_rows in Hps. injection Hps as <-.
  simpl in Hin.
  destruct (Hkept [d; t] Hin) as [Hnil|(_ & m0 & m1 & c & Hm0 & Hm1 & Hget & Hcut)];
    [by apply elem_of_nil in Hnil|].
  simpl in Hm0, Hm1. injection Hm0 as <-. injection Hm1 as <-.
  (* the cost of that cell *)
  unfold gated_costs, mbind, result_bind in Hcost.
  apply rbind_ok in Hcost as (cat1 & Hcat1 & Hcost).
  apply rbind_ok in Hcost as (cat2 & Hcat2 & Hcost).
  apply rbind_ok in Hcost as (max_diff & Hmax & Hcost).
  apply rbind_ok in Hcost as (dist0 & Hdist0 & Hcost).
  injection Hcost as <-.
  apply rmap_ok in Hcat1 as [Hl1 Hcat1]. apply rmap_ok in Hcat2 as [Hl2 Hcat2].
  apply rmap_ok in Hmax as [Hl3 Hmax].
  unfold aget in Hget. simpl in Hget.
  destruct ((d <? nrows dist0)%nat && (t <? ncols dist0)%nat) eqn:Hrange; [|done].
  injection Hget as <-.
  apply andb_prop in Hrange as [Hd Ht]. apply Nat.ltb_lt in Hd, Ht.
  assert (Hshape : nrows dist0 = length positions2 /\ ncols dist0 = length positions1).
  { unfold cost_matrix, broadcast, mbind, result_bind in Hdist0. simpl in Hdist0.
    rewrite Hl1, Hl2, Hl3, <- Hlen1, <- Hlen2 in Hdist0.
    rewrite !bdim_same, !bdim_one_r, !bdim_one_l in Hdist0. simpl in Hdist0.
    rewrite !bdim_same in Hdist0. simpl in Hdist0. rewrite !bdim_same in Hdist0.
    simpl in Hdist0. by injection Hdist0 as <-. }
  destruct Hshape as [Hrows Hcols]. rewrite Hrows in Hd. rewrite Hcols in Ht.
  destruct (cost_matrix_cell cat1 cat2 max_diff positions1 positions2 dist0 d t)
    as (_ & _ & Hcell); [congruence|congruence|congruence|done|done|done|].
  simpl in Hcut. rewrite Hcell in Hcut. clear Hcell.
  destruct (lookup_lt_is_Some_2 positions2 d Hd) as [p Hp].
  destruct (lookup_lt_is_Some_2 positions1 t Ht) as [q Hq].
  destruct (lookup_lt_is_Some_2 p2d d ltac:(lia)) as [det Hdet].
  destruct (lookup_lt_is_Some_2 p1d t ltac:(lia)) as [trk Htrk].
  destruct (Hcat2 d det Hdet) as (c2 & Hc2 & Hlab2).
  destruct (Hcat1 t trk Htrk) as (c1 & Hc1 & Hlab1).
  destruct (Hmax d det Hdet) as (thr & Hthr & Htab).
  rewrite (nth_lookup_Some _ _ _ _ Hp), (nth_lookup_Some _ _ _ _ Hq),
    (nth_lookup_Some _ _ _ _ Hthr), (nth_lookup_Some _ _ _ _ Hc2),
    (nth_lookup_Some _ _ _ _ Hc1) in Hcut.
  set (base := np_sqrt (sqdist q p)) in *.
  assert (Hbase : (0 <= base)%Q) by apply Hsqrt.
  pose proof sentinel_above_cut as Hsc.
  cbv zeta in Hcut.
  destruct (Qgtb base thr || negb (c2 =? c1)%nat) eqn:Hinvalid.
  { (* a gated cell costs at least the sentinel *)
    exfalso. destruct (Qgtb (base + sentinel) sentinel) eqn:Hcap;
      apply Qgtb_le in Hcut; lra. }
  apply orb_false_elim in Hinvalid as [Hnear Hsame].
  apply Qgtb_le in Hnear. apply negb_false_iff, Nat.eqb_eq in Hsame. subst c2.
  unfold mbind, result_bind in Htab.
  destruct (velocity_error self) as [table|] eqn:Htable; [|done]. simpl in Htab.
  destruct (dict_get (detection_name det) table) as [thr'|] eqn:Hget; [|done].
  injection Htab as ->.
  destruct (label_preds det) as [ld|] eqn:Hld; [|done]. injection Hlab2 as ->.
  destruct (label_preds trk) as [lt|] eqn:Hlt; [|done]. injection Hlab1 as ->.
  exists det, trk, p, q, table, thr.
  rewrite Hld, Hlt. split_and!; eauto.
Qed.

End Gating.

(** * The claims *)

Lemma filter_none {A} (P : A -> Prop) `{!forall x, Decision (P x)} (l : list A) :
  (forall x, x ∈ l -> ~ P x) -> filter P l = [].
Proof.
  induction l as [|a rest IH]; intros Hno; [done|].
  rewrite filter_cons_False by (apply Hno, elem_of_cons; auto).
  apply IH. intros x Hx. apply Hno, elem_of_cons. auto.
Qed.

Lemma NoDup_last {A} (l : list A) k x :
  NoDup l -> l !! k = Some x -> x ∉ drop (S k) l.
Proof.
  intros Hnd Hk Hin. apply list_elem_of_lookup in Hin as [j Hj].
  rewrite lookup_drop in Hj.
  pose proof (NoDup_lookup l _ _ x Hnd Hk Hj). lia.
Qed.

Lemma last_occurrence {A} `{!EqDecision A} (l : list A) x :
  x ∈ l -> exists k, l !! k = Some x /\ x ∉ drop (S k) l.
Proof.
  induction l as [|a rest IH]; intros Hin; [by apply elem_of_nil in Hin|].
  destruct (decide (x ∈ rest)) as [Hrest|Hnot].
  - destruct (IH Hrest) as (k & Hk & Hlast). by exists (S k).
  - apply elem_of_cons in Hin as [->|Hin]; [|done]. by exists 0%nat.
Qed.

Section Claims.
Context `{Library}.

(** ** Empty frames and frames of untracked classes *)

(** A frame with no detection at all clears the track list and returns
    nothing; the identity counter is kept. *)
Lemma step_empty_frame self time_lag w :
  step_centertrack self [] time_lag w = (Ok [], mk_world (id_count w) [] (heap w)).
Proof. reflexivity. Qed.

(** [reset] gives the world a session starts from. *)
Lemma reset_world w : reset w = (Ok tt, mk_world 0 [] (heap w)).
Proof. reflexivity. Qed.

(** C1.  A non-empty frame whose detections are all of untracked
    classes, met while at least one track is alive, does not clear the
    track list and does not return an empty result: the call ends in an
    exception and the track list is what it was.  In point mode, with a
    known dataset, the exception is the [IndexError] of [results[0]] on
    the emptied list (line 217). *)
Theorem untracked_frame_raises self results time_lag w :
  tracks w <> [] -> results <> [] ->
  (forall l, l ∈ results -> tracked_at self w l = false) ->
  is_ok (step_centertrack self results time_lag w).1 = false /\
  tracks (step_centertrack self results time_lag w).2 = tracks w /\
  (tracker self = PointTracker -> is_Some (tracking_names self) ->
   (forall l, l ∈ results -> is_Some (heap w !! l)) ->
   (step_centertrack self results time_lag w).1 = Raise IndexError).
Proof.
  intros Htr Hres Hun.
  destruct (step_live_frame self results time_lag w Hres Htr) as (Hok & [_ Hts] & _ & _).
  split_and!; [done|done|].
  intros Hpt [names Hn] Hrefs. clear Hok Hts.
  unfold step_centertrack.
  destruct results as [|r0 results]; [done|]. cbn [length Nat.eqb].
  set (frame := r0 :: results) in *.
  unfold mbind at 1. unfold M_bind at 1.
  destruct (extend_loop self time_lag frame [] w) as ([_ Hts] & _ & Hout).
  destruct (foldM _ [] frame w) as [[temp|e] w1]; simpl in Hts, Hout |- *.
  - destruct Hout as [-> _].
    rewrite filter_none by (intros l Hl; by rewrite Hun).
    unfold mbind at 1. unfold M_bind at 1. unfold get_tracks at 1.
    rewrite Hts. destruct (tracks w) as [|t0 ts]; [done|]. cbn [length Nat.eqb].
    unfold predict_positions. rewrite Hpt. reflexivity.
  - exfalso. destruct Hout as [[_ Hnone]|(_ & l & Hl & Hnone)]; [congruence|].
    destruct (Hrefs l Hl). congruence.
Qed.

(** ** The assignment stage *)

(** In optimal mode with at least one track position,
    [comparing_positions] is [gated_costs], the solver, and lines
    77-90 on the solver's tuple. *)
Lemma comparing_positions_optimal self p1d p2d positions1 positions2 :
  hungarian self = true -> positions1 <> [] ->
  comparing_positions self p1d p2d positions1 positions2 =
  (dist ← gated_costs self p1d p2d positions1 positions2;
   unmatched_and_matches self (Some dist)
     (IndexTuple (linear_sum_assignment dist).1 (linear_sum_assignment dist).2)
     positions1 positions2).
Proof.
  intros Hh Hne. unfold comparing_positions, gated_costs.
  destruct (rmap _ p1d) as [c1|e]; [|done]. simpl.
  destruct (rmap (fun index => of_option (label_preds index) KeyError) p2d) as [c2|e];
    [|done]. simpl.
  destruct (rmap _ p2d) as [md|e]; [|done]. simpl.
  destruct positions1 as [|p ps]; [done|]. cbn [length Nat.ltb Nat.leb].
  rewrite Hh. destruct (cost_matrix _ _ _ _ _) as [dist|e]; done.
Qed.


(** C4.  With at least one track position, [comparing_positions] does
    not return: the greedy mode raises in [greedy_assignment], the
    optimal mode when line 77 indexes the solver's tuple. *)
Theorem comparing_positions_never_returns self p1d p2d positions1 positions2 :
  positions1 <> [] ->
  is_ok (comparing_positions self p1d p2d positions1 positions2) = false.
Proof.
  intros Hne. destruct (comparing_positions _ _ _ _ _) as [r|e] eqn:Hcmp; [|done].
  by apply comparing_positions_ok_inv in Hcmp as (-> & _).
Qed.

(** ** Elapsed time *)

(** C9, as amended.  The elapsed time is not checked.  A call with a
    strictly negative [time_lag] on a tracker with no live track and a
    known dataset returns the frame's tracked detections, newly born,
    and keeps them as the track list. *)
Theorem negative_time_lag_processed self results time_lag w :
  (time_lag < 0)%Q -> tracks w = [] -> is_Some (tracking_names self) ->
  (forall l, l ∈ results -> is_Some (heap w !! l)) ->
  (step_centertrack self results time_lag w).1
    = Ok (filter (fun l => tracked_at self w l = true) results) /\
  tracks (step_centertrack self results time_lag w).2
    = filter (fun l => tracked_at self w l = true) results.
Proof.
  intros _ Htr [names Hn] Hrefs.
  destruct results as [|r0 results]; [done|].
  pose proof (step_first_frame self (r0 :: results) time_lag w) as Hwp.
  unfold wp in Hwp.
  destruct (step_centertrack self (r0 :: results) time_lag w) as [[ret|e] w'];
    simpl in Hwp |- *.
  - destruct Hwp as (-> & -> & _); done.
  - exfalso. destruct Hwp as (_ & _ & [[_ Hnone]|(_ & l & Hl & Hnone)]); [done|done| |].
    + congruence.
    + destruct (Hrefs l Hl). congruence.
Qed.

(** ** Identities over a session *)

Definition live_id (w : world) (l : loc) (i : Z) : Prop :=
  exists d, heap w !! l = Some d /\ tracking_id d = Some i.

(** The counter is not negative, every live track carries an identity
    between 1 and the counter, and two places of the track list that
    carry the same identity are the same place. *)
Definition identities_ok (w : world) : Prop :=
  0 <= id_count w /\
  (forall l, l ∈ tracks w -> exists i, live_id w l i /\ 1 <= i <= id_count w) /\
  (forall j k l l' i, tracks w !! j = Some l -> tracks w !! k = Some l' ->
     live_id w l i -> live_id w l' i -> j = k).

(** A session: a tracker just built or reset, over any store, followed
    by frames each made of pairwise distinct dictionaries.  A frame
    that ended in an exception is part of the session like any
    other. *)
Inductive session (self : PubTracker) : world -> Prop :=
| session_start h : session self (mk_world 0 [] h)
| session_frame w results time_lag :
    session self w -> NoDup results ->
    session self (step_centertrack self results time_lag w).2.

Lemma born_tracking_id self n a d : tracking_id (born self n a d) = Some n.
Proof. unfold born. by destruct (tracker self), (ct d). Qed.

Lemma live_step_tracking_id self time_lag frame ts l d d' :
  live_step self time_lag frame ts l d d' -> tracking_id d' = tracking_id d.
Proof.
  intros (d1 & Hext & Hkf).
  assert (tracking_id d1 = tracking_id d) as <-.
  { destruct Hext as [->|(_ & _ & idx & ->)]; [done|].
    unfold extended. by destruct (tracker self). }
  by destruct Hkf as [->|(_ & k & ->)].
Qed.

Lemma live_id_live_step self time_lag frame ts w w' l i :
  heap_rel (live_step self time_lag frame ts) w w' ->
  live_id w' l i <-> live_id w l i.
Proof.
  intros Hrel. specialize (Hrel l). unfold live_id.
  destruct (heap w !! l) as [d|].
  - destruct Hrel as (d' & Hd' & Hstep). rewrite Hd'.
    apply live_step_tracking_id in Hstep.
    split; intros (d0 & [= <-] & Hid); eexists; (split; [done|congruence]).
  - rewrite Hrel. split; intros (? & ? & ?); done.
Qed.

Lemma step_identities self results time_lag w :
  identities_ok w -> NoDup results ->
  identities_ok (step_centertrack self results time_lag w).2 /\
  id_count w <= id_count (step_centertrack self results time_lag w).2 /\
  forall l i,
    l ∈ tracks (step_centertrack self results time_lag w).2 ->
    live_id (step_centertrack self results time_lag w).2 l i ->
    id_count w < i <= id_count (step_centertrack self results time_lag w).2 \/
    (l ∈ tracks w /\ live_id w l i).
Proof.
  intros (Hpos & Hlive & Huniq) Hnd.
  destruct results as [|r0 results].
  { simpl. split_and!.
    - split_and!; [done| |]; simpl.
      + intros l Hl. by apply elem_of_nil in Hl.
      + intros j k l l' i Hj. by rewrite lookup_nil in Hj.
    - lia.
    - intros l i Hl. by apply elem_of_nil in Hl. }
  set (frame := r0 :: results) in *.
  destruct (tracks w) as [|t0 ts] eqn:Hts.
  - (* no live track: the frame's tracked detections are born *)
    pose proof (step_first_frame self frame time_lag w) as Hwp.
    unfold wp in Hwp.
    destruct (step_centertrack self frame time_lag w) as [[ret|e] w'];
      simpl in Hwp |- *.
    + destruct Hwp as (Hret & Htr' & Hid' & _ & Hexact); [done|done|].
      assert (Hndret : NoDup ret) by (subst ret; by apply NoDup_filter).
      assert (Hborn : forall k l, ret !! k = Some l ->
                live_id w' l (id_count w + Z.of_nat k + 1) /\
                forall i, live_id w' l i -> i = id_count w + Z.of_nat k + 1).
      { intros k l Hk.
        assert (Hl : l ∈ ret) by (by eapply list_elem_of_lookup_2).
        rewrite Hret in Hl. apply list_elem_of_filter in Hl as [Ht _].
        unfold tracked_at in Ht. destruct (heap w !! l) as [d|] eqn:Hd; [|done].
        destruct (Hexact k l d Hk (NoDup_last _ _ _ Hndret Hk) Hd) as [idx Hd'].
        split.
        - eexists. split; [exact Hd'|apply born_tracking_id].
        - intros i (d0 & Hd0 & Hi). rewrite Hd' in Hd0. injection Hd0 as <-.
          rewrite born_tracking_id in Hi. congruence. }
      unfold identities_ok. rewrite Htr'. split_and!.
      * lia.
      * intros l Hl. apply list_elem_of_lookup in Hl as [k Hk].
        destruct (Hborn k l Hk) as [Hid _].
        eexists. split; [exact Hid|].
        apply lookup_lt_Some in Hk. lia.
      * intros j k l l' i Hj Hk Hi Hi'.
        apply (Hborn j l Hj) in Hi. apply (Hborn k l' Hk) in Hi'. lia.
      * lia.
      * intros l i Hl Hi. left.
        apply list_elem_of_lookup in Hl as [k Hk].
        apply (Hborn k l Hk) in Hi. apply lookup_lt_Some in Hk. lia.
    + destruct Hwp as ([Hid' Htr'] & _); [done|done|].
      unfold identities_ok. rewrite Htr', Hts, Hid'. split_and!.
      * done.
      * intros l Hl. by apply elem_of_nil in Hl.
      * intros j k l l' i Hj. by rewrite lookup_nil in Hj.
      * lia.
      * intros l i Hl. by apply elem_of_nil in Hl.
  - (* live tracks: the frame stops in the assignment stage *)
    destruct (step_live_frame self frame time_lag w) as (_ & [Hid' Htr'] & Hrel & _);
      [done|by rewrite Hts|].
    set (w' := (step_centertrack self frame time_lag w).2) in *.
    rewrite <- Hts in *.
    assert (Hsame : forall l i, live_id w' l i <-> live_id w l i).
    { intros l i. by eapply live_id_live_step. }
    unfold identities_ok. rewrite Hid', Htr'. split_and!.
    + done.
    + intros l Hl. destruct (Hlive l Hl) as (i & Hi & Hrange).
      exists i. by rewrite Hsame.
    + intros j k l l' i Hj Hk Hi Hi'. rewrite Hsame in Hi, Hi'. eauto.
    + lia.
    + intros l i Hl Hi. right. by rewrite <- Hsame.
Qed.

Lemma session_identities self w : session self w -> identities_ok w.
Proof.
  induction 1 as [h|w results time_lag _ IH Hnd].
  - split_and!; simpl; [done| |].
    + intros l Hl. by apply elem_of_nil in Hl.
    + intros j k l l' i Hj. by rewrite lookup_nil in Hj.
  - by apply step_identities.
Qed.

(** C6.  At any point of a session whose frames each hold pairwise
    distinct dictionaries, the live tracks carry pairwise different
    identities, all between 1 and the counter.  A frame never lowers
    the counter, and an identity that is live after the frame is either
    carried by a track that was live with it before, or is greater than
    the counter was, hence greater than every identity given out so
    far. *)
Theorem identities_unique_and_fresh self w results time_lag :
  session self w -> NoDup results ->
  identities_ok w /\
  identities_ok (step_centertrack self results time_lag w).2 /\
  id_count w <= id_count (step_centertrack self results time_lag w).2 /\
  forall l i,
    l ∈ tracks (step_centertrack self results time_lag w).2 ->
    live_id (step_centertrack self results time_lag w).2 l i ->
    id_count w < i <= id_count (step_centertrack self results time_lag w).2 \/
    (l ∈ tracks w /\ live_id w l i).
Proof.
  intros Hs Hnd. split; [by apply (session_identities self)|].
  apply step_identities; [by apply (session_identities self)|done].
Qed.

(** ** What a frame does to the caller's dictionaries *)

Lemma ext_step_keeps self time_lag frame l d d' :
  ext_step self time_lag frame l d d' ->
  keeps_keys d d' /\ (tracked self d = false -> d' = d).
Proof.
  intros [->|(_ & Ht & idx & ->)].
  - split; [apply keeps_keys_refl|done].
  - split; [apply keeps_keys_extended|congruence].
Qed.

Lemma ext_step_fields self time_lag frame l d d' :
  ext_step self time_lag frame l d d' ->
  translation d' = translation d /\ velocity d' = velocity d /\
  detection_score d' = detection_score d /\
  tracking_id d' = tracking_id d /\ age d' = age d /\ active d' = active d /\
  kf d' = kf d.
Proof.
  intros [->|(_ & _ & idx & ->)]; [done|].
  unfold extended. by destruct (tracker self).
Qed.

Lemma kf_step_fields ts l d d' :
  kf_step ts l d d' ->
  translation d' = translation d /\ velocity d' = velocity d /\
  detection_score d' = detection_score d /\
  tracking_id d' = tracking_id d /\ age d' = age d /\ active d' = active d /\
  ct d' = ct d /\ tracking d' = tracking d /\ label_preds d' = label_preds d.
Proof. intros [->|(_ & k & ->)]; done. Qed.

Lemma birth_step_values self act lo hi ls l d d' :
  birth_step self act lo hi ls l d d' ->
  translation d' = translation d /\ velocity d' = velocity d /\
  detection_score d' = detection_score d.
Proof.
  intros [->|(_ & n & _ & ->)]; [done|].
  unfold born. by destruct (tracker self), (ct d).
Qed.

(** C10, as amended.  The dictionaries handed in are written to in
    place: keys of the tracker are set, and what the detector gave is
    not overwritten.  Whatever the call does, every dictionary is still
    there with every key it had and with its class name, translation,
    velocity and score unchanged; a dictionary of an untracked class
    that is not a live track is left exactly as it was.  A tracked
    detection of the frame gets ['ct'], the first two coordinates of
    its translation, and ['label_preds'], and in point mode
    ['tracking'], minus its velocity times [time_lag].  When the call
    returns, the tracks it returns are dictionaries of the frame, and
    each has got ['tracking_id'], ['age'] 1 and ['active'], and in
    filter mode ['KF']. *)
Theorem detections_extended_in_place self results time_lag w l d :
  heap w !! l = Some d ->
  exists d',
    heap (step_centertrack self results time_lag w).2 !! l = Some d' /\
    keeps_keys d d' /\
    translation d' = translation d /\ velocity d' = velocity d /\
    detection_score d' = detection_score d /\
    (tracked self d = false -> l ∉ tracks w -> d' = d) /\
    ((forall x, x ∈ results -> is_Some (heap w !! x)) ->
     l ∈ results -> tracked self d = true ->
     ct d' = Some (first2 (translation d)) /\ is_Some (label_preds d') /\
     (tracker self = PointTracker ->
      tracking d' = Some (scale (scale (first2 (velocity d)) (-1)%Q) time_lag))) /\
    (forall ret, (step_centertrack self results time_lag w).1 = Ok ret ->
       (forall x, x ∈ ret -> x ∈ results) /\
       (l ∈ ret ->
        is_Some (tracking_id d') /\ age d' = Some 1 /\ active d' = Some (min_hits self) /\
        (tracker self = KF -> is_Some (kf d')))).
Proof.
  intros Hd.
  assert (Hta : tracked_at self w l = tracked self d) by (unfold tracked_at; by rewrite Hd).
  destruct results as [|r0 results].
  { simpl. exists d. split_and!; [done|apply keeps_keys_refl|done|done|done|done| |].
    - intros _ Hl. by apply elem_of_nil in Hl.
    - intros ret [= <-]. split; [done|]. intros Hl. by apply elem_of_nil in Hl. }
  set (frame := r0 :: results) in *.
  destruct (tracks w) as [|t0 ts] eqn:Hts.
  - pose proof (step_first_frame self frame time_lag w) as Hwp.
    unfold wp in Hwp.
    destruct (step_centertrack self frame time_lag w) as [[ret|e] w'];
      simpl in Hwp |- *.
    + destruct Hwp as (Hret & _ & _ & Hrel & Hexact); [done|done|].
      specialize (Hrel l). rewrite Hd in Hrel.
      destruct Hrel as (d' & Hd' & d1 & Hext & Hbirth).
      pose proof (ext_step_fields _ _ _ _ _ _ Hext) as (Ht1 & Hv1 & Hs1 & _).
      pose proof (birth_step_values _ _ _ _ _ _ _ _ Hbirth) as (Ht2 & Hv2 & Hs2).
      apply ext_step_keeps in Hext as [Hk1 Hun1].
      assert (Hborn : l ∈ ret -> exists k idx,
                d' = born self (id_count w + Z.of_nat k + 1) (min_hits self)
                       (extended self time_lag idx d)).
      { intros Hin. destruct (last_occurrence ret l Hin) as (k & Hk & Hlast).
        destruct (Hexact k l d Hk Hlast Hd) as [idx Hb].
        exists k, idx. congruence. }
      exists d'. split_and!; [done| |congruence|congruence|congruence| | |].
      * eapply keeps_keys_trans; [exact Hk1|].
        destruct Hbirth as [->|(_ & n & _ & ->)];
          [apply keeps_keys_refl|apply keeps_keys_born].
      * intros Hun _. destruct Hbirth as [->|(Hin & _)]; [by apply Hun1|].
        rewrite Hret in Hin. apply list_elem_of_filter in Hin as [Ht _]. congruence.
      * intros _ Hl Ht.
        destruct Hborn as (k & idx & ->).
        { rewrite Hret. apply list_elem_of_filter. split; [congruence|done]. }
        unfold born, extended. destruct (tracker self); simpl; split_and!; eauto; done.
      * intros ? [= <-]. split.
        -- intros x Hx. rewrite Hret in Hx. by apply list_elem_of_filter in Hx as [_ ?].
        -- intros Hin. destruct (Hborn Hin) as (k & idx & ->).
           unfold born, extended. destruct (tracker self); simpl; split_and!; eauto; done.
    + destruct Hwp as (_ & Hrel & Hexn); [done|done|].
      specialize (Hrel l). rewrite Hd in Hrel. destruct Hrel as (d' & Hd' & Hext).
      pose proof (ext_step_fields _ _ _ _ _ _ Hext) as (Ht1 & Hv1 & Hs1 & _).
      apply ext_step_keeps in Hext as [Hk1 Hun1].
      exists d'. split_and!; [done|done|done|done|done|auto| |done].
      intros Hrefs Hl Ht. exfalso.
      destruct Hexn as [[_ Hn]|(_ & x & Hx & Hnone)].
      * unfold tracked in Ht. by rewrite Hn in Ht.
      * destruct (Hrefs x Hx). congruence.
  - destruct (step_live_frame self frame time_lag w) as (Hok & _ & Hrel & Hext);
      [done|by rewrite Hts|].
    set (out := step_centertrack self frame time_lag w) in *.
    rewrite <- Hts in *.
    specialize (Hrel l). rewrite Hd in Hrel.
    destruct Hrel as (d' & Hd' & d1 & Hext1 & Hkf).
    pose proof (ext_step_fields _ _ _ _ _ _ Hext1) as (Ht1 & Hv1 & Hs1 & _).
    pose proof (kf_step_fields _ _ _ _ Hkf) as (Ht2 & Hv2 & Hs2 & _).
    apply ext_step_keeps in Hext1 as [Hk1 Hun1].
    exists d'. split_and!; [done| |congruence|congruence|congruence| | |].
    + eapply keeps_keys_trans; [exact Hk1|].
      destruct Hkf as [->|(_ & k & ->)];
        [apply keeps_keys_refl|apply keeps_keys_set_kf].
    + intros Hun Hnin. destruct Hkf as [->|(Hin & _)]; [by apply Hun1|done].
    + intros Hrefs Hl Ht.
      destruct (Hext Hrefs l Hl) as (d0 & idx & d2 & Hd0 & Hd2 & Hkf2); [congruence|].
      assert (d0 = d) as -> by congruence.
      assert (d2 = d') as -> by congruence.
      destruct Hkf2 as [->|(_ & k & ->)]; unfold extended;
        destruct (tracker self); simpl; split_and!; eauto; done.
    + intros ret Hret. by rewrite Hret in Hok.
Qed.

(** ** Ages and deletion *)

(** X25.  Every dictionary that [step_centertrack] returns has an
    age, at most [max_age] or, when [max_age] is below 1, at most 1.
    And one pass of the loop of lines 298-324 over a track whose age
    has reached [max_age], or whose score (after the decay, when there
    is one) is not above the deletion threshold, adds nothing to the
    result. *)
Theorem emitted_ages_bounded self results time_lag w ret w' :
  step_centertrack self results time_lag w = (Ok ret, w') ->
  (forall l, l ∈ ret ->
     exists d a, heap w' !! l = Some d /\ age d = Some a /\ a <= Z.max 1 (max_age self)) /\
  (forall kept i t d a w0,
     tracks w0 !! i = Some t -> heap w0 !! t = Some d -> age d = Some a ->
     max_age self <= a \/ (decayed_score self d <= del_th self)%Q ->
     (add_stale self kept i w0).1 = Ok kept).
Proof.
  intros Hrun. split.
  - intros l Hl.
    pose proof (wp_run _ _ _ _ _ (step_centertrack_ages self results time_lag w) Hrun) as Hall.
    destruct (Hall ret eq_refl l Hl) as (d & Hd & a & Ha & Hle). by exists d, a.
  - intros kept i t d a w0. apply add_stale_drops.
Qed.

(** C5.  A track is not removed for its age or its score.  When a
    non-empty frame follows, the call ends in an exception before the
    test of line 306: the track, however old and however low its
    score, is still in the track list afterwards, at the same age and
    with the same score. *)
Theorem old_track_is_not_removed self results time_lag w l d a :
  results <> [] -> l ∈ tracks w -> heap w !! l = Some d -> age d = Some a ->
  max_age self <= a \/ (detection_score d <= del_th self)%Q ->
  is_ok (step_centertrack self results time_lag w).1 = false /\
  l ∈ tracks (step_centertrack self results time_lag w).2 /\
  exists d', heap (step_centertrack self results time_lag w).2 !! l = Some d' /\
    age d' = Some a /\ detection_score d' = detection_score d.
Proof.
  intros Hres Hl Hd Ha _.
  assert (Htr : tracks w <> []) by (intros Hnil; rewrite Hnil in Hl; by apply elem_of_nil in Hl).
  destruct (step_live_frame self results time_lag w Hres Htr) as (Hok & [_ Hts] & Hrel & _).
  split_and!; [done|by rewrite Hts|].
  specialize (Hrel l). rewrite Hd in Hrel.
  destruct Hrel as (d' & Hd' & d1 & Hext & Hkf).
  apply ext_step_fields in Hext as (_ & _ & Hs1 & _ & Ha1 & _).
  apply kf_step_fields in Hkf as (_ & _ & Hs2 & _ & Ha2 & _).
  exists d'. split; [done|]. split; congruence.
Qed.

(** ** Births *)

Lemma NoDup_unmatched_locs (results : list loc) (unmatched : list nat) (ls : list loc) :
  NoDup results -> NoDup unmatched ->
  Forall2 (fun i l => results !! i = Some l) unmatched ls -> NoDup ls.
Proof.
  intros Hres Hun Hall. apply NoDup_alt. intros j k l Hj Hk.
  destruct (Forall2_lookup_r _ _ _ _ _ Hall Hj) as (ij & Hij & Hrj).
  destruct (Forall2_lookup_r _ _ _ _ _ Hall Hk) as (ik & Hik & Hrk).
  assert (ij = ik) as -> by exact (NoDup_lookup results ij ik l Hres Hrj Hrk).
  exact (NoDup_lookup unmatched j k ik Hun Hij Hik).
Qed.

Lemma births_of_completed_update self results matched unmatched_trk unmatched_det
    w ret w' k i l d :
  update_tracks self results (matched, unmatched_trk, unmatched_det) w = (Ok ret, w') ->
  NoDup results -> NoDup unmatched_det ->
  (forall x, x ∈ unmatched_det ->
     exists lx dx, results !! x = Some lx /\ heap w !! lx = Some dx /\ kf_ready self dx) ->
  unmatched_det !! k = Some i -> results !! i = Some l -> heap w !! l = Some d ->
  l ∉ tracks w ->
  l ∈ ret /\
  exists d', heap w' !! l = Some d' /\
    tracking_id d' = Some (id_count w + Z.of_nat k + 1) /\
    age d' = Some 1 /\
    active d' = Some (if Qgtb (detection_score d) (det_th self) then 1 else 0).
Proof.
  intros Hrun Hres Hun Hvalid Hk Hi Hd Hlive.
  assert (exists ls, Forall2 (fun i l => results !! i = Some l) unmatched_det ls) as [ls Hls].
  { clear -Hvalid. induction unmatched_det as [|x rest IH].
    - exists []. constructor.
    - destruct IH as [ls Hls]. { intros y Hy. apply Hvalid, elem_of_cons. auto. }
      destruct (Hvalid x) as (lx & _ & Hx & _); [apply elem_of_cons; auto|].
      exists (lx :: ls). by constructor. }
  assert (Hlk : ls !! k = Some l).
  { destruct (Forall2_lookup_l _ _ _ _ _ Hls Hk) as (l' & Hl' & Hil'). congruence. }
  assert (Hready : forall l0, l0 ∈ ls -> exists d0, heap w !! l0 = Some d0 /\ kf_ready self d0).
  { intros l0 Hl0. apply list_elem_of_lookup in Hl0 as [j Hj].
    destruct (Forall2_lookup_r _ _ _ _ _ Hls Hj) as (x & Hx & Hrx).
    apply list_elem_of_lookup_2 in Hx.
    destruct (Hvalid x Hx) as (lx & dx & Hlx & Hdx & Hkx).
    assert (lx = l0) as -> by congruence. eauto. }
  pose proof (wp_run _ _ _ _ _
    (update_tracks_births self results matched unmatched_trk unmatched_det ls w Hls Hready)
    Hrun) as Hborn.
  apply (Hborn ret eq_refl k l d Hlk); [|done|done].
  apply NoDup_last; [|done].
  exact (NoDup_unmatched_locs results unmatched_det ls Hres Hun Hls).
Qed.

(** X23.  Births of the update.  Take a world as [step_centertrack]
    has it before the update (live tracks with their keys, detections
    with their centre in filter mode) and an outcome of the assignment
    stage, in pair form, whose indices exist.  Then the update of
    lines 251-327 returns, and every unmatched detection whose
    dictionary is not itself a live track is in the result with the
    next identity in line (the counter plus its rank among the
    unmatched detections), age 1, and activity 1 if its score is above
    the detection threshold, 0 otherwise. *)
Theorem unmatched_detection_is_born self results pairs unmatched_trk unmatched_det
    w k i l d :
  ready_world self (tracks w) results w ->
  (forall p, p ∈ pairs -> (p.1 < length results)%nat /\ (p.2 < length (tracks w))%nat) ->
  (forall x, x ∈ unmatched_det -> (x < length results)%nat) ->
  (forall x, x ∈ unmatched_trk -> (x < length (tracks w))%nat) ->
  NoDup results -> NoDup unmatched_det ->
  unmatched_det !! k = Some i -> results !! i = Some l -> heap w !! l = Some d ->
  l ∉ tracks w ->
  exists ret w',
    update_tracks self results (PairArray pairs, unmatched_trk, unmatched_det) w
      = (Ok ret, w') /\
    l ∈ ret /\
    exists d', heap w' !! l = Some d' /\
      tracking_id d' = Some (id_count w + Z.of_nat k + 1) /\
      age d' = Some 1 /\
      active d' = Some (if Qgtb (detection_score d) (det_th self) then 1 else 0).
Proof.
  intros Hrw Hpairs Hdet Htrk Hres Hun Hk Hi Hd Hlive.
  pose proof (update_tracks_total self results pairs unmatched_trk unmatched_det w
                Hrw Hpairs Hdet Htrk) as Hok.
  destruct (update_tracks self results (PairArray pairs, unmatched_trk, unmatched_det) w)
    as [[ret|e] w'] eqn:Hrun; [|done].
  exists ret, w'. split; [done|].
  apply (births_of_completed_update self results (PairArray pairs) unmatched_trk
           unmatched_det w ret w' k i l d); try done.
  intros x Hx. destruct (lookup_lt_is_Some_2 results x (Hdet x Hx)) as [lx Hlx].
  destruct (proj2 (proj2 Hrw) lx) as (dx & Hdx & Hkx); [by eapply list_elem_of_lookup_2|].
  eauto.
Qed.

(** C7.  A frame met with a live track gives birth to nothing.  The
    call ends in an exception before the update of lines 251-327, the
    identity counter is what it was, and every detection of the frame
    has the identity, age and activity it came with: a detection that
    arrives without them leaves without them, matched or not. *)
Theorem live_track_blocks_births self results time_lag w :
  tracks w <> [] -> results <> [] ->
  is_ok (step_centertrack self results time_lag w).1 = false /\
  id_count (step_centertrack self results time_lag w).2 = id_count w /\
  tracks (step_centertrack self results time_lag w).2 = tracks w /\
  forall l d, l ∈ results -> heap w !! l = Some d ->
    exists d', heap (step_centertrack self results time_lag w).2 !! l = Some d' /\
      tracking_id d' = tracking_id d /\ age d' = age d /\ active d' = active d.
Proof.
  intros Htr Hres.
  destruct (step_live_frame self results time_lag w Hres Htr) as (Hok & [Hid Hts] & Hrel & _).
  split_and!; [done|done|done|].
  intros l d _ Hd. specialize (Hrel l). rewrite Hd in Hrel.
  destruct Hrel as (d' & Hd' & d1 & Hext & Hkf).
  apply ext_step_fields in Hext as (_ & _ & _ & Hi1 & Ha1 & Hc1 & _).
  apply kf_step_fields in Hkf as (_ & _ & _ & Hi2 & Ha2 & Hc2 & _).
  exists d'. split; [done|]. split_and!; congruence.
Qed.

End Claims.

(** * The claims on a scene

    One car at the origin, one car ten metres away, one animal; a
    nuScenes tracker with the default arguments. *)

Section Examples.
#[local] Existing Instance toy_library.

Lemma Qsqrt_floor_nonneg x : (0 <= Qsqrt_floor x)%Q.
Proof.
  unfold Qsqrt_floor, Qle. simpl.
  pose proof (Z.sqrt_nonneg (Qnum x * Z.pos (Qden x))). lia.
Qed.

Lemma one_track_point :
  one_track point_tracker = mk_world 1 [0%nat] (<[0%nat := live_car]> scene).
Proof. by vm_compute. Qed.

Lemma untracked_frame_raises_witness :
  tracks (one_track point_tracker) = [0%nat] /\
  is_ok (step_centertrack point_tracker [2%nat] (1#2) (one_track point_tracker)).1 = false /\
  tracks (step_centertrack point_tracker [2%nat] (1#2) (one_track point_tracker)).2
    = [0%nat] /\
  (step_centertrack point_tracker [2%nat] (1#2) (one_track point_tracker)).1
    = Raise IndexError.
Proof.
  destruct (untracked_frame_raises point_tracker [2%nat] (1#2) (one_track point_tracker))
    as (Hok & Hts & Hexn).
  - by vm_compute.
  - done.
  - intros l Hl. apply list_elem_of_singleton in Hl as ->. by vm_compute.
  - split_and!; [by vm_compute|exact Hok|exact Hts|].
    apply Hexn; [done|by eexists|].
    intros l Hl. apply list_elem_of_singleton in Hl as ->. vm_compute. eauto.
Defined.

Lemma optimal_tail_gated_witness :
  [0%nat; 0%nat] ∈ items (PairArray [(0, 0)%nat]) /\
  gated optimal_tracker [live_car] [seen_car 1] [(0, 0)%Q] [(1#2, 0)%Q] 0 0.
Proof.
  assert (Hin : [0%nat; 0%nat] ∈ items (PairArray [(0, 0)%nat]))
    by (by apply list_elem_of_singleton).
  split; [exact Hin|].
  eapply (optimal_tail_gated optimal_tracker [live_car] [seen_car 1]
            [(0, 0)%Q] [(1#2, 0)%Q] _ [(0, 0)%nat] (PairArray [(0, 0)%nat]) [] []).
  - apply Qsqrt_floor_nonneg.
  - done.
  - done.
  - done.
  - by vm_compute.
  - by vm_compute.
  - exact Hin.
Defined.


(** C3.  One live car and one detected car out of its reach, optimal
    mode.  The call raises at line 77.  Were the solver's tuple put in
    pair form by [reshape] first, lines 77-90 would return no match,
    no unmatched track and one unmatched detection: the cut of lines
    82-86 hands the detection of the discarded pair back and forgets
    its track, so matches and unmatched tracks count 0 where there is
    1 track. *)
Example optimal_mode_loses_track :
  length [live_car] = 1%nat /\
  comparing_positions optimal_tracker [live_car] [seen_car 10] [(0, 0)%Q] [(19#2, 0)%Q]
    = Raise TypeError /\
  (dist ← gated_costs optimal_tracker [live_car] [seen_car 10] [(0, 0)%Q] [(19#2, 0)%Q];
   reshape (linear_sum_assignment dist)) = Ok [(0, 0)%nat] /\
  (dist ← gated_costs optimal_tracker [live_car] [seen_car 10] [(0, 0)%Q] [(19#2, 0)%Q];
   unmatched_and_matches optimal_tracker (Some dist) (PairArray [(0, 0)%nat])
     [(0, 0)%Q] [(19#2, 0)%Q]) = Ok (PairArray [], [], [0%nat]).
Proof. by vm_compute. Qed.

Lemma comparing_positions_never_returns_witness :
  [(0, 0)%Q] <> [] /\
  is_ok (comparing_positions point_tracker [live_car] [seen_car 10]
           [(0, 0)%Q] [(19#2, 0)%Q]) = false.
Proof.
  split; [done|]. by apply comparing_positions_never_returns.
Defined.

(** C8.  With no track the assignment stage returns without a call to
    a solver.  With one live track and a frame that holds only an
    animal, so no admissible detection, the frame ends in an
    exception: in point mode at [results[0]], in filter mode inside
    [greedy_assignment], which is called on the 0 x 1 matrix, or in
    optimal mode at line 77, after [linear_sum_assignment] was
    called. *)
Example degenerate_frame_raises :
  comparing_positions point_tracker [] [seen_car 10] [] [(19#2, 0)%Q]
    = Ok (PairArray [], [], [0%nat]) /\
  tracks (one_track point_tracker) = [0%nat] /\
  (step_centertrack point_tracker [2%nat] (1#2) (one_track point_tracker)).1
    = Raise IndexError /\
  tracks (one_track filter_tracker) = [0%nat] /\
  (step_centertrack filter_tracker [2%nat] (1#2) (one_track filter_tracker)).1
    = Raise NotImplementedError /\
  tracks (one_track optimal_filter_tracker) = [0%nat] /\
  (step_centertrack optimal_filter_tracker [2%nat] (1#2)
     (one_track optimal_filter_tracker)).1 = Raise TypeError.
Proof. by vm_compute. Qed.

(** A frame half a second back in time is processed like any other. *)
Lemma negative_time_lag_not_rejected :
  (-(1#2) < 0)%Q /\
  (step_centertrack point_tracker [0%nat] (-(1#2)) fresh).1 = Ok [0%nat] /\
  tracks (step_centertrack point_tracker [0%nat] (-(1#2)) fresh).2 = [0%nat] /\
  (age <$> heap (step_centertrack point_tracker [0%nat] (-(1#2)) fresh).2 !! 0%nat)
    = Some (Some 1).
Proof. by vm_compute. Qed.

Lemma negative_time_lag_processed_witness :
  (step_centertrack point_tracker [0%nat; 2%nat] (-(1#2)) fresh).1 = Ok [0%nat] /\
  tracks (step_centertrack point_tracker [0%nat; 2%nat] (-(1#2)) fresh).2 = [0%nat].
Proof.
  apply (negative_time_lag_processed point_tracker [0%nat; 2%nat] (-(1#2)) fresh).
  - done.
  - done.
  - by eexists.
  - intros l Hl. apply elem_of_cons in Hl as [->|Hl]; [vm_compute; eauto|].
    apply list_elem_of_singleton in Hl as ->. vm_compute. eauto.
Defined.

(** The youngest track of a tracker built with [max_age = 0] is
    returned with age 1. *)
Lemma age_above_max_age :
  max_age brief_tracker = 0 /\
  (step_centertrack brief_tracker [0%nat] (1#2) fresh).1 = Ok [0%nat] /\
  (age <$> heap (step_centertrack brief_tracker [0%nat] (1#2) fresh).2 !! 0%nat)
    = Some (Some 1) /\
  ~ 1 <= max_age brief_tracker.
Proof. vm_compute. split_and!; [done|done|done|]. intros Hle. by apply Hle. Qed.

Lemma emitted_ages_bounded_witness :
  step_centertrack point_tracker [0%nat] (1#2) fresh
    = (Ok [0%nat], one_track point_tracker) /\
  (exists d a, heap (one_track point_tracker) !! 0%nat = Some d /\
               age d = Some a /\ a <= Z.max 1 (max_age point_tracker)) /\
  (add_stale point_tracker [] 0
     (mk_world 1 [0%nat] (<[0%nat := set_age 6 live_car]> scene))).1 = Ok [].
Proof.
  assert (Hrun : step_centertrack point_tracker [0%nat] (1#2) fresh
                 = (Ok [0%nat], one_track point_tracker)) by (by vm_compute).
  destruct (emitted_ages_bounded point_tracker [0%nat] (1#2) fresh [0%nat]
              (one_track point_tracker) Hrun) as [Hage Hdrop].
  split; [exact Hrun|]. split.
  - apply Hage. by apply list_elem_of_singleton.
  - apply (Hdrop [] 0%nat 0%nat (set_age 6 live_car) 6).
    + done.
    + by vm_compute.
    + done.
    + left. by vm_compute.
Defined.

(** A tracker with [max_age = 1] after one frame: the car's track has
    age 1, its greatest allowed age.  A second car, out of reach,
    follows. *)
Lemma old_track_is_not_removed_witness :
  max_age (nuscenes_tracker false 1 None) <= 1 /\
  tracks (one_track (nuscenes_tracker false 1 None)) = [0%nat] /\
  heap (one_track (nuscenes_tracker false 1 None)) !! 0%nat = Some live_car /\
  is_ok (step_centertrack (nuscenes_tracker false 1 None) [1%nat] (1#2)
           (one_track (nuscenes_tracker false 1 None))).1 = false /\
  0%nat ∈ tracks (step_centertrack (nuscenes_tracker false 1 None) [1%nat] (1#2)
                    (one_track (nuscenes_tracker false 1 None))).2 /\
  exists d',
    heap (step_centertrack (nuscenes_tracker false 1 None) [1%nat] (1#2)
            (one_track (nuscenes_tracker false 1 None))).2 !! 0%nat = Some d' /\
    age d' = Some 1 /\ detection_score d' = detection_score live_car.
Proof.
  assert (Hage : max_age (nuscenes_tracker false 1 None) <= 1) by (by vm_compute).
  assert (Hts : tracks (one_track (nuscenes_tracker false 1 None)) = [0%nat])
    by (by vm_compute).
  assert (Hd : heap (one_track (nuscenes_tracker false 1 None)) !! 0%nat = Some live_car)
    by (by vm_compute).
  split; [exact Hage|]. split; [exact Hts|]. split; [exact Hd|].
  apply (old_track_is_not_removed (nuscenes_tracker false 1 None) [1%nat] (1#2)
           (one_track (nuscenes_tracker false 1 None)) 0%nat live_car 1).
  - done.
  - rewrite Hts. by apply list_elem_of_singleton.
  - exact Hd.
  - done.
  - left. exact Hage.
Defined.

Lemma identities_unique_and_fresh_witness :
  session point_tracker fresh /\ NoDup [1%nat; 0%nat] /\
  identities_ok fresh /\
  identities_ok (step_centertrack point_tracker [1%nat; 0%nat] (1#2) fresh).2 /\
  id_count fresh <= id_count (step_centertrack point_tracker [1%nat; 0%nat] (1#2) fresh).2 /\
  forall l i,
    l ∈ tracks (step_centertrack point_tracker [1%nat; 0%nat] (1#2) fresh).2 ->
    live_id (step_centertrack point_tracker [1%nat; 0%nat] (1#2) fresh).2 l i ->
    id_count fresh < i <= id_count (step_centertrack point_tracker [1%nat; 0%nat] (1#2) fresh).2
    \/ (l ∈ tracks fresh /\ live_id fresh l i).
Proof.
  assert (Hs : session point_tracker fresh) by apply session_start.
  assert (Hnd : NoDup [1%nat; 0%nat]).
  { apply NoDup_cons. split; [by intros ?%list_elem_of_singleton|apply NoDup_singleton]. }
  split; [exact Hs|]. split; [exact Hnd|].
  exact (identities_unique_and_fresh point_tracker fresh [1%nat; 0%nat] (1#2) Hs Hnd).
Defined.

Lemma unmatched_detection_is_born_witness :
  tracks (one_track point_tracker) = [0%nat] /\ id_count (one_track point_tracker) = 1 /\
  exists ret w',
    update_tracks point_tracker [1%nat] (PairArray [], [0%nat], [0%nat])
      (one_track point_tracker) = (Ok ret, w') /\
    1%nat ∈ ret /\
    exists d', heap w' !! 1%nat = Some d' /\
      tracking_id d' = Some (id_count (one_track point_tracker) + Z.of_nat 0 + 1) /\
      age d' = Some 1 /\
      active d' = Some (if Qgtb (detection_score (detection "car" 10 0 (1#2)))
                                (det_th point_tracker)
                        then 1 else 0).
Proof.
  split; [by vm_compute|]. split; [by vm_compute|].
  apply (unmatched_detection_is_born point_tracker [1%nat] [] [0%nat] [0%nat]
           (one_track point_tracker) 0%nat 0%nat 1%nat (detection "car" 10 0 (1#2))).
  - split_and!; [done| |].
    + intros l Hl. apply list_elem_of_singleton in Hl as ->.
      eexists. split; [by vm_compute|]. split_and!; simpl; eauto. done.
    + intros l Hl. apply list_elem_of_singleton in Hl as ->.
      eexists. split; [by vm_compute|]. done.
  - intros p Hp. by apply elem_of_nil in Hp.
  - intros x Hx. apply list_elem_of_singleton in Hx as ->. simpl. lia.
  - intros x Hx. apply list_elem_of_singleton in Hx as ->. apply Nat.ltb_lt. by vm_compute.
  - apply NoDup_singleton.
  - apply NoDup_singleton.
  - done.
  - done.
  - by vm_compute.
  - vm_compute. by intros ?%list_elem_of_singleton.
Defined.

(** One live car, and a frame holding the second car, ten metres
    away and so out of reach of the first. *)
Lemma live_track_blocks_births_witness :
  tracks (one_track point_tracker) = [0%nat] /\
  heap (one_track point_tracker) !! 1%nat = Some (detection "car" 10 0 (1#2)) /\
  tracking_id (detection "car" 10 0 (1#2)) = None /\
  is_ok (step_centertrack point_tracker [1%nat] (1#2) (one_track point_tracker)).1 = false /\
  id_count (step_centertrack point_tracker [1%nat] (1#2) (one_track point_tracker)).2
    = id_count (one_track point_tracker) /\
  tracks (step_centertrack point_tracker [1%nat] (1#2) (one_track point_tracker)).2
    = tracks (one_track point_tracker) /\
  forall l d, l ∈ [1%nat] -> heap (one_track point_tracker) !! l = Some d ->
    exists d',
      heap (step_centertrack point_tracker [1%nat] (1#2) (one_track point_tracker)).2 !! l
        = Some d' /\
      tracking_id d' = tracking_id d /\ age d' = age d /\ active d' = active d.
Proof.
  split; [by vm_compute|]. split; [by vm_compute|]. split; [done|].
  apply (live_track_blocks_births point_tracker [1%nat] (1#2) (one_track point_tracker)).
  - by vm_compute.
  - done.
Defined.

(** The caller's dictionary for the first car, after one frame: two
    keys of the class filter and three of the birth are new, and
    [label_preds] and [tracking_id] are among them. *)
Lemma detection_record_changed :
  heap fresh !! 0%nat = Some (detection "car" 0 0 (1#2)) /\
  heap (step_centertrack point_tracker [0%nat] (1#2) fresh).2 !! 0%nat = Some live_car /\
  label_preds live_car = Some 2%nat /\ tracking_id live_car = Some 1 /\
  live_car <> detection "car" 0 0 (1#2).
Proof. split_and!; [by vm_compute|by vm_compute|done|done|]. intros [=]. Qed.

Lemma detections_extended_in_place_witness :
  heap fresh !! 0%nat = Some (detection "car" 0 0 (1#2)) /\
  exists d',
    heap (step_centertrack point_tracker [0%nat; 2%nat] (1#2) fresh).2 !! 0%nat = Some d' /\
    keeps_keys (detection "car" 0 0 (1#2)) d' /\
    translation d' = translation (detection "car" 0 0 (1#2)) /\
    velocity d' = velocity (detection "car" 0 0 (1#2)) /\
    detection_score d' = detection_score (detection "car" 0 0 (1#2)) /\
    (tracked point_tracker (detection "car" 0 0 (1#2)) = false ->
     0%nat ∉ tracks fresh -> d' = detection "car" 0 0 (1#2)) /\
    ((forall x, x ∈ [0%nat; 2%nat] -> is_Some (heap fresh !! x)) ->
     0%nat ∈ [0%nat; 2%nat] -> tracked point_tracker (detection "car" 0 0 (1#2)) = true ->
     ct d' = Some (first2 (translation (detection "car" 0 0 (1#2)))) /\
     is_Some (label_preds d') /\
     (tracker point_tracker = PointTracker ->
      tracking d'
        = Some (scale (scale (first2 (velocity (detection "car" 0 0 (1#2)))) (-1)%Q)
                  (1#2)))) /\
    (forall ret, (step_centertrack point_tracker [0%nat; 2%nat] (1#2) fresh).1 = Ok ret ->
       (forall x, x ∈ ret -> x ∈ [0%nat; 2%nat]) /\
       (0%nat ∈ ret ->
        is_Some (tracking_id d') /\ age d' = Some 1 /\
        active d' = Some (min_hits point_tracker) /\
        (tracker point_tracker = KF -> is_Some (kf d')))).
Proof.
  assert (Hd : heap fresh !! 0%nat = Some (detection "car" 0 0 (1#2))) by (by vm_compute).
  split; [exact Hd|].
  exact (detections_extended_in_place point_tracker [0%nat; 2%nat] (1#2) fresh 0%nat
           (detection "car" 0 0 (1#2)) Hd).
Defined.

End Examples.

(** * Further properties of the code *)

(** ** Comprehensions *)

Lemma rmap_ext {A B} (f g : A -> result B) l :
  (forall a, a ∈ l -> f a = g a) -> rmap f l = rmap g l.
Proof.
  induction l as [|a rest IH]; intros Hfg; [done|]. simpl.
  rewrite (Hfg a) by (apply elem_of_cons; auto).
  rewrite IH; [done|]. intros x Hx. apply Hfg, elem_of_cons. auto.
Qed.

Lemma rmap_fmap {A B C} (f : B -> result C) (g : A -> B) l :
  rmap f (g <$> l) = rmap (fun a => f (g a)) l.
Proof. induction l as [|a rest IH]; [done|]. cbn [fmap list_fmap rmap]. by rewrite <- IH. Qed.

Lemma rmap_total {A B} (f : A -> result B) l :
  (forall a, a ∈ l -> is_ok (f a) = true) -> exists bs, rmap f l = Ok bs.
Proof.
  induction l as [|a rest IH]; intros Hall; [by exists []|]. simpl.
  destruct (f a) as [b|e] eqn:Hfa.
  - destruct IH as [bs ->]; [intros x Hx; apply Hall, elem_of_cons; auto|].
    simpl. eauto.
  - specialize (Hall a ltac:(apply elem_of_cons; auto)). by rewrite Hfa in Hall.
Qed.

(** A comprehension whose body raises nothing but [e], and raises at
    some element, raises [e]. *)
Lemma rmap_raises {A B} (f : A -> result B) l e a :
  a ∈ l -> f a = Raise e ->
  (forall x e', x ∈ l -> f x = Raise e' -> e' = e) ->
  rmap f l = Raise e.
Proof.
  induction l as [|x rest IH]; intros Hin Hfa Hall; [by apply elem_of_nil in Hin|].
  simpl. destruct (f x) as [b|e'] eqn:Hfx; simpl.
  - apply elem_of_cons in Hin as [->|Hin]; [congruence|].
    rewrite IH; [done|done|done|].
    intros y e'' Hy. apply Hall, elem_of_cons. auto.
  - f_equal. eapply Hall; [|exact Hfx]. apply elem_of_cons. auto.
Qed.

Lemma rfilter_pure {A} (keep : A -> bool) (l : list A) :
  rfilter (fun a => Ok (keep a)) l = Ok (filter (fun a => keep a = true) l).
Proof.
  induction l as [|a rest IH]; [done|]. simpl. rewrite IH. simpl.
  destruct (keep a) eqn:Hk.
  - by rewrite filter_cons_True.
  - rewrite filter_cons_False; [done|]. by rewrite Hk.
Qed.

Section Reshape.

(** ** [reshape]

    The helper walks [range(len(hungarian[0]))] and reads both arrays
    at each index. *)

Lemma reshape_cons a (rows cols : list nat) :
  reshape (a :: rows, cols) =
  rbind (of_option (cols !! 0%nat) IndexError) (fun b =>
  rbind (reshape (rows, tail cols)) (fun ps => Ok ((a, b) :: ps))).
Proof.
  unfold reshape. cbn [fst snd length seq rmap lookup list_lookup of_option rbind].
  rewrite <- fmap_S_seq, rmap_fmap.
  destruct (cols !! 0%nat) as [b|]; [|done]. cbn [of_option rbind].
  f_equal. apply rmap_ext. intros i _. cbn [lookup list_lookup].
  by rewrite lookup_tail.
Qed.

(** X1.  When the second array is at least as long as the first,
    [reshape] returns one pair per entry of the first array, in order,
    and the columns of the result, read as line 77 and 78 read them,
    are the first array and the second cut to its length. *)
Theorem reshape_pairs_the_arrays (rows cols : list nat) :
  (length rows <= length cols)%nat ->
  reshape (rows, cols) = Ok (zip rows cols) /\
  column_of (PairArray (zip rows cols)) 0 = Ok rows /\
  column_of (PairArray (zip rows cols)) 1 = Ok (take (length rows) cols).
Proof.
  intros Hlen. split_and!.
  - revert cols Hlen. induction rows as [|a rows IH]; intros cols Hlen; [done|].
    destruct cols as [|b cols]; [simpl in Hlen; lia|].
    rewrite reshape_cons. simpl. rewrite IH by (simpl in Hlen; lia). done.
  - simpl. f_equal. by apply fst_zip.
  - simpl. f_equal. revert cols Hlen.
    induction rows as [|a rows IH]; intros cols Hlen; [done|].
    destruct cols as [|b cols]; [simpl in Hlen; lia|].
    simpl. f_equal. apply IH. simpl in Hlen. lia.
Qed.

(** X2.  When the second array is shorter than the first, [reshape]
    raises [IndexError]. *)
Theorem reshape_short_second_array (rows cols : list nat) :
  (length cols < length rows)%nat ->
  reshape (rows, cols) = Raise IndexError.
Proof.
  revert cols. induction rows as [|a rows IH]; intros cols Hlen; [simpl in Hlen; lia|].
  rewrite reshape_cons. destruct cols as [|b cols]; [done|].
  simpl. rewrite IH by (simpl in Hlen; lia). done.
Qed.

End Reshape.

Section Tail.
Context `{Library}.

(** ** Lines 77-90 on an assignment in index-pair form *)

(** The cost the cut of line 83 reads for a pair, and whether it
    discards the pair. *)
Definition costly (dist : array Q) (p : nat * nat) : bool :=
  Qgtb (cell dist p.1 p.2) sentinel_cut.

Definition in_range (dist : array Q) (p : nat * nat) : Prop :=
  (p.1 < nrows dist)%nat /\ (p.2 < ncols dist)%nat.

Lemma hungarian_filter_pairs dist (pairs : list (nat * nat)) acc u :
  (forall p, p ∈ pairs -> in_range dist p) ->
  hungarian_filter (Some dist) (map (fun p => [p.1; p.2]) pairs) acc u =
    Ok (acc ++ map (fun p => [p.1; p.2]) (filter (fun p => costly dist p = false) pairs),
        u ++ (filter (fun p => costly dist p = true) pairs).*1).
Proof.
  revert acc u. induction pairs as [|p pairs IH]; intros acc u Hrange.
  { simpl. by rewrite !app_nil_r. }
  destruct (Hrange p) as [Hr Hc]; [apply elem_of_cons; auto|].
  cbn [map hungarian_filter]. unfold mbind, result_bind, item, aget.
  cbn [lookup list_lookup of_option rbind].
  rewrite (proj2 (Nat.ltb_lt _ _) Hr), (proj2 (Nat.ltb_lt _ _) Hc). cbn [andb rbind].
  fold (costly dist p).
  destruct (costly dist p) eqn:Hcost.
  - rewrite IH by (intros q Hq; apply Hrange, elem_of_cons; auto).
    rewrite filter_cons_False by (by rewrite Hcost).
    rewrite filter_cons_True by done.
    cbn [fmap list_fmap]. by rewrite <- app_assoc.
  - rewrite IH by (intros q Hq; apply Hrange, elem_of_cons; auto).
    rewrite filter_cons_True by done.
    rewrite filter_cons_False by (by rewrite Hcost).
    cbn [map]. by rewrite <- app_assoc.
Qed.

Lemma unmatched_indices (col : list nat) (n : nat) :
  rfilter (fun d => col' ← Ok col; Ok (negb (bool_decide (d ∈ col')))) (seq 0 n) =
  Ok (filter (fun d => d ∉ col) (seq 0 n)).
Proof.
  unfold mbind, result_bind. cbn [rbind].
  rewrite (rfilter_pure (fun d => negb (bool_decide (d ∈ col)))).
  f_equal. apply list_filter_iff. intros d.
  rewrite negb_true_iff, bool_decide_eq_false. done.
Qed.

(** Lines 77-90 on an index-pair assignment, as two filters and, in
    optimal mode, the cut. *)
Lemma unmatched_and_matches_on_pairs self dist (pairs : list (nat * nat)) positions1 positions2 :
  (hungarian self = true -> forall p, p ∈ pairs -> in_range dist p) ->
  unmatched_and_matches self (Some dist) (PairArray pairs) positions1 positions2 =
    Ok (PairArray (if hungarian self
                   then filter (fun p => costly dist p = false) pairs
                   else pairs),
        filter (fun t => t ∉ pairs.*2) (seq 0 (length positions1)),
        filter (fun d => d ∉ pairs.*1) (seq 0 (length positions2)) ++
        (if hungarian self
         then (filter (fun p => costly dist p = true) pairs).*1
         else [])).
Proof.
  intros Hrange. unfold unmatched_and_matches. cbn [column_of Nat.eqb].
  rewrite (unmatched_indices (map (fun p : nat * nat => p.2) pairs)).
  unfold mbind at 1, result_bind at 1. cbn [rbind].
  rewrite (unmatched_indices (map (fun p : nat * nat => p.1) pairs)).
  unfold mbind at 1, result_bind at 1. cbn [rbind].
  destruct (hungarian self).
  - cbn [items]. rewrite hungarian_filter_pairs by auto.
    unfold mbind, result_bind. cbn [rbind app].
    rewrite reshape_pairs_rows. done.
  - by rewrite app_nil_r.
Qed.

(** X3.  What lines 77-90 return on an assignment in index-pair form.
    The unmatched tracks are the track indices that are in no pair,
    the unmatched detections the detection indices that are in no
    pair.  The greedy mode returns the pairs as they are.  The optimal
    mode keeps the pairs whose cost is not above [1e16], in their
    order, and appends the detection of every other pair to the
    unmatched detections; it adds nothing to the unmatched tracks. *)
Theorem tail_on_pairs self dist (pairs : list (nat * nat)) positions1 positions2 :
  (hungarian self = true -> forall p, p ∈ pairs -> in_range dist p) ->
  unmatched_and_matches self (Some dist) (PairArray pairs) positions1 positions2 =
    Ok (PairArray (if hungarian self
                   then filter (fun p => costly dist p = false) pairs
                   else pairs),
        filter (fun t => t ∉ pairs.*2) (seq 0 (length positions1)),
        filter (fun d => d ∉ pairs.*1) (seq 0 (length positions2)) ++
        (if hungarian self
         then (filter (fun p => costly dist p = true) pairs).*1
         else [])).
Proof.
  intros Hrange. unfold unmatched_and_matches. cbn [column_of Nat.eqb].
  rewrite (unmatched_indices (map (fun p : nat * nat => p.2) pairs)).
  unfold mbind at 1, result_bind at 1. cbn [rbind].
  rewrite (unmatched_indices (map (fun p : nat * nat => p.1) pairs)).
  unfold mbind at 1, result_bind at 1. cbn [rbind].
  destruct (hungarian self).
  - cbn [items]. rewrite hungarian_filter_pairs by auto.
    unfold mbind, result_bind. cbn [rbind app].
    rewrite reshape_pairs_rows. done.
  - by rewrite app_nil_r.
Qed.

Lemma length_filter_bool {A} (f : A -> bool) (l : list A) :
  (length (filter (fun a => f a = false) l) + length (filter (fun a => f a = true) l)
   = length l)%nat.
Proof.
  induction l as [|a l IH]; [done|]. destruct (f a) eqn:Hf.
  - rewrite filter_cons_False by (by rewrite Hf). rewrite filter_cons_True by done.
    simpl. lia.
  - rewrite filter_cons_True by done. rewrite filter_cons_False by (by rewrite Hf).
    simpl. lia.
Qed.

(** Of the indices below [n], those that are not in a duplicate-free
    list of such indices. *)
Lemma count_unmatched (col : list nat) (n : nat) :
  NoDup col -> (forall x, x ∈ col -> (x < n)%nat) ->
  (length (filter (fun d => d ∉ col) (seq 0 n)) + length col = n)%nat.
Proof.
  intros Hnd Hlt.
  pose proof (filter_app_complement (fun d => d ∈ col) (seq 0 n)) as Hperm.
  apply Permutation_length in Hperm. rewrite length_app, length_seq in Hperm.
  assert (Hcol : filter (fun d => d ∈ col) (seq 0 n) ≡ₚ col).
  { apply NoDup_Permutation; [apply NoDup_filter, NoDup_seq|done|].
    intros x. rewrite list_elem_of_filter, elem_of_seq. split; [by intros [? _]|].
    intros Hx. split; [done|]. specialize (Hlt x Hx). lia. }
  apply Permutation_length in Hcol. lia.
Qed.

Lemma NoDup_fst_inj {A B} (l : list (A * B)) p q :
  NoDup l.*1 -> p ∈ l -> q ∈ l -> p.1 = q.1 -> p = q.
Proof.
  induction l as [|x l IH]; intros Hnd Hp Hq Heq; [by apply elem_of_nil in Hp|].
  cbn [fmap list_fmap] in Hnd. apply NoDup_cons in Hnd as [Hx Hnd].
  apply elem_of_cons in Hp as [->|Hp]; apply elem_of_cons in Hq as [->|Hq]; auto.
  - exfalso. apply Hx. rewrite Heq. by apply list_elem_of_fmap_2.
  - exfalso. apply Hx. rewrite <- Heq. by apply list_elem_of_fmap_2.
Qed.

Lemma NoDup_snd_inj {A B} (l : list (A * B)) p q :
  NoDup l.*2 -> p ∈ l -> q ∈ l -> p.2 = q.2 -> p = q.
Proof.
  induction l as [|x l IH]; intros Hnd Hp Hq Heq; [by apply elem_of_nil in Hp|].
  cbn [fmap list_fmap] in Hnd. apply NoDup_cons in Hnd as [Hx Hnd].
  apply elem_of_cons in Hp as [->|Hp]; apply elem_of_cons in Hq as [->|Hq]; auto.
  - exfalso. apply Hx. rewrite Heq. by apply list_elem_of_fmap_2.
  - exfalso. apply Hx. rewrite <- Heq. by apply list_elem_of_fmap_2.
Qed.

(** X4.  On an assignment in index-pair form in which no detection and
    no track occurs twice, lines 77-90 split the detections exactly:
    every detection index is either in a returned match or in the
    unmatched detections, never both, and the two counts add up to the
    number of detections.  On the track side the returned matches and
    the unmatched tracks are disjoint, and they fall short of the
    number of tracks by the number of pairs the cut discarded: none in
    greedy mode. *)
Theorem tail_partition self dist (pairs : list (nat * nat)) positions1 positions2
    m u1 u2 :
  (hungarian self = true -> forall p, p ∈ pairs -> in_range dist p) ->
  NoDup pairs.*1 -> NoDup pairs.*2 ->
  (forall p, p ∈ pairs ->
     (p.1 < length positions2)%nat /\ (p.2 < length positions1)%nat) ->
  unmatched_and_matches self (Some dist) (PairArray pairs) positions1 positions2
    = Ok (m, u1, u2) ->
  exists matches, m = PairArray matches /\
    (length matches + length u2 = length positions2)%nat /\
    (forall d, (d < length positions2)%nat -> (d ∈ u2 <-> d ∉ matches.*1)) /\
    (length matches + length u1 + (length pairs - length matches)
     = length positions1)%nat /\
    (forall t, t ∈ u1 -> t ∉ matches.*2) /\
    (hungarian self = false -> matches = pairs).
Proof.
  intros Hrange Hnd1 Hnd2 Hlt Hrun.
  rewrite (unmatched_and_matches_on_pairs self dist pairs positions1 positions2 Hrange) in Hrun.
  injection Hrun as <- <- <-. eexists. split; [done|].
  pose proof (count_unmatched pairs.*1 (length positions2) Hnd1) as Hc2.
  pose proof (count_unmatched pairs.*2 (length positions1) Hnd2) as Hc1.
  rewrite length_fmap in Hc1, Hc2.
  specialize (Hc2 ltac:(intros x (p & -> & Hp)%list_elem_of_fmap; by apply Hlt)).
  specialize (Hc1 ltac:(intros x (p & -> & Hp)%list_elem_of_fmap; by apply Hlt)).
  pose proof (length_filter_bool (costly dist) pairs) as Hsplit.
  destruct (hungarian self).
  - split_and!.
    + rewrite length_app, length_fmap. lia.
    + intros d Hd. rewrite elem_of_app, list_elem_of_filter, elem_of_seq.
      split.
      * intros [[Hno _]|Hcut] (p & -> & Hp)%list_elem_of_fmap.
        -- apply Hno. apply list_elem_of_fmap_2.
           by apply list_elem_of_filter in Hp as [_ Hp].
        -- apply list_elem_of_fmap in Hcut as (q & Heq & Hq).
           apply list_elem_of_filter in Hp as [Hkeep Hp].
           apply list_elem_of_filter in Hq as [Hcost Hq].
           assert (p = q) as -> by (by apply (NoDup_fst_inj pairs)).
           congruence.
      * intros Hno. destruct (decide (d ∈ pairs.*1)) as [Hin|Hout].
        -- right. apply list_elem_of_fmap in Hin as (p & -> & Hp).
           apply list_elem_of_fmap_2. apply list_elem_of_filter. split; [|done].
           destruct (costly dist p) eqn:Hcost; [done|]. exfalso. apply Hno.
           apply list_elem_of_fmap_2. by apply list_elem_of_filter.
        -- left. split; [done|lia].
    + lia.
    + intros t [Hno _]%list_elem_of_filter (p & -> & Hp)%list_elem_of_fmap.
      apply Hno. apply list_elem_of_fmap_2.
      by apply list_elem_of_filter in Hp as [_ Hp].
    + done.
  - split_and!.
    + rewrite app_nil_r. lia.
    + intros d Hd. rewrite app_nil_r, list_elem_of_filter, elem_of_seq.
      split; [by intros [? _]|]. intros Hno. split; [done|lia].
    + lia.
    + by intros t [Hno _]%list_elem_of_filter.
    + done.
Qed.

(** X5.  In optimal mode, the track of a pair that the cut discards is
    reported nowhere: it is not among the unmatched tracks and not in
    a returned match, while the pair's detection is in the unmatched
    detections. *)
Theorem discarded_pair_loses_track self dist (pairs : list (nat * nat))
    positions1 positions2 m u1 u2 p :
  hungarian self = true ->
  (forall q, q ∈ pairs -> in_range dist q) ->
  NoDup pairs.*2 ->
  unmatched_and_matches self (Some dist) (PairArray pairs) positions1 positions2
    = Ok (m, u1, u2) ->
  p ∈ pairs -> (sentinel_cut < cell dist p.1 p.2)%Q ->
  p.1 ∈ u2 /\ (p.2 ∉ u1) /\
  forall d, [d; p.2] ∉ items m.
Proof.
  intros Hh Hrange Hnd2 Hrun Hp Hcost.
  rewrite (unmatched_and_matches_on_pairs self dist pairs positions1 positions2) in Hrun by auto.
  rewrite Hh in Hrun. injection Hrun as <- <- <-.
  assert (Hc : costly dist p = true) by (by apply Qgtb_lt).
  split_and!.
  - apply elem_of_app. right. apply list_elem_of_fmap_2.
    by apply list_elem_of_filter.
  - intros [Hno _]%list_elem_of_filter. apply Hno. by apply list_elem_of_fmap_2.
  - intros d Hin. cbn [items] in Hin.
    apply list_elem_of_fmap in Hin as (q & [= -> Heq] & Hq).
    apply list_elem_of_filter in Hq as [Hkeep Hq].
    assert (p = q) as -> by (by apply (NoDup_snd_inj pairs)).
    congruence.
Qed.

End Tail.

Section Cut.
Context `{Library}.

(** ** The cut of the optimal mode keeps what the gate admits *)

(** A cell of the capped cost matrix of lines 58-69. *)
Lemma gated_costs_cell self p1d p2d positions1 positions2 dist d t det trk p q ld lt table thr :
  length positions1 = length p1d -> length positions2 = length p2d ->
  gated_costs self p1d p2d positions1 positions2 = Ok dist ->
  p2d !! d = Some det -> p1d !! t = Some trk ->
  positions2 !! d = Some p -> positions1 !! t = Some q ->
  label_preds det = Some ld -> label_preds trk = Some lt ->
  velocity_error self = Some table -> dict_get (detection_name det) table = Some thr ->
  nrows dist = length positions2 /\ ncols dist = length positions1 /\
  cell dist d t =
    (let base := np_sqrt (sqdist q p) in
     let c := (base + (if Qgtb base thr || negb (ld =? lt)%nat then sentinel else 0))%Q in
     if Qgtb c sentinel then sentinel else c).
Proof.
  intros Hlen1 Hlen2 Hcost Hdet Htrk Hp Hq Hld Hlt Htable Hthr.
  unfold gated_costs, mbind, result_bind in Hcost.
  apply rbind_ok in Hcost as (cat1 & Hcat1 & Hcost).
  apply rbind_ok in Hcost as (cat2 & Hcat2 & Hcost).
  apply rbind_ok in Hcost as (max_diff & Hmax & Hcost).
  apply rbind_ok in Hcost as (dist0 & Hdist0 & Hcost).
  injection Hcost as <-.
  apply rmap_ok in Hcat1 as [Hl1 Hcat1]. apply rmap_ok in Hcat2 as [Hl2 Hcat2].
  apply rmap_ok in Hmax as [Hl3 Hmax].
  assert (Hd : (d < length positions2)%nat) by (by eapply lookup_lt_Some).
  assert (Ht : (t < length positions1)%nat) by (by eapply lookup_lt_Some).
  destruct (cost_matrix_cell cat1 cat2 max_diff positions1 positions2 dist0 d t)
    as (Hrows & Hcols & Hcell); [congruence|congruence|congruence|done|done|done|].
  destruct (Hcat2 d det Hdet) as (c2 & Hc2 & Hlab2).
  destruct (Hcat1 t trk Htrk) as (c1 & Hc1 & Hlab1).
  destruct (Hmax d det Hdet) as (thr' & Hthr' & Htab).
  rewrite Hld in Hlab2. rewrite Hlt in Hlab1. simpl in Hlab1, Hlab2.
  injection Hlab1 as <-. injection Hlab2 as <-.
  unfold mbind, result_bind in Htab. rewrite Htable in Htab. simpl in Htab.
  rewrite Hthr in Htab. simpl in Htab. injection Htab as <-.
  split_and!; [done|done|]. simpl. rewrite Hcell.
  by rewrite (nth_lookup_Some _ _ _ _ Hp), (nth_lookup_Some _ _ _ _ Hq),
    (nth_lookup_Some _ _ _ _ Hthr'), (nth_lookup_Some _ _ _ _ Hc2),
    (nth_lookup_Some _ _ _ _ Hc1).
Qed.

(** X6.  In optimal mode, a pair handed over by the solver stage that
    satisfies the gate (same class label, distance at most the
    detection class's threshold) is returned as a match, provided the
    threshold is not above the cut of [1e16]. *)
Theorem gated_pair_is_kept self p1d p2d positions1 positions2 dist
    (pairs : list (nat * nat)) m u1 u2 d t :
  hungarian self = true ->
  length positions1 = length p1d -> length positions2 = length p2d ->
  (forall table n thr, velocity_error self = Some table ->
     dict_get n table = Some thr -> (thr <= sentinel_cut)%Q) ->
  gated_costs self p1d p2d positions1 positions2 = Ok dist ->
  (forall p, p ∈ pairs ->
     (p.1 < length positions2)%nat /\ (p.2 < length positions1)%nat) ->
  unmatched_and_matches self (Some dist) (PairArray pairs) positions1 positions2
    = Ok (m, u1, u2) ->
  (d, t) ∈ pairs ->
  gated self p1d p2d positions1 positions2 d t ->
  [d; t] ∈ items m.
Proof.
  intros Hh Hlen1 Hlen2 Hthrs Hcost Hlt Hrun Hin
    (det & trk & p & q & table & thr & Hdet & Htrk & Hp & Hq & [ld Hld] & Hsame &
     Htable & Hthr & Hnear).
  assert (Hlt' : label_preds trk = Some ld) by congruence.
  destruct (gated_costs_cell self p1d p2d positions1 positions2 dist d t det trk p q
              ld ld table thr) as (Hrows & Hcols & Hcell); try done.
  rewrite (unmatched_and_matches_on_pairs self dist pairs positions1 positions2) in Hrun.
  2:{ intros _ x Hx. unfold in_range. rewrite Hrows, Hcols. by apply Hlt. }
  rewrite Hh in Hrun. injection Hrun as <- <- <-.
  cbn [items]. apply (list_elem_of_fmap_2 (fun x : nat * nat => [x.1; x.2]) _ (d, t)).
  apply list_elem_of_filter. split; [|done].
  unfold costly. cbn [fst snd]. rewrite Hcell. cbv zeta.
  rewrite Nat.eqb_refl. cbn [negb].
  rewrite (proj2 (Qgtb_le _ _) Hnear). cbn [orb].
  pose proof (Hthrs table _ thr Htable Hthr) as Hsmall.
  pose proof sentinel_above_cut as Hsc.
  set (base := np_sqrt (sqdist q p)) in *.
  destruct (Qgtb (base + 0) sentinel) eqn:Hcap.
  - apply Qgtb_lt in Hcap. lra.
  - apply Qgtb_le. lra.
Qed.

End Cut.

Section Exceptions.
Context `{Library}.

(** ** What [comparing_positions] does on its inputs *)

(** The dictionaries have their class label, and the detections a
    threshold for their class. *)
Definition labelled (ds : list det) : Prop :=
  forall d, d ∈ ds -> is_Some (label_preds d).

Definition has_threshold (self : PubTracker) (ds : list det) : Prop :=
  forall d, d ∈ ds ->
    exists table, velocity_error self = Some table /\
                  is_Some (dict_get (detection_name d) table).

Lemma labels_read (ds : list det) :
  labelled ds ->
  exists cat, rmap (fun index => of_option (label_preds index) KeyError) ds = Ok cat /\
              length cat = length ds.
Proof.
  intros Hl. destruct (rmap_total (fun index => of_option (label_preds index) KeyError) ds)
    as [cat Hcat].
  - intros d Hd. by destruct (Hl d Hd) as [? ->].
  - exists cat. split; [done|]. by apply rmap_ok in Hcat as [? _].
Qed.

Lemma thresholds_read self (ds : list det) :
  has_threshold self ds ->
  exists max_diff,
    rmap (fun box => table ← of_option (velocity_error self) AttributeError;
                     of_option (dict_get (detection_name box) table) KeyError) ds
      = Ok max_diff /\
    length max_diff = length ds.
Proof.
  intros Ht. destruct (rmap_total
    (fun box => table ← of_option (velocity_error self) AttributeError;
                of_option (dict_get (detection_name box) table) KeyError) ds) as [md Hmd].
  - intros d Hd. destruct (Ht d Hd) as (table & -> & [thr Hthr]).
    unfold mbind, result_bind. simpl. by rewrite Hthr.
  - exists md. split; [done|]. by apply rmap_ok in Hmd as [? _].
Qed.

(** X7.  With no track, the assignment stage returns no match, no
    unmatched track and every detection index as unmatched, in both
    modes and without a call to a solver: the optimal mode's loop over
    the empty assignment never reads the cost matrix, which does not
    exist. *)
Theorem no_track_all_unmatched self p2d positions2 :
  labelled p2d -> has_threshold self p2d ->
  comparing_positions self [] p2d [] positions2
    = Ok (PairArray [], [], seq 0 (length positions2)).
Proof.
  intros Hl Ht. unfold comparing_positions.
  destruct (labels_read p2d Hl) as (cat2 & -> & _).
  destruct (thresholds_read self p2d Ht) as (md & -> & _).
  cbn. unfold unmatched_and_matches. cbn.
  rewrite (rfilter_const true). cbn.
  by destruct (hungarian self).
Qed.

Lemma cost_matrix_shape cat1 cat2 max_diff positions1 positions2 :
  length cat1 = length positions1 -> length cat2 = length positions2 ->
  length max_diff = length positions2 ->
  is_ok (cost_matrix cat1 cat2 max_diff positions1 positions2) = true.
Proof.
  intros H1 H2 H3. unfold cost_matrix, broadcast, mbind, result_bind. simpl.
  rewrite H1, H2, H3.
  rewrite !bdim_same, !bdim_one_r, !bdim_one_l. simpl.
  rewrite !bdim_same. simpl. rewrite !bdim_same. simpl. done.
Qed.

(** X8.  With at least one track, on inputs as [step_centertrack]
    builds them (one position per dictionary, class labels and
    thresholds present), the exception of the assignment stage is
    [NotImplementedError] in greedy mode and [TypeError] in optimal
    mode. *)
Theorem assignment_stage_exception self p1d p2d positions1 positions2 :
  positions1 <> [] ->
  length positions1 = length p1d -> length positions2 = length p2d ->
  labelled p1d -> labelled p2d -> has_threshold self p2d ->
  comparing_positions self p1d p2d positions1 positions2
    = Raise (if hungarian self then TypeError else NotImplementedError).
Proof.
  intros Hne Hlen1 Hlen2 Hl1 Hl2 Ht. unfold comparing_positions.
  destruct (labels_read p1d Hl1) as (cat1 & -> & Hc1).
  destruct (labels_read p2d Hl2) as (cat2 & -> & Hc2).
  destruct (thresholds_read self p2d Ht) as (md & -> & Hmd).
  unfold mbind, result_bind. cbn [rbind].
  destruct positions1 as [|q positions1]; [done|]. cbn [length Nat.ltb Nat.leb].
  pose proof (cost_matrix_shape cat1 cat2 md (q :: positions1) positions2
                ltac:(congruence) ltac:(congruence) ltac:(congruence)) as Hok.
  destruct (cost_matrix _ _ _ _ _) as [dist|e]; [|done]. cbn [rbind].
  destruct (hungarian self); [|done]. cbn [rbind].
  unfold unmatched_and_matches. cbn [length seq].
  rewrite (rfilter_raise _ (0%nat :: seq 1 (length positions1)) TypeError); done.
Qed.

(** X9.  A track or a detection without the key ['label_preds'] makes
    the assignment stage raise [KeyError], whatever the mode and the
    positions: the labels are read before anything else. *)
Theorem missing_label_raises self p1d p2d positions1 positions2 d :
  (d ∈ p1d \/ (labelled p1d /\ d ∈ p2d)) -> label_preds d = None ->
  comparing_positions self p1d p2d positions1 positions2 = Raise KeyError.
Proof.
  intros Hin Hnone. unfold comparing_positions.
  assert (Hraise : forall ds, d ∈ ds ->
            rmap (fun index => of_option (label_preds index) KeyError) ds = Raise KeyError).
  { intros ds Hd. apply (rmap_raises _ ds KeyError d Hd); [by rewrite Hnone|].
    intros x e' _ Hx. destruct (label_preds x); [done|]. by injection Hx as <-. }
  destruct Hin as [Hd|[Hl1 Hd]].
  - by rewrite (Hraise p1d Hd).
  - destruct (labels_read p1d Hl1) as (cat1 & -> & _).
    unfold mbind, result_bind. cbn [rbind]. by rewrite (Hraise p2d Hd).
Qed.

End Exceptions.

Section Frames.
Context `{Library}.

(** ** Frames at the entry point *)

(** X10.  Once a track is alive, no non-empty frame is processed:
    whatever the frame holds, the call ends in an exception, and the
    identity counter and the track list are what they were. *)
Theorem live_tracker_takes_no_frame self results time_lag w :
  tracks w <> [] -> results <> [] ->
  is_ok (step_centertrack self results time_lag w).1 = false /\
  id_count (step_centertrack self results time_lag w).2 = id_count w /\
  tracks (step_centertrack self results time_lag w).2 = tracks w.
Proof.
  intros Htr Hres.
  by destruct (step_live_frame self results time_lag w Hres Htr) as (Hok & [Hid Hts] & _).
Qed.

Lemma born_extended_fields self time_lag idx n a d :
  tracking_id (born self n a (extended self time_lag idx d)) = Some n /\
  age (born self n a (extended self time_lag idx d)) = Some 1 /\
  active (born self n a (extended self time_lag idx d)) = Some a /\
  ct (born self n a (extended self time_lag idx d)) = Some (first2 (translation d)) /\
  detection_score (born self n a (extended self time_lag idx d)) = detection_score d /\
  (tracker self = PointTracker ->
   tracking (born self n a (extended self time_lag idx d))
     = Some (scale (scale (first2 (velocity d)) (-1)%Q) time_lag)) /\
  (tracker self = KF ->
   kf (born self n a (extended self time_lag idx d))
     = Some (KalmanFilter (use_vel self) (first2 (translation d)) (first2 (velocity d)))).
Proof. unfold born, extended. destruct (tracker self); simpl; split_and!; done. Qed.

(** The births of a frame met with no live track. *)
Lemma births_without_tracks self results time_lag w :
  tracks w = [] -> is_Some (tracking_names self) ->
  (forall l, l ∈ results -> is_Some (heap w !! l)) -> NoDup results ->
  exists ret w',
    step_centertrack self results time_lag w = (Ok ret, w') /\
    ret = filter (fun l => tracked_at self w l = true) results /\
    tracks w' = ret /\
    id_count w' = id_count w + Z.of_nat (length ret) /\
    forall k l d, ret !! k = Some l -> heap w !! l = Some d ->
      exists idx,
        heap w' !! l
          = Some (born self (id_count w + Z.of_nat k + 1) (min_hits self)
                    (extended self time_lag idx d)).
Proof.
  intros Htr [names Hn] Hrefs Hnd.
  destruct results as [|r0 results].
  { exists [], (mk_world (id_count w) [] (heap w)). simpl.
    split_and!; try done; try lia. }
  pose proof (step_first_frame self (r0 :: results) time_lag w ltac:(done) Htr) as Hwp.
  unfold wp in Hwp.
  destruct (step_centertrack self (r0 :: results) time_lag w) as [[ret|e] w'];
    simpl in Hwp.
  - destruct Hwp as (Hret & Hts & Hid & _ & Hexact).
    exists ret, w'. split_and!; try done.
    intros k l d Hk Hd.
    assert (Hndret : NoDup ret) by (subst ret; by apply NoDup_filter).
    exact (Hexact k l d Hk (NoDup_last _ _ _ Hndret Hk) Hd).
  - exfalso. destruct Hwp as (_ & _ & [[_ Hnone]|(_ & l & Hl & Hnone)]).
    + congruence.
    + destruct (Hrefs l Hl). congruence.
Qed.

(** X11.  A frame met with no live track, on a tracker of a known
    dataset, gives birth to every detection of a tracked class, in the
    order of the frame.  The detection at place [k] of the result gets
    the identity [id_count + k + 1], age 1 and activity [min_hits],
    whatever its score; its centre is the first two coordinates of its
    translation; in point mode its offset is minus the velocity times
    [time_lag], in filter mode it gets a new filter built from centre
    and velocity.  The counter advances by the number of births. *)
Theorem first_frame_births self results time_lag w :
  tracks w = [] -> is_Some (tracking_names self) ->
  (forall l, l ∈ results -> is_Some (heap w !! l)) -> NoDup results ->
  exists ret w',
    step_centertrack self results time_lag w = (Ok ret, w') /\
    ret = filter (fun l => tracked_at self w l = true) results /\
    tracks w' = ret /\
    id_count w' = id_count w + Z.of_nat (length ret) /\
    forall k l d, ret !! k = Some l -> heap w !! l = Some d ->
      exists d', heap w' !! l = Some d' /\
        tracking_id d' = Some (id_count w + Z.of_nat k + 1) /\
        age d' = Some 1 /\ active d' = Some (min_hits self) /\
        ct d' = Some (first2 (translation d)) /\
        detection_score d' = detection_score d /\
        (tracker self = PointTracker ->
         tracking d' = Some (scale (scale (first2 (velocity d)) (-1)%Q) time_lag)) /\
        (tracker self = KF ->
         kf d' = Some (KalmanFilter (use_vel self) (first2 (translation d))
                         (first2 (velocity d)))).
Proof.
  intros Htr Hn Hrefs Hnd.
  destruct (births_without_tracks self results time_lag w Htr Hn Hrefs Hnd)
    as (ret & w' & Hrun & Hret & Hts & Hid & Hexact).
  exists ret, w'. split_and!; [exact Hrun|exact Hret|exact Hts|exact Hid|].
  intros k l d Hk Hd. destruct (Hexact k l d Hk Hd) as [idx Hd'].
  eexists. split; [exact Hd'|]. apply born_extended_fields.
Qed.

(** X12.  Whenever a frame is processed, the list that is returned is
    the list that is kept as [self.tracks]; the same holds of the
    update of lines 251-327 on its own, so the unmatched tracks that
    are kept are part of the output. *)
Theorem returned_tracks_are_retained self results time_lag matching w ret w' :
  step_centertrack self results time_lag w = (Ok ret, w') \/
  update_tracks self results matching w = (Ok ret, w') ->
  tracks w' = ret.
Proof.
  intros [Hrun|Hrun].
  - destruct results as [|r0 results].
    { simpl in Hrun. by injection Hrun as <- <-. }
    destruct (tracks w) as [|t0 ts] eqn:Hts.
    + pose proof (step_first_frame self (r0 :: results) time_lag w ltac:(done) Hts) as Hwp.
      unfold wp in Hwp. rewrite Hrun in Hwp. simpl in Hwp. by destruct Hwp as (_ & ? & _).
    + destruct (step_live_frame self (r0 :: results) time_lag w) as (Hok & _);
        [done|by rewrite Hts|].
      by rewrite Hrun in Hok.
  - unfold update_tracks in Hrun. destruct matching as [[matched unmatched_trk] unmatched_det].
    unfold mbind, M_bind in Hrun.
    destruct (foldM (add_match self results) [] (items matched) w) as [[r1|e] w1]; [|done].
    destruct (foldM (add_birth self results) r1 unmatched_det w1) as [[r2|e] w2]; [|done].
    destruct (foldM (add_stale self) r2 unmatched_trk w2) as [[r3|e] w3]; [|done].
    simpl in Hrun. by injection Hrun as <- <-.
Qed.

(** X13.  A tracker built for a dataset other than nuScenes and Waymo
    has no class table: every frame whose first detection exists
    raises [AttributeError] at the class test of line 166, and
    nothing is written. *)
Theorem unknown_dataset_raises self r0 results time_lag w :
  tracking_names self = None -> is_Some (heap w !! r0) ->
  step_centertrack self (r0 :: results) time_lag w = (Raise AttributeError, w).
Proof.
  intros Hn [d Hd].
  assert (Hfold : foldM (extend_detection self time_lag) [] (r0 :: results) w
                  = (Raise AttributeError, w)).
  { cbn [foldM]. unfold mbind, M_bind.
    by rewrite (extend_detection_no_names self time_lag [] r0 d w Hd Hn). }
  unfold step_centertrack. cbn [length Nat.eqb].
  unfold mbind at 1. unfold M_bind at 1. by rewrite Hfold.
Qed.

(** X14.  With a tracker name other than ['PointTracker'] and ['KF'],
    a non-empty frame met with a live track ends in
    [UnboundLocalError]: neither branch of lines 214-245 binds the
    position arrays that line 248 reads.  Counter and track list are
    kept. *)
Theorem unknown_tracker_raises self results time_lag w :
  tracker self = OtherTracker -> tracks w <> [] -> results <> [] ->
  is_Some (tracking_names self) ->
  (forall l, l ∈ results -> is_Some (heap w !! l)) ->
  (step_centertrack self results time_lag w).1 = Raise UnboundLocalError /\
  id_count (step_centertrack self results time_lag w).2 = id_count w /\
  tracks (step_centertrack self results time_lag w).2 = tracks w.
Proof.
  intros Hkind Htr Hres [names Hn] Hrefs.
  destruct (step_live_frame self results time_lag w Hres Htr) as (_ & [Hid Hts] & _).
  split_and!; [|done|done]. clear Hid Hts.
  unfold step_centertrack.
  destruct results as [|r0 results]; [done|]. cbn [length Nat.eqb].
  set (frame := r0 :: results) in *.
  unfold mbind at 1. unfold M_bind at 1.
  destruct (extend_loop self time_lag frame [] w) as ([_ Hts] & _ & Hout).
  destruct (foldM _ [] frame w) as [[temp|e] w1]; simpl in Hts, Hout |- *.
  - unfold mbind at 1. unfold M_bind at 1. unfold get_tracks at 1.
    rewrite Hts. destruct (tracks w) as [|t0 ts]; [done|]. cbn [length Nat.eqb].
    unfold predict_positions. rewrite Hkind. reflexivity.
  - exfalso. destruct Hout as [[_ Hnone]|(_ & l & Hl & Hnone)]; [congruence|].
    destruct (Hrefs l Hl). congruence.
Qed.

(** X15.  [reset] starts the identities again: on any tracker state,
    a reset followed by a frame gives the frame's tracked detections
    the identities 1, 2, ... in order, and the counter ends at their
    number. *)
Theorem reset_restarts_identities self results time_lag w :
  is_Some (tracking_names self) ->
  (forall l, l ∈ results -> is_Some (heap w !! l)) -> NoDup results ->
  exists ret w',
    (reset ;; step_centertrack self results time_lag) w = (Ok ret, w') /\
    ret = filter (fun l => tracked_at self w l = true) results /\
    tracks w' = ret /\
    id_count w' = Z.of_nat (length ret) /\
    forall k l, ret !! k = Some l ->
      exists d', heap w' !! l = Some d' /\ tracking_id d' = Some (Z.of_nat k + 1).
Proof.
  intros Hn Hrefs Hnd.
  destruct (births_without_tracks self results time_lag (mk_world 0 [] (heap w)))
    as (ret & w' & Hrun & Hret & Hts & Hid & Hfields); try done.
  exists ret, w'. split_and!.
  - exact Hrun.
  - exact Hret.
  - exact Hts.
  - simpl in Hid. lia.
  - intros k l Hk.
    assert (Hl : l ∈ results).
    { apply list_elem_of_lookup_2 in Hk. rewrite Hret in Hk.
      by apply list_elem_of_filter in Hk as [_ ?]. }
    destruct (Hrefs l Hl) as [d Hd].
    destruct (Hfields k l d Hk Hd) as (idx & Hd').
    eexists. split; [exact Hd'|]. rewrite born_tracking_id. simpl. f_equal; lia.
Qed.

(** X16.  An empty frame ends every track but keeps the counter: the
    tracked detections of the frame after it are all born anew, with
    identities that go on from the counter. *)
Theorem empty_frame_then_births self results time_lag time_lag' w :
  is_Some (tracking_names self) ->
  (forall l, l ∈ results -> is_Some (heap w !! l)) -> NoDup results ->
  exists ret w',
    (step_centertrack self [] time_lag ;; step_centertrack self results time_lag') w
      = (Ok ret, w') /\
    ret = filter (fun l => tracked_at self w l = true) results /\
    tracks w' = ret /\
    id_count w' = id_count w + Z.of_nat (length ret) /\
    forall k l, ret !! k = Some l ->
      exists d', heap w' !! l = Some d' /\
        tracking_id d' = Some (id_count w + Z.of_nat k + 1) /\ age d' = Some 1.
Proof.
  intros Hn Hrefs Hnd.
  destruct (births_without_tracks self results time_lag' (mk_world (id_count w) [] (heap w)))
    as (ret & w' & Hrun & Hret & Hts & Hid & Hfields); try done.
  exists ret, w'. split_and!; [exact Hrun|exact Hret|exact Hts|exact Hid|].
  intros k l Hk.
  assert (Hl : l ∈ results).
  { apply list_elem_of_lookup_2 in Hk. rewrite Hret in Hk.
    by apply list_elem_of_filter in Hk as [_ ?]. }
  destruct (Hrefs l Hl) as [d Hd].
  destruct (Hfields k l d Hk Hd) as (idx & Hd').
  eexists. split; [exact Hd'|].
  split; [apply born_tracking_id|exact (proj1 (proj2 (born_fields _ _ _ _)))].
Qed.

End Frames.

Section Update.
Context `{Library}.

(** ** The update of lines 251-327, one iteration at a time *)

(** What lines 258-267 and 319-323 write from the filter state. *)
Definition written_back (k : kalman) (d : det) : det :=
  set_velocity (mk_vec (kf_x k 2%nat) (kf_x k 3%nat) (vrest (velocity d)))
    (set_translation (mk_vec (kf_x k 0%nat) (kf_x k 1%nat) (vrest (translation d))) d).

Lemma write_back_eq track d k w :
  heap w !! track = Some d -> kf d = Some k ->
  write_back track w =
    (Ok tt, mk_world (id_count w) (tracks w) (<[track := written_back k d]> (heap w))).
Proof.
  intros Hd Hk. unfold write_back, field, mbind, M_bind, modify, load, lift. simpl.
  repeat progress (simpl; rewrite ?Hd, ?Hk, ?lookup_insert_eq, ?insert_insert_eq).
  done.
Qed.

(** The observation handed to the filter at line 255 or 257. *)
Definition observation (self : PubTracker) (d : det) (c : Q * Q) : list Q :=
  if use_vel self then [c.1; c.2; v0 (velocity d); v1 (velocity d)] else [c.1; c.2].

(** A detection [d] matched with the track [old], lines 252-268. *)
Definition matched (self : PubTracker) (old d : det) : det :=
  match tracking_id old, active old with
  | Some i, Some a =>
      let d1 := set_active (a + 1) (set_age 1 (set_tracking_id i d)) in
      match tracker self, kf old, ct d with
      | KF, Some k, Some c =>
          let k' := kf_update (observation self d c) k in
          written_back k' (set_kf k' d1)
      | _, _, _ => d1
      end
  | _, _ => d
  end.

Lemma add_match_eq self results ret m0 m1 l tl d old w :
  results !! m0 = Some l -> tracks w !! m1 = Some tl ->
  heap w !! l = Some d -> heap w !! tl = Some old ->
  is_Some (tracking_id old) -> is_Some (active old) ->
  (tracker self = KF -> is_Some (kf old) /\ is_Some (ct d)) ->
  (l = tl -> old = d) ->
  add_match self results ret [m0; m1] w =
    (Ok (ret ++ [l]),
     mk_world (id_count w) (tracks w) (<[l := matched self old d]> (heap w))).
Proof.
  intros Hm0 Hm1 Hd Hold [i Hi] [a Ha] Hkf Halias.
  unfold add_match, matched, item, list_item, field, load, modify, mbind, M_bind,
    get_tracks, lift.
  simpl. rewrite Hm0, Hm1. rewrite Hi, Ha.
  destruct (decide (l = tl)) as [<-|Hne].
  - rewrite (Halias eq_refl) in *. clear Halias Hold.
    destruct (tracker self) eqn:Htr.
    + repeat progress (simpl; rewrite ?Hm0, ?Hm1, ?Hd, ?Hi, ?Ha, ?lookup_insert_eq, ?insert_insert_eq).
      done.
    + destruct (Hkf eq_refl) as [[k Hk] [c Hc]]. rewrite Hk, Hc.
      repeat progress (simpl; rewrite ?Hm0, ?Hm1, ?Hd, ?Hi, ?Ha, ?Hk, ?Hc,
                         ?lookup_insert_eq, ?insert_insert_eq).
      unfold observation. destruct (use_vel self);
        repeat progress (simpl; rewrite ?lookup_insert_eq, ?insert_insert_eq);
        rewrite (write_back_eq l _ (kf_update _ k)) by (run_heap; done);
        run_heap; done.
    + repeat progress (simpl; rewrite ?Hm0, ?Hm1, ?Hd, ?Hi, ?Ha, ?lookup_insert_eq, ?insert_insert_eq).
      done.
  - destruct (tracker self) eqn:Htr.
    + repeat progress (simpl; rewrite ?lookup_insert_eq, ?insert_insert_eq,
                         ?Hm0, ?Hm1, ?Hd, ?Hold, ?Hi, ?Ha);
        rewrite ?lookup_insert_ne by exact Hne.
      repeat progress (simpl; rewrite ?lookup_insert_eq, ?insert_insert_eq,
                         ?Hm0, ?Hm1, ?Hd, ?Hold, ?Hi, ?Ha; rewrite ?lookup_insert_ne by exact Hne).
      done.
    + destruct (Hkf eq_refl) as [[k Hk] [c Hc]]. rewrite Hk, Hc.
      repeat progress (simpl; rewrite ?lookup_insert_eq, ?insert_insert_eq,
                         ?Hm0, ?Hm1, ?Hd, ?Hold, ?Hi, ?Ha, ?Hk, ?Hc;
                       rewrite ?lookup_insert_ne by exact Hne).
      unfold observation. destruct (use_vel self);
        repeat progress (simpl; rewrite ?lookup_insert_eq, ?insert_insert_eq);
        rewrite (write_back_eq l _ (kf_update _ k)) by (run_heap; done);
        run_heap; done.
    + repeat progress (simpl; rewrite ?lookup_insert_eq, ?insert_insert_eq,
                         ?Hm0, ?Hm1, ?Hd, ?Hold, ?Hi, ?Ha; rewrite ?lookup_insert_ne by exact Hne).
      done.
Qed.

(** Lines 302-303: the score decay of an unmatched track. *)
Definition decayed (self : PubTracker) (d : det) : det :=
  if score_update self
  then set_detection_score (detection_score d - noise self)%Q d
  else d.

(** Line 306: whether an unmatched track is kept. *)
Definition stays (self : PubTracker) (d : det) : bool :=
  match age d with
  | Some a => (a <? max_age self) && Qgtb (detection_score (decayed self d)) (del_th self)
  | None => false
  end.

(** Lines 307-323: an unmatched track that is kept. *)
Definition aged (self : PubTracker) (d : det) : det :=
  let d1 := decayed self d in
  match age d1, active d1, ct d1 with
  | Some a, Some act, Some c =>
      let d3 := set_active (if Qgtb (detection_score d1) (s_th self) then act + 1 else 0)
                  (set_age (a + 1) d1) in
      match tracking d3, kf d3 with
      | Some t, _ =>
          let c' := plus2 c (scale t (-1)%Q) in
          set_translation (set_first2 (translation d3) c') (set_ct c' d3)
      | None, Some k => written_back k d3
      | None, None => d3
      end
  | _, _, _ => d1
  end.

Lemma world_eta w : mk_world (id_count w) (tracks w) (heap w) = w.
Proof. by destruct w. Qed.

Lemma add_stale_eq self ret i l d w :
  tracks w !! i = Some l -> heap w !! l = Some d ->
  is_Some (age d) -> is_Some (active d) -> is_Some (ct d) ->
  add_stale self ret i w =
    (Ok (if stays self d then ret ++ [l] else ret),
     mk_world (id_count w) (tracks w)
       (<[l := if stays self d then aged self d else decayed self d]> (heap w))).
Proof.
  intros Hi Hd [a Ha] [act Hact] [c Hc].
  assert (Hdec : (add_stale self ret i w) =
     ((a0 ← field l age;
       d0 ← load l;
       if (a0 <? max_age self) && Qgtb (detection_score d0) (del_th self) then
         a1 ← field l age;
         modify l (set_age (a1 + 1));;
         d1 ← load l;
         (if Qgtb (detection_score d1) (s_th self)
          then a2 ← field l active; modify l (set_active (a2 + 1))
          else modify l (set_active 0));;
         c0 ← field l ct;
         d2 ← load l;
         match tracking d2, kf d2 with
         | Some t, _ =>
             let offset := scale t (-1)%Q in
             modify l (set_ct (plus2 c0 offset));;
             c1 ← field l ct;
             d3 ← load l;
             modify l (set_translation (set_first2 (translation d3) c1))
         | None, Some _ => write_back l
         | None, None => mret tt
         end;;
         mret (ret ++ [l])
       else mret ret)
      (mk_world (id_count w) (tracks w) (<[l := decayed self d]> (heap w))))).
  { unfold add_stale, decayed, list_item, mbind at 1 2 3, M_bind at 1 2 3, get_tracks, lift.
    simpl. rewrite Hi. simpl.
    destruct (score_update self).
    - unfold mbind at 1, M_bind at 1, load. simpl. rewrite Hd. simpl.
      unfold modify. by rewrite Hd.
    - simpl. by rewrite (insert_id _ _ _ Hd), world_eta. }
  rewrite Hdec. clear Hdec.
  assert (Ha1 : age (decayed self d) = Some a) by (unfold decayed; by destruct (score_update self)).
  assert (Hact1 : active (decayed self d) = Some act)
    by (unfold decayed; by destruct (score_update self)).
  assert (Hc1 : ct (decayed self d) = Some c) by (unfold decayed; by destruct (score_update self)).
  unfold stays, aged. rewrite Ha, Ha1, Hact1, Hc1.
  set (d1 := decayed self d) in *.
  unfold field, load, modify, mbind, M_bind, lift. simpl.
  rewrite lookup_insert_eq. simpl. rewrite Ha1. simpl. rewrite lookup_insert_eq. simpl.
  destruct ((a <? max_age self) && Qgtb (detection_score d1) (del_th self)); [|done].
  repeat progress (simpl; rewrite ?lookup_insert_eq, ?insert_insert_eq, ?Ha1).
  destruct (Qgtb (detection_score d1) (s_th self));
    repeat progress (simpl; rewrite ?lookup_insert_eq, ?insert_insert_eq, ?Ha1, ?Hact1, ?Hc1).
  all: destruct (tracking d1) as [t|] eqn:Ht;
    [repeat progress (simpl; rewrite ?lookup_insert_eq, ?insert_insert_eq); done|].
  all: destruct (kf d1) as [k|] eqn:Hk.
  all: try (rewrite (write_back_eq l _ k) by (run_heap; done); run_heap; done).
  all: done.
Qed.

(** *** Loops that write one dictionary per element

    [body] handles the element [a] by rewriting the dictionary at the
    place [loc_of] gives it, as [upd] says, and by appending [emit] to
    the result; it may read the counter, the track list and the
    dictionaries outside [ls], which no iteration writes. *)

Section Loop.
Context {A : Type} (body : list loc -> A -> M (list loc)).
Context (loc_of : A -> loc -> Prop) (good : A -> det -> Prop).
Context (emit : A -> det -> list loc) (upd : A -> det -> det).
Context (w0 : world) (ls : list loc).
Hypothesis Hstep : forall ret a l d w,
  loc_of a l -> good a d -> l ∈ ls ->
  id_count w = id_count w0 -> tracks w = tracks w0 ->
  (forall x, x ∉ ls -> heap w !! x = heap w0 !! x) ->
  heap w !! l = Some d ->
  body ret a w =
    (Ok (ret ++ emit a d),
     mk_world (id_count w) (tracks w) (<[l := upd a d]> (heap w))).

Lemma update_loop items (lds : list (loc * det)) ret w :
  Forall2 (fun a ld => loc_of a ld.1 /\ good a ld.2) items lds ->
  NoDup lds.*1 -> (forall x, x ∈ lds.*1 -> x ∈ ls) ->
  id_count w = id_count w0 -> tracks w = tracks w0 ->
  (forall x, x ∉ ls -> heap w !! x = heap w0 !! x) ->
  (forall ld, ld ∈ lds -> heap w !! ld.1 = Some ld.2) ->
  (foldM body ret items w).1
    = Ok (ret ++ concat (zip_with (fun a ld => emit a ld.2) items lds)) /\
  id_count (foldM body ret items w).2 = id_count w0 /\
  tracks (foldM body ret items w).2 = tracks w0 /\
  (forall x, x ∉ lds.*1 -> heap (foldM body ret items w).2 !! x = heap w !! x) /\
  (forall k a ld, items !! k = Some a -> lds !! k = Some ld ->
     heap (foldM body ret items w).2 !! ld.1 = Some (upd a ld.2)).
Proof.
  intros Hall. revert ret w.
  induction Hall as [|a [l d] items lds [Hloc Hgood] Hall IH];
    intros ret w Hnd Hin Hid Hts Hout Hhere.
  { simpl. split_and!; try done. by rewrite app_nil_r. }
  cbn [fmap list_fmap fst] in Hnd, Hin. apply NoDup_cons in Hnd as [Hl Hnd].
  assert (Hd : heap w !! l = Some d) by (apply (Hhere (l, d)), elem_of_cons; auto).
  assert (Hlin : l ∈ ls) by (apply Hin, elem_of_cons; auto).
  cbn [foldM]. unfold mbind at 1 2 3 4 5. unfold M_bind.
  rewrite (Hstep ret a l d w Hloc Hgood Hlin Hid Hts Hout Hd).
  set (w1 := mk_world _ _ _).
  destruct (IH (ret ++ emit a d) w1) as (Hret & Hid1 & Hts1 & Hframe & Hexact).
  - exact Hnd.
  - intros x Hx. apply Hin, elem_of_cons. auto.
  - exact Hid.
  - exact Hts.
  - intros x Hx. unfold w1. simpl. rewrite lookup_insert_ne; [by apply Hout|].
    intros <-. done.
  - intros ld Hld. unfold w1. simpl. rewrite lookup_insert_ne.
    + apply Hhere, elem_of_cons. auto.
    + intros Heq. apply Hl. rewrite Heq. by apply list_elem_of_fmap_2.
  - split_and!.
    + rewrite Hret. cbn [zip_with concat]. by rewrite <- app_assoc.
    + exact Hid1.
    + exact Hts1.
    + intros x Hx. apply not_elem_of_cons in Hx as [Hne Hx].
      rewrite (Hframe x Hx). unfold w1. simpl. by rewrite lookup_insert_ne.
    + intros [|k] a' ld Ha Hld; simpl in Ha, Hld.
      * injection Ha as <-. injection Hld as <-. cbn [fst snd].
        rewrite (Hframe l Hl). unfold w1. simpl. by rewrite lookup_insert_eq.
      * by apply (Hexact k).
Qed.

End Loop.

(** *** The dictionaries an index list points to *)

Definition locs_at (from : list loc) (idx : list nat) : list loc :=
  omap (fun i => from !! i) idx.

Lemma locs_at_cons from i idx l :
  from !! i = Some l -> locs_at from (i :: idx) = l :: locs_at from idx.
Proof. intros Hi. unfold locs_at. simpl. by rewrite Hi. Qed.

Lemma locs_at_spec (from : list loc) (idx : list nat) :
  (forall i, i ∈ idx -> (i < length from)%nat) ->
  Forall2 (fun i l => from !! i = Some l) idx (locs_at from idx).
Proof.
  induction idx as [|i idx IH]; intros Hlt; [constructor|].
  destruct (lookup_lt_is_Some_2 from i) as [l Hl]; [apply Hlt, elem_of_cons; auto|].
  rewrite (locs_at_cons _ _ _ _ Hl). constructor; [done|].
  apply IH. intros j Hj. apply Hlt, elem_of_cons. auto.
Qed.

Lemma locs_at_elem from idx l :
  l ∈ locs_at from idx <-> exists i, i ∈ idx /\ from !! i = Some l.
Proof. unfold locs_at. apply list_elem_of_omap. Qed.

Lemma locs_at_NoDup from idx :
  NoDup from -> NoDup idx -> (forall i, i ∈ idx -> (i < length from)%nat) ->
  NoDup (locs_at from idx).
Proof.
  intros Hf Hi Hlt. eapply NoDup_unmatched_locs; [exact Hf|exact Hi|].
  by apply locs_at_spec.
Qed.

(** The dictionaries at the places [f] sends the elements of [xs] to. *)
Lemma targets {X} (f : X -> nat) (from : list loc) (P : det -> Prop) w (xs : list X) :
  (forall x, x ∈ xs -> exists l d, from !! f x = Some l /\ heap w !! l = Some d /\ P d) ->
  exists lds : list (loc * det),
    lds.*1 = locs_at from (f <$> xs) /\
    Forall2 (fun x ld => from !! f x = Some ld.1 /\ heap w !! ld.1 = Some ld.2 /\ P ld.2)
            xs lds.
Proof.
  induction xs as [|x xs IH]; intros Hall.
  { exists []. split; [done|constructor]. }
  destruct (Hall x) as (l & d & Hl & Hd & HP); [apply elem_of_cons; auto|].
  destruct IH as (lds & Hfst & Hf2); [intros y Hy; apply Hall, elem_of_cons; auto|].
  exists ((l, d) :: lds). split.
  - cbn [fmap list_fmap]. rewrite (locs_at_cons _ _ _ _ Hl). simpl. by f_equal.
  - by constructor.
Qed.

(** Whether the track at [l] is kept by line 306, and the unmatched
    tracks that are. *)
Definition stays_at (self : PubTracker) (w : world) (l : loc) : bool :=
  match heap w !! l with
  | Some d => stays self d
  | None => false
  end.

Definition survivors (self : PubTracker) (w : world) (unmatched_trk : list nat) : list loc :=
  filter (fun l => stays_at self w l = true) (locs_at (tracks w) unmatched_trk).

(** *** An outcome of the assignment stage the update can work on

    The world is as [step_centertrack] has it before the update; the
    indices exist; the frame and the track list hold distinct
    dictionaries and share none; no detection index is listed twice,
    nor is an unmatched track index. *)
Record well_formed (self : PubTracker) (results : list loc) (pairs : list (nat * nat))
    (unmatched_trk unmatched_det : list nat) (w : world) : Prop := {
  wf_ready : ready_world self (tracks w) results w;
  wf_pairs : forall p, p ∈ pairs ->
               (p.1 < length results)%nat /\ (p.2 < length (tracks w))%nat;
  wf_det : forall i, i ∈ unmatched_det -> (i < length results)%nat;
  wf_trk : forall i, i ∈ unmatched_trk -> (i < length (tracks w))%nat;
  wf_results : NoDup results;
  wf_tracks : NoDup (tracks w);
  wf_apart : forall l, l ∈ results -> l ∉ tracks w;
  wf_det_once : NoDup (pairs.*1 ++ unmatched_det);
  wf_trk_once : NoDup unmatched_trk }.

(** The track a pair's second index points to, as it was before the
    update. *)
Definition track_of (w : world) (m1 : nat) : option det :=
  l ← tracks w !! m1; heap w !! l.

Lemma heap_rel_untouched (F : loc -> det -> det -> Prop) w w' x :
  heap_rel F w w' -> (forall d d', F x d d' -> d' = d) -> heap w' !! x = heap w !! x.
Proof.
  intros Hrel HF. specialize (Hrel x). destruct (heap w !! x) as [d|]; [|done].
  destruct Hrel as (d' & -> & Hd). f_equal. by apply HF.
Qed.

Lemma concat_singletons {X} (emit : X -> det -> list loc) (xs : list X)
    (lds : list (loc * det)) :
  Forall2 (fun x ld => emit x ld.2 = [ld.1]) xs lds ->
  concat (zip_with (fun x ld => emit x ld.2) xs lds) = lds.*1.
Proof.
  induction 1 as [|x ld xs lds Hx _ IH]; [done|].
  cbn [zip_with concat fmap list_fmap]. by rewrite Hx, IH.
Qed.

(** The loop of lines 252-268. *)
Lemma match_loop_exact self results (pairs : list (nat * nat)) ret w :
  ready_world self (tracks w) results w ->
  (forall p, p ∈ pairs -> (p.1 < length results)%nat /\ (p.2 < length (tracks w))%nat) ->
  NoDup results -> NoDup pairs.*1 -> (forall l, l ∈ results -> l ∉ tracks w) ->
  (foldM (add_match self results) ret (items (PairArray pairs)) w).1
    = Ok (ret ++ locs_at results pairs.*1) /\
  id_count (foldM (add_match self results) ret (items (PairArray pairs)) w).2 = id_count w /\
  tracks (foldM (add_match self results) ret (items (PairArray pairs)) w).2 = tracks w /\
  (forall x, x ∉ locs_at results pairs.*1 ->
     heap (foldM (add_match self results) ret (items (PairArray pairs)) w).2 !! x
       = heap w !! x) /\
  (forall p l d old, p ∈ pairs -> results !! p.1 = Some l -> heap w !! l = Some d ->
     track_of w p.2 = Some old ->
     heap (foldM (add_match self results) ret (items (PairArray pairs)) w).2 !! l
       = Some (matched self old d)).
Proof.
  intros (_ & Htrk & Hdet) Hvalid Hres Hnd Hapart.
  destruct (targets fst results (kf_ready self) w pairs) as (lds & Hfst & Hf2).
  { intros p Hp. destruct (Hvalid p Hp) as [Hp1 _].
    destruct (lookup_lt_is_Some_2 results p.1 Hp1) as [l Hl].
    destruct (Hdet l) as (d & Hd & Hk); [by eapply list_elem_of_lookup_2|]. eauto. }
  set (loc_of := fun (m : list nat) (l : loc) =>
         exists p : nat * nat, m = [p.1; p.2] /\ results !! p.1 = Some l /\
                               (p.2 < length (tracks w))%nat).
  set (upd := fun (m : list nat) (d : det) =>
         match m !! 1%nat ≫= track_of w with
         | Some old => matched self old d
         | None => d
         end).
  set (emit := fun (m : list nat) (_ : det) => locs_at results (take 1 m)).
  assert (Hitems : Forall2 (fun m ld => loc_of m ld.1 /\ kf_ready self ld.2)
                     (items (PairArray pairs)) lds).
  { cbn [items]. apply Forall2_fmap_l.
    apply Forall2_same_length_lookup_2; [by eapply Forall2_length|].
    intros i p ld Hp Hld.
    destruct (Forall2_lookup_lr _ _ _ _ _ _ Hf2 Hp Hld) as (Hl & Hd & Hk).
    split; [|done]. exists p. split_and!; [done|done|].
    apply Hvalid. by eapply list_elem_of_lookup_2. }
  assert (Hhere : forall ld, ld ∈ lds -> heap w !! ld.1 = Some ld.2).
  { intros ld Hld. apply list_elem_of_lookup in Hld as [k Hk].
    destruct (Forall2_lookup_r _ _ _ _ _ Hf2 Hk) as (p & _ & _ & Hd & _). done. }
  assert (Hndl : NoDup lds.*1).
  { rewrite Hfst. apply locs_at_NoDup; [done|done|].
    intros i (p & -> & Hp)%list_elem_of_fmap. by apply Hvalid. }
  assert (Hin : forall x, x ∈ lds.*1 -> x ∈ results).
  { intros x. rewrite Hfst, locs_at_elem. intros (i & _ & Hi).
    by eapply list_elem_of_lookup_2. }
  destruct (update_loop (add_match self results) loc_of (fun _ => kf_ready self) emit upd
              w results) with (items := items (PairArray pairs)) (lds := lds)
              (ret := ret) (w := w)
    as (Hret & Hid & Hts & Hframe & Hexact); try done.
  { (* one iteration *)
    intros ret0 m l d w1 (p & -> & Hl & Hp2) Hk Hlin Hid1 Hts1 Hout Hd.
    destruct (lookup_lt_is_Some_2 (tracks w) p.2 Hp2) as [tl Htl].
    assert (Htlin : tl ∈ tracks w) by (by eapply list_elem_of_lookup_2).
    destruct (Htrk tl Htlin) as (old & Hold & Hid0 & _ & Hact0 & _ & Hkf0).
    assert (Hne : l <> tl) by (intros ->; by apply (Hapart tl)).
    assert (Htlout : tl ∉ results) by (intros Hx; by apply (Hapart tl)).
    rewrite (add_match_eq self results ret0 p.1 p.2 l tl d old w1); try done.
    - unfold emit, upd, track_of. cbn [take lookup list_lookup mbind option_bind].
      rewrite (locs_at_cons _ _ _ _ Hl). rewrite Htl. cbn [mbind option_bind].
      by rewrite Hold.
    - by rewrite Hts1.
    - by rewrite (Hout tl Htlout).
    - intros Htr. split; [by apply Hkf0|by apply Hk]. }
  assert (Hemit : Forall2 (fun m (ld : loc * det) => emit m ld.2 = [ld.1])
                    (items (PairArray pairs)) lds).
  { eapply Forall2_impl; [exact Hitems|].
    intros m ld [(p & -> & Hl & _) _]. unfold emit. cbn [take].
    by rewrite (locs_at_cons _ _ _ _ Hl). }
  rewrite Hret, (concat_singletons emit _ _ Hemit), <- Hfst.
  split_and!; try done.
  intros p l d old Hp Hl Hd Hold.
  apply list_elem_of_lookup in Hp as [k Hk].
  destruct (Forall2_lookup_l _ _ _ _ _ Hf2 Hk) as (ld & Hld & Hl' & Hd' & _).
  assert (ld = (l, d)) as ->.
  { destruct ld as [l' d']. simpl in *. assert (l' = l) as -> by congruence. congruence. }
  assert (Hm : items (PairArray pairs) !! k = Some [p.1; p.2])
    by (cbn [items]; by rewrite list_lookup_fmap, Hk).
  pose proof (Hexact k [p.1; p.2] (l, d) Hm Hld) as Hx. cbn [fst snd] in Hx.
  rewrite Hx. unfold upd. cbn [lookup list_lookup mbind option_bind]. by rewrite Hold.
Qed.

(** The loop of lines 298-324. *)
Lemma stale_loop_exact self (unmatched_trk : list nat) ret w :
  (forall l, l ∈ tracks w -> holds_at (track_ready self) w l) ->
  (forall i, i ∈ unmatched_trk -> (i < length (tracks w))%nat) ->
  NoDup (tracks w) -> NoDup unmatched_trk ->
  (foldM (add_stale self) ret unmatched_trk w).1
    = Ok (ret ++ survivors self w unmatched_trk) /\
  id_count (foldM (add_stale self) ret unmatched_trk w).2 = id_count w /\
  tracks (foldM (add_stale self) ret unmatched_trk w).2 = tracks w /\
  (forall x, x ∉ locs_at (tracks w) unmatched_trk ->
     heap (foldM (add_stale self) ret unmatched_trk w).2 !! x = heap w !! x) /\
  (forall i l d, i ∈ unmatched_trk -> tracks w !! i = Some l -> heap w !! l = Some d ->
     heap (foldM (add_stale self) ret unmatched_trk w).2 !! l
       = Some (if stays self d then aged self d else decayed self d)).
Proof.
  intros Htrk Hvalid Hnd Hndi.
  destruct (targets id (tracks w) (track_ready self) w unmatched_trk) as (lds & Hfst & Hf2).
  { intros i Hi. destruct (lookup_lt_is_Some_2 (tracks w) i (Hvalid i Hi)) as [l Hl].
    destruct (Htrk l) as (d & Hd & Hr); [by eapply list_elem_of_lookup_2|].
    exists l, d. done. }
  rewrite list_fmap_id in Hfst. unfold id in Hf2.
  set (emit := fun (i : nat) (d : det) =>
         if stays self d then locs_at (tracks w) [i] else []).
  set (upd := fun (_ : nat) (d : det) =>
         if stays self d then aged self d else decayed self d).
  assert (Hitems : Forall2 (fun i (ld : loc * det) =>
                      tracks w !! i = Some ld.1 /\ track_ready self ld.2)
                     unmatched_trk lds).
  { eapply Forall2_impl; [exact Hf2|]. by intros i ld (? & _ & ?). }
  assert (Hhere : forall ld, ld ∈ lds -> heap w !! ld.1 = Some ld.2).
  { intros ld Hld. apply list_elem_of_lookup in Hld as [k Hk].
    destruct (Forall2_lookup_r _ _ _ _ _ Hf2 Hk) as (p & _ & _ & Hd & _). done. }
  assert (Hndl : NoDup lds.*1) by (rewrite Hfst; by apply locs_at_NoDup).
  assert (Hin : forall x, x ∈ lds.*1 -> x ∈ tracks w).
  { intros x. rewrite Hfst, locs_at_elem. intros (i & _ & Hi).
    by eapply list_elem_of_lookup_2. }
  destruct (update_loop (add_stale self) (fun i l => tracks w !! i = Some l)
              (fun _ => track_ready self) emit upd w (tracks w))
    with (items := unmatched_trk) (lds := lds) (ret := ret) (w := w)
    as (Hret & Hid & Hts & Hframe & Hexact); try done.
  { intros ret0 i l d w1 Hl (_ & Ha & Hact & Hc & _) _ _ Hts1 _ Hd.
    rewrite (add_stale_eq self ret0 i l d w1); try done; [|by rewrite Hts1].
    unfold emit, upd. rewrite (locs_at_cons _ _ _ _ Hl).
    destruct (stays self d); [done|by rewrite app_nil_r]. }
  assert (Hemit : concat (zip_with (fun i (ld : loc * det) => emit i ld.2) unmatched_trk lds)
                  = filter (fun l => stays_at self w l = true) lds.*1).
  { clear -Hf2. induction Hf2 as [|i [l d] idx lds (Hl & Hd & _) _ IH]; [done|].
    cbn [zip_with concat fmap list_fmap fst snd] in *. rewrite IH. unfold emit.
    rewrite (locs_at_cons _ _ _ _ Hl).
    destruct (stays self d) eqn:Hs.
    - rewrite filter_cons_True; [done|]. unfold stays_at. by rewrite Hd.
    - rewrite filter_cons_False; [done|]. unfold stays_at. rewrite Hd. by rewrite Hs. }
  rewrite Hret, Hemit. unfold survivors. rewrite <- Hfst.
  split_and!; try done.
  intros i l d Hi Hl Hd.
  apply list_elem_of_lookup in Hi as [k Hk].
  destruct (Forall2_lookup_l _ _ _ _ _ Hf2 Hk) as (ld & Hld & Hl' & Hd' & _).
  assert (ld = (l, d)) as ->.
  { destruct ld as [l' d']. simpl in *. assert (l' = l) as -> by congruence. congruence. }
  exact (Hexact k i (l, d) Hk Hld).
Qed.

Lemma M_bind_eq {X Y} (m : M X) (k : X -> M Y) w r w1 :
  m w = (Ok r, w1) -> (m ≫= k) w = k r w1.
Proof. unfold mbind, M_bind. by intros ->. Qed.

Lemma filter_ext_elem {X} (P Q : X -> Prop) `{!forall x, Decision (P x)}
    `{!forall x, Decision (Q x)} (l : list X) :
  (forall x, x ∈ l -> (P x <-> Q x)) -> filter P l = filter Q l.
Proof.
  induction l as [|a l IH]; intros Hall; [done|].
  assert (Ha : P a <-> Q a) by (apply Hall, elem_of_cons; auto).
  assert (Hl : filter P l = filter Q l).
  { apply IH. intros x Hx. apply Hall, elem_of_cons. auto. }
  destruct (decide (P a)) as [HP|HP].
  - rewrite !filter_cons_True by tauto. by rewrite Hl.
  - rewrite !filter_cons_False by tauto. exact Hl.
Qed.

(** The update on a well-formed outcome: what it returns, and what it
    leaves in every dictionary. *)
Lemma update_tracks_exact self results (pairs : list (nat * nat)) unmatched_trk unmatched_det w :
  well_formed self results pairs unmatched_trk unmatched_det w ->
  exists w',
    update_tracks self results (PairArray pairs, unmatched_trk, unmatched_det) w
      = (Ok (locs_at results pairs.*1 ++ locs_at results unmatched_det ++
             survivors self w unmatched_trk), w') /\
    id_count w' = id_count w + Z.of_nat (length unmatched_det) /\
    tracks w' = locs_at results pairs.*1 ++ locs_at results unmatched_det ++
                survivors self w unmatched_trk /\
    (forall p l d old, p ∈ pairs -> results !! p.1 = Some l -> heap w !! l = Some d ->
       track_of w p.2 = Some old -> heap w' !! l = Some (matched self old d)) /\
    (forall k i l d, unmatched_det !! k = Some i -> results !! i = Some l ->
       heap w !! l = Some d ->
       heap w' !! l
         = Some (born self (id_count w + Z.of_nat k + 1) (birth_activity self d) d)) /\
    (forall i l d, i ∈ unmatched_trk -> tracks w !! i = Some l -> heap w !! l = Some d ->
       heap w' !! l = Some (if stays self d then aged self d else decayed self d)) /\
    (forall x, x ∉ locs_at results (pairs.*1 ++ unmatched_det) ->
       x ∉ locs_at (tracks w) unmatched_trk -> heap w' !! x = heap w !! x).
Proof.
  intros [Hrw Hpairs Hdet Htrk Hres Hts Hapart Hdet1 Htrk1].
  apply NoDup_app in Hdet1 as (Hnd1 & Hsep & Hnd2).
  set (ls_m := locs_at results pairs.*1).
  set (ls_b := locs_at results unmatched_det).
  assert (Hm_in : forall x, x ∈ ls_m -> x ∈ results).
  { intros x. unfold ls_m. rewrite locs_at_elem. intros (i & _ & Hi).
    by eapply list_elem_of_lookup_2. }
  assert (Hb_in : forall x, x ∈ ls_b -> x ∈ results).
  { intros x. unfold ls_b. rewrite locs_at_elem. intros (i & _ & Hi).
    by eapply list_elem_of_lookup_2. }
  assert (Hmb : forall x, x ∈ ls_b -> x ∉ ls_m).
  { intros x. unfold ls_m, ls_b. rewrite !locs_at_elem.
    intros (i & Hi & Hx) (j & Hj & Hx').
    assert (j = i) as -> by exact (NoDup_lookup results j i x Hres Hx' Hx).
    by apply (Hsep i). }
  assert (Hs_out : forall x, x ∈ locs_at (tracks w) unmatched_trk -> x ∉ results).
  { intros x. rewrite locs_at_elem. intros (i & _ & Hi) Hx.
    apply (Hapart x Hx). by eapply list_elem_of_lookup_2. }
  (* the matches *)
  destruct (match_loop_exact self results pairs [] w Hrw Hpairs Hres Hnd1 Hapart)
    as (Hret1 & Hid1 & Hts1 & Hframe1 & Hexact1).
  destruct (foldM (add_match self results) [] (items (PairArray pairs)) w)
    as [r1 w1] eqn:E1.
  cbn [fst snd app] in Hret1, Hid1, Hts1, Hframe1, Hexact1. subst r1.
  fold ls_m in E1, Hframe1.
  (* the births *)
  destruct Hrw as (_ & Hready_t & Hready_d).
  destruct (birth_loop self (add_birth self results) (fun i l => results !! i = Some l)
              (birth_activity self) unmatched_det ls_b ls_m w1)
    as (Hret2 & Hid2 & Hts2 & Hrel2 & Hexact2).
  { intros ret a l d w0 Hal. by apply add_birth_eq. }
  { intros n x d. unfold birth_activity, born. by destruct (tracker self), (ct d). }
  { by apply locs_at_spec. }
  { intros l Hl. rewrite (Hframe1 l (Hmb l Hl)). apply Hready_d. by apply Hb_in. }
  destruct (foldM (add_birth self results) ls_m unmatched_det w1) as [r2 w2] eqn:E2.
  cbn [fst snd] in Hret2, Hid2, Hts2, Hrel2, Hexact2. subst r2.
  assert (Hframe2 : forall x, x ∉ ls_b -> heap w2 !! x = heap w1 !! x).
  { intros x Hx. apply (heap_rel_untouched _ w1 w2 x Hrel2).
    intros d d' [->|(Hin & _)]; done. }
  (* the unmatched tracks *)
  assert (Htrack_same : forall l, l ∈ tracks w -> heap w2 !! l = heap w !! l).
  { intros l Hl. rewrite Hframe2, Hframe1; [done| |].
    - intros Hx. by apply (Hapart l (Hm_in l Hx)).
    - intros Hx. by apply (Hapart l (Hb_in l Hx)). }
  destruct (stale_loop_exact self unmatched_trk (ls_m ++ ls_b) w2)
    as (Hret3 & Hid3 & Hts3 & Hframe3 & Hexact3).
  { rewrite Hts2, Hts1. intros l Hl. unfold holds_at. rewrite (Htrack_same l Hl).
    by apply Hready_t. }
  { by rewrite Hts2, Hts1. }
  { by rewrite Hts2, Hts1. }
  { done. }
  destruct (foldM (add_stale self) (ls_m ++ ls_b) unmatched_trk w2) as [r3 w3] eqn:E3.
  cbn [fst snd] in Hret3, Hid3, Hts3, Hframe3, Hexact3. subst r3.
  rewrite Hts2, Hts1 in Hframe3, Hexact3.
  assert (Hsurv : survivors self w2 unmatched_trk = survivors self w unmatched_trk).
  { unfold survivors. rewrite Hts2, Hts1. apply filter_ext_elem.
    intros l Hl. unfold stays_at. rewrite Htrack_same; [done|].
    apply locs_at_elem in Hl as (i & _ & Hi). by eapply list_elem_of_lookup_2. }
  rewrite Hsurv, <- app_assoc in *.
  exists (mk_world (id_count w3) (ls_m ++ ls_b ++ survivors self w unmatched_trk) (heap w3)).
  split_and!.
  - unfold update_tracks.
    rewrite (M_bind_eq _ _ _ _ _ E1), (M_bind_eq _ _ _ _ _ E2), (M_bind_eq _ _ _ _ _ E3).
    done.
  - simpl. rewrite Hid3, Hid2, Hid1.
    f_equal. f_equal. symmetry. eapply Forall2_length. by apply locs_at_spec.
  - done.
  - intros p l d old Hp Hl Hd Hold. simpl.
    assert (Hlin : l ∈ results) by (by eapply list_elem_of_lookup_2).
    assert (Hlm : l ∈ ls_m).
    { apply locs_at_elem. exists p.1. split; [by apply list_elem_of_fmap_2|done]. }
    rewrite Hframe3 by (intros Hx; by apply (Hs_out l Hx)).
    rewrite Hframe2 by (intros Hx; by apply (Hmb l Hx)).
    by apply (Hexact1 p).
  - intros k i l d Hk Hi Hd. simpl.
    assert (Hlin : l ∈ results) by (by eapply list_elem_of_lookup_2).
    assert (Hlk : ls_b !! k = Some l).
    { destruct (Forall2_lookup_l _ _ _ _ _ (locs_at_spec results unmatched_det Hdet) Hk)
        as (l' & Hl' & Hil'). fold ls_b in Hl'. congruence. }
    assert (Hlb : l ∈ ls_b) by (by eapply list_elem_of_lookup_2).
    rewrite Hframe3 by (intros Hx; by apply (Hs_out l Hx)).
    rewrite (Hexact2 k l d Hlk).
    + by rewrite Hid1.
    + apply NoDup_last; [|done]. by apply locs_at_NoDup.
    + by rewrite (Hframe1 l (Hmb l Hlb)).
  - intros i l d Hi Hl Hd. simpl. apply (Hexact3 i l d Hi Hl).
    rewrite Htrack_same; [done|]. by eapply list_elem_of_lookup_2.
  - intros x Hx Hxs. simpl. unfold locs_at in Hx. rewrite omap_app in Hx.
    apply not_elem_of_app in Hx as [Hxm Hxb].
    by rewrite (Hframe3 x Hxs), (Hframe2 x Hxb), (Hframe1 x Hxm).
Qed.

(** X17.  On a well-formed outcome of the assignment stage the update
    returns, in this order: the matched detections in the order of
    the pairs, the unmatched detections in their order, and the
    unmatched tracks that line 306 keeps.  It advances the counter by
    the number of unmatched detections, and in point mode it leaves
    every dictionary alone that is neither one of these detections
    nor an unmatched track. *)
Theorem update_returns_in_order self results (pairs : list (nat * nat))
    unmatched_trk unmatched_det w :
  well_formed self results pairs unmatched_trk unmatched_det w ->
  exists w',
    update_tracks self results (PairArray pairs, unmatched_trk, unmatched_det) w
      = (Ok (locs_at results pairs.*1 ++ locs_at results unmatched_det ++
             survivors self w unmatched_trk), w') /\
    length (locs_at results pairs.*1) = length pairs /\
    length (locs_at results unmatched_det) = length unmatched_det /\
    id_count w' = id_count w + Z.of_nat (length unmatched_det) /\
    (tracker self = PointTracker ->
     forall x, x ∉ locs_at results (pairs.*1 ++ unmatched_det) ->
       x ∉ locs_at (tracks w) unmatched_trk -> heap w' !! x = heap w !! x).
Proof.
  intros Hwf.
  destruct (update_tracks_exact self results pairs unmatched_trk unmatched_det w Hwf)
    as (w' & Hrun & Hid & _ & _ & _ & _ & Hframe).
  exists w'. split_and!; [done| | |done|by intros _].
  - rewrite <- (length_fmap fst pairs). symmetry. eapply Forall2_length.
    apply locs_at_spec. intros i (p & -> & Hp)%list_elem_of_fmap.
    by apply (wf_pairs _ _ _ _ _ _ Hwf).
  - symmetry. eapply Forall2_length. apply locs_at_spec. apply (wf_det _ _ _ _ _ _ Hwf).
Qed.

(** X18.  In an assignment that gives no track to two detections
    (which would make them share one filter object), a detection
    matched with a track is returned with the track's identity, age 1
    and the track's activity plus one; its score stays.  In point
    mode nothing else of it changes.  In filter mode it takes the
    track's filter, updated with the detection's centre (and
    velocity, when [use_vel] is set), and its translation and
    velocity are overwritten from the filter state. *)
Theorem matched_detection_continues_track self results (pairs : list (nat * nat))
    unmatched_trk unmatched_det w p l tl d old i a :
  well_formed self results pairs unmatched_trk unmatched_det w ->
  NoDup pairs.*2 ->
  p ∈ pairs -> results !! p.1 = Some l -> tracks w !! p.2 = Some tl ->
  heap w !! l = Some d -> heap w !! tl = Some old ->
  tracking_id old = Some i -> active old = Some a ->
  exists ret w' d',
    update_tracks self results (PairArray pairs, unmatched_trk, unmatched_det) w
      = (Ok ret, w') /\
    l ∈ ret /\ heap w' !! l = Some d' /\
    tracking_id d' = Some i /\ age d' = Some 1 /\ active d' = Some (a + 1) /\
    detection_score d' = detection_score d /\
    (tracker self <> KF -> d' = set_active (a + 1) (set_age 1 (set_tracking_id i d))) /\
    (tracker self = KF ->
     forall k c, kf old = Some k -> ct d = Some c ->
       kf d' = Some (kf_update (observation self d c) k) /\
       first2 (translation d') = (kf_x (kf_update (observation self d c) k) 0%nat,
                                  kf_x (kf_update (observation self d c) k) 1%nat) /\
       first2 (velocity d') = (kf_x (kf_update (observation self d c) k) 2%nat,
                               kf_x (kf_update (observation self d c) k) 3%nat)).
Proof.
  intros Hwf _ Hp Hl Htl Hd Hold Hi Ha.
  destruct (update_tracks_exact self results pairs unmatched_trk unmatched_det w Hwf)
    as (w' & Hrun & _ & _ & Hmatch & _).
  assert (Htrack : track_of w p.2 = Some old).
  { unfold track_of. rewrite Htl. simpl. exact Hold. }
  pose proof (Hmatch p l d old Hp Hl Hd Htrack) as Hd'.
  eexists _, w', _. split; [exact Hrun|]. split.
  { apply elem_of_app. left. apply locs_at_elem. exists p.1.
    split; [by apply list_elem_of_fmap_2|done]. }
  split; [exact Hd'|].
  unfold matched. rewrite Hi, Ha.
  destruct (tracker self) eqn:Htr.
  - split_and!; done.
  - destruct (kf old) as [k|] eqn:Hk, (ct d) as [c|] eqn:Hc;
      (split_and!; [done|done|done|done|done|]); intros _ k' c' [= <-] [= <-]; done.
  - split_and!; done.
Qed.

(** X19.  An unmatched track whose age is below [max_age] and whose
    score, after the decay when there is one, is above the deletion
    threshold is returned one frame older, with the decayed score and
    its identity; its activity goes up by one if the score is above
    the activation threshold and back to 0 otherwise, and with an
    offset ['tracking'] its centre and translation move by minus the
    offset.  Any other unmatched track is neither returned nor kept;
    its dictionary still gets the decayed score. *)
Theorem unmatched_track_ages_or_goes self results (pairs : list (nat * nat))
    unmatched_trk unmatched_det w i l d a act :
  well_formed self results pairs unmatched_trk unmatched_det w ->
  i ∈ unmatched_trk -> tracks w !! i = Some l -> heap w !! l = Some d ->
  age d = Some a -> active d = Some act ->
  exists ret w' d',
    update_tracks self results (PairArray pairs, unmatched_trk, unmatched_det) w
      = (Ok ret, w') /\
    tracks w' = ret /\ heap w' !! l = Some d' /\
    detection_score d' = decayed_score self d /\ tracking_id d' = tracking_id d /\
    (a < max_age self -> (del_th self < decayed_score self d)%Q ->
     l ∈ ret /\ age d' = Some (a + 1) /\
     active d' = Some (if Qgtb (decayed_score self d) (s_th self) then act + 1 else 0) /\
     forall t c, tracking d = Some t -> ct d = Some c ->
       ct d' = Some (plus2 c (scale t (-1)%Q)) /\
       first2 (translation d') = plus2 c (scale t (-1)%Q)) /\
    (max_age self <= a \/ (decayed_score self d <= del_th self)%Q ->
     (l ∉ ret) /\ age d' = Some a).
Proof.
  intros Hwf Hi Hl Hd Ha Hact.
  destruct (update_tracks_exact self results pairs unmatched_trk unmatched_det w Hwf)
    as (w' & Hrun & _ & Hts & _ & _ & Hstale & _).
  pose proof (Hstale i l d Hi Hl Hd) as Hd'.
  assert (Hlin : l ∈ tracks w) by (by eapply list_elem_of_lookup_2).
  destruct (wf_ready _ _ _ _ _ _ Hwf) as (_ & Hready & _).
  destruct (Hready l Hlin) as (d0 & Hd0 & _ & _ & _ & [c Hc] & _).
  assert (d0 = d) as -> by congruence.
  assert (Hscore : detection_score (decayed self d) = decayed_score self d).
  { unfold decayed, decayed_score. by destruct (score_update self). }
  assert (Hstays : stays self d
                   = (a <? max_age self) && Qgtb (decayed_score self d) (del_th self)).
  { unfold stays. by rewrite Ha, Hscore. }
  assert (Hkeys : age (decayed self d) = Some a /\ active (decayed self d) = Some act /\
                  ct (decayed self d) = Some c /\
                  tracking_id (decayed self d) = tracking_id d /\
                  tracking (decayed self d) = tracking d /\ kf (decayed self d) = kf d /\
                  translation (decayed self d) = translation d).
  { unfold decayed. by destruct (score_update self). }
  destruct Hkeys as (Ha1 & Hact1 & Hc1 & Hid1 & Htr1 & Hkf1 & Htl1).
  eexists _, w', _. split; [exact Hrun|]. split; [exact Hts|]. split; [exact Hd'|].
  destruct (stays self d) eqn:Hs.
  - symmetry in Hstays. apply andb_prop in Hstays as [Hyoung Hhigh].
    apply Z.ltb_lt in Hyoung. apply Qgtb_lt in Hhigh.
    assert (Hin : l ∈ survivors self w unmatched_trk).
    { unfold survivors. apply list_elem_of_filter. split.
      - unfold stays_at. by rewrite Hd.
      - apply locs_at_elem. eauto. }
    unfold aged. rewrite Ha1, Hact1, Hc1. cbn [tracking kf set_active set_age].
    rewrite Htr1, Hkf1, Hscore.
    destruct (tracking d) as [t|] eqn:Ht.
    + split_and!; [done|done| |].
      * intros _ _. split_and!; [|done|done|].
        -- apply elem_of_app. right. apply elem_of_app. by right.
        -- intros t' c' [= <-] Hc'. rewrite Hc in Hc'. injection Hc' as <-. done.
      * intros [Hold|Hlow]; [lia|]. exfalso. lra.
    + destruct (kf d) as [k|] eqn:Hk.
      * split_and!; [done|done| |].
        -- intros _ _. split_and!; [|done|done|done].
           apply elem_of_app. right. apply elem_of_app. by right.
        -- intros [Hold|Hlow]; [lia|]. exfalso. lra.
      * split_and!; [done|done| |].
        -- intros _ _. split_and!; [|done|done|done].
           apply elem_of_app. right. apply elem_of_app. by right.
        -- intros [Hold|Hlow]; [lia|]. exfalso. lra.
  - symmetry in Hstays. apply andb_false_iff in Hstays.
    split_and!; [done|done| |].
    + intros Hyoung Hhigh. exfalso. destruct Hstays as [Hs1|Hs2].
      * apply Z.ltb_ge in Hs1. lia.
      * apply Qgtb_le in Hs2. lra.
    + intros _. split; [|done].
      intros Hin. apply elem_of_app in Hin as [Hin|Hin].
      { apply locs_at_elem in Hin as (j & _ & Hj).
        apply (wf_apart _ _ _ _ _ _ Hwf l); [by eapply list_elem_of_lookup_2|done]. }
      apply elem_of_app in Hin as [Hin|Hin].
      { apply locs_at_elem in Hin as (j & _ & Hj).
        apply (wf_apart _ _ _ _ _ _ Hwf l); [by eapply list_elem_of_lookup_2|done]. }
      unfold survivors in Hin. apply list_elem_of_filter in Hin as [Hst _].
      unfold stays_at in Hst. rewrite Hd in Hst. congruence.
Qed.

End Update.

Section Tables.
Context `{Library}.

(** ** The class tables *)

(** X20.  For a tracker built by [__init__], whatever its arguments,
    every class that passes the class test of line 166 has a
    velocity-error threshold, which is positive and far below the cut
    of [1e16]: the two tables of each dataset list the same classes. *)
Theorem tracked_class_has_threshold hungarian_arg max_age_arg noise_arg active_th
    min_hits_arg score_update_arg deletion_th detection_th dataset use_vel_arg
    tracker_arg d :
  tracked (init hungarian_arg max_age_arg noise_arg active_th min_hits_arg
             score_update_arg deletion_th detection_th dataset use_vel_arg tracker_arg) d
    = true ->
  exists table thr,
    velocity_error (init hungarian_arg max_age_arg noise_arg active_th min_hits_arg
                      score_update_arg deletion_th detection_th dataset use_vel_arg
                      tracker_arg) = Some table /\
    dict_get (detection_name d) table = Some thr /\
    (0 < thr)%Q /\ (thr <= sentinel_cut)%Q.
Proof.
  unfold tracked, init. cbn [tracking_names velocity_error].
  destruct dataset; [| |done]; intros Hin; apply bool_decide_eq_true in Hin;
    repeat (apply elem_of_cons in Hin as [Hn|Hin];
            [rewrite Hn; eexists _, _; split_and!;
               [reflexivity|reflexivity|by vm_compute|by vm_compute]|]);
    by apply elem_of_nil in Hin.
Qed.

End Tables.

Section Prediction.
Context `{Library}.

(** ** The positions handed to the assignment stage *)

Lemma mapM_reads_ok {X Y} (f : X -> M Y) (P : X -> Y -> Prop) (l : list X) w :
  (forall a, a ∈ l -> exists b, f a w = (Ok b, w) /\ P a b) ->
  exists bs, mapM f l w = (Ok bs, w) /\ Forall2 P l bs.
Proof.
  induction l as [|a l IH]; intros Hall.
  { exists []. split; [done|constructor]. }
  destruct (Hall a) as (b & Hb & HP); [apply elem_of_cons; auto|].
  destruct IH as (bs & Hbs & HF); [intros x Hx; apply Hall, elem_of_cons; auto|].
  exists (b :: bs). split; [|by constructor].
  cbn [mapM]. rewrite (M_bind_eq _ _ _ _ _ Hb), (M_bind_eq _ _ _ _ _ Hbs). done.
Qed.

(** X21.  In point mode, when every detection of the frame has its
    centre and its offset and every live track its centre, lines
    214-229 write nothing and hand over, for each detection, its
    centre plus its offset, and for each track its centre. *)
Theorem point_mode_prediction self time_lag results w :
  tracker self = PointTracker -> results <> [] ->
  (forall l, l ∈ results ->
     exists d, heap w !! l = Some d /\ is_Some (ct d) /\ is_Some (tracking d)) ->
  (forall l, l ∈ tracks w -> exists d, heap w !! l = Some d /\ is_Some (ct d)) ->
  exists dets trks,
    predict_positions self time_lag results w = (Ok (dets, trks), w) /\
    Forall2 (fun l p => exists d c t, heap w !! l = Some d /\ ct d = Some c /\
                                      tracking d = Some t /\ p = plus2 c t)
            results dets /\
    Forall2 (fun l q => exists d, heap w !! l = Some d /\ ct d = Some q) (tracks w) trks.
Proof.
  intros Hkind Hne Hdets Htrks.
  destruct results as [|r0 results]; [done|].
  destruct (Hdets r0) as (d0 & Hd0 & _ & Ht0); [apply elem_of_cons; auto|].
  destruct (mapM_reads_ok
              (fun det => c ← field det ct; t ← field det tracking; mret (plus2 c t))
              (fun l p => exists d c t, heap w !! l = Some d /\ ct d = Some c /\
                                        tracking d = Some t /\ p = plus2 c t)
              (r0 :: results) w) as (dets & Hrun_d & HF_d).
  { intros l Hl. destruct (Hdets l Hl) as (d & Hd & [c Hc] & [t Ht]).
    exists (plus2 c t). split; [|by eauto 10].
    unfold field, load, mbind, M_bind, lift. simpl. rewrite Hd. simpl.
    rewrite Hc. simpl. rewrite Hd. simpl. by rewrite Ht. }
  destruct (mapM_reads_ok (fun pre_det => field pre_det ct)
              (fun l q => exists d, heap w !! l = Some d /\ ct d = Some q)
              (tracks w) w) as (trks & Hrun_t & HF_t).
  { intros l Hl. destruct (Htrks l Hl) as (d & Hd & [c Hc]).
    exists c. split; [|by eauto].
    unfold field, load, mbind, M_bind, lift. simpl. rewrite Hd. simpl. by rewrite Hc. }
  exists dets, trks. split; [|done].
  unfold predict_positions. rewrite Hkind. cbn [lookup list_lookup of_option].
  assert (Hfirst : lift (Ok r0) w = (Ok r0, w)) by done.
  rewrite (M_bind_eq _ _ _ _ _ Hfirst).
  assert (Hload : load r0 w = (Ok d0, w)) by (unfold load; by rewrite Hd0).
  rewrite (M_bind_eq _ _ _ _ _ Hload).
  rewrite bool_decide_eq_true_2 by done.
  rewrite (M_bind_eq _ _ _ _ _ Hrun_d).
  assert (Hget : get_tracks w = (Ok (tracks w), w)) by done.
  rewrite (M_bind_eq _ _ _ _ _ Hget), (M_bind_eq _ _ _ _ _ Hrun_t). done.
Qed.

End Prediction.

Section Labels.
Context `{Library}.

(** ** The class filter of lines 163-176 *)

Lemma index_of_spec n names idx :
  index_of n names = Some idx ->
  names !! idx = Some n /\ forall j, (j < idx)%nat -> names !! j <> Some n.
Proof.
  revert idx. induction names as [|m rest IH]; intros idx Hi; [done|].
  simpl in Hi. destruct (decide (n = m)) as [->|Hne].
  - injection Hi as <-. split; [done|]. intros j Hj. lia.
  - destruct (index_of n rest) as [i|]; [|done]. injection Hi as <-.
    destruct (IH i eq_refl) as [Hl Hfirst]. split; [done|].
    intros [|j] Hj; simpl; [congruence|]. apply Hfirst. lia.
Qed.

Lemma extend_detection_labels self time_lag temp l d names w :
  heap w !! l = Some d -> tracking_names self = Some names ->
  tracked self d = true ->
  exists idx,
    index_of (detection_name d) names = Some idx /\
    extend_detection self time_lag temp l w =
      (Ok (temp ++ [l]),
       mk_world (id_count w) (tracks w) (<[l := extended self time_lag idx d]> (heap w))).
Proof.
  intros Hl Hn Ht. unfold tracked in Ht. rewrite Hn in Ht.
  destruct (index_of_in (detection_name d) names) as [idx Hidx].
  { by apply bool_decide_eq_true in Ht. }
  exists idx. split; [done|].
  unfold extend_detection, mbind, M_bind, load, lift, modify, extended. simpl.
  rewrite Hl, Hn. simpl. rewrite Ht. simpl. rewrite Hl. simpl.
  destruct (tracker self); simpl;
    rewrite ?lookup_insert_eq, ?Hidx; simpl;
    rewrite ?lookup_insert_eq, ?insert_insert_eq; done.
Qed.

(** The label of a dictionary is the place of the first occurrence of
    its class name in the class table. *)
Definition labelled_by (names : list cls_name) (d : det) : Prop :=
  exists idx, label_preds d = Some idx /\
              names !! idx = Some (detection_name d) /\
              forall j, (j < idx)%nat -> names !! j <> Some (detection_name d).

Lemma class_filter_loop self time_lag names results temp w :
  tracking_names self = Some names ->
  (forall l, l ∈ results -> is_Some (heap w !! l)) ->
  (foldM (extend_detection self time_lag) temp results w).1
    = Ok (temp ++ filter (fun l => tracked_at self w l = true) results) /\
  forall l d', l ∈ results ->
    heap (foldM (extend_detection self time_lag) temp results w).2 !! l = Some d' ->
    tracked self d' = true -> labelled_by names d'.
Proof.
  intros Hn. revert temp w. induction results as [|a rest IH]; intros temp w Hrefs.
  { simpl. split; [by rewrite app_nil_r|]. intros l d' Hl. by apply elem_of_nil in Hl. }
  destruct (Hrefs a) as [d Hd]; [apply elem_of_cons; auto|].
  cbn [foldM]. unfold mbind at 1 2. unfold M_bind.
  destruct (tracked self d) eqn:Ht.
  - destruct (extend_detection_labels self time_lag temp a d names w Hd Hn Ht)
      as (idx & Hidx & ->).
    set (w1 := mk_world _ _ _).
    assert (Hrefs1 : forall l, l ∈ rest -> is_Some (heap w1 !! l)).
    { intros l Hl. unfold w1. simpl. destruct (decide (a = l)) as [<-|Hne].
      - rewrite lookup_insert_eq. eauto.
      - rewrite lookup_insert_ne by done. apply Hrefs, elem_of_cons. auto. }
    destruct (IH (temp ++ [a]) w1 Hrefs1) as [Hret Hlab].
    destruct (extend_loop self time_lag rest (temp ++ [a]) w1) as (_ & Hrel & _).
    split.
    + rewrite Hret. rewrite filter_cons_True by (unfold tracked_at; by rewrite Hd).
      rewrite <- app_assoc. simpl. f_equal. f_equal. f_equal. apply filter_ext_elem.
      intros l Hl. unfold tracked_at, w1. simpl.
      destruct (decide (a = l)) as [<-|Hne].
      * rewrite lookup_insert_eq, Hd. by rewrite extended_tracked.
      * by rewrite lookup_insert_ne.
    + intros l d' Hl Hd' Htd.
      destruct (decide (l ∈ rest)) as [Hin|Hout]; [by apply (Hlab l)|].
      apply elem_of_cons in Hl as [->|Hl]; [|done].
      specialize (Hrel a). unfold w1 in Hrel at 1. simpl in Hrel.
      rewrite lookup_insert_eq in Hrel.
      destruct Hrel as (d2 & Hd2 & [->|(Hin & _)]); [|done].
      rewrite Hd' in Hd2. injection Hd2 as ->.
      exists idx. unfold extended. destruct (index_of_spec _ _ _ Hidx) as [Hl1 Hl2].
      by destruct (tracker self).
  - rewrite (extend_detection_untracked self time_lag temp a d names w Hd Hn Ht).
    destruct (IH temp w) as [Hret Hlab]; [intros l Hl; apply Hrefs, elem_of_cons; auto|].
    destruct (extend_loop self time_lag rest temp w) as (_ & Hrel & _).
    split.
    + rewrite Hret. rewrite filter_cons_False; [done|].
      unfold tracked_at. rewrite Hd. congruence.
    + intros l d' Hl Hd' Htd.
      destruct (decide (l ∈ rest)) as [Hin|Hout]; [by apply (Hlab l)|].
      apply elem_of_cons in Hl as [->|Hl]; [|done].
      specialize (Hrel a). rewrite Hd in Hrel.
      destruct Hrel as (d2 & Hd2 & [->|(Hin & _)]); [|done].
      rewrite Hd' in Hd2. injection Hd2 as ->. congruence.
Qed.

(** X22.  The class filter keeps the detections of the tracked
    classes, in order, and writes to each the label that line 174
    computes: the place of the first occurrence of its class name in
    the class table. *)
Theorem class_filter_labels self time_lag names results w :
  tracking_names self = Some names ->
  (forall l, l ∈ results -> is_Some (heap w !! l)) ->
  (foldM (extend_detection self time_lag) [] results w).1
    = Ok (filter (fun l => tracked_at self w l = true) results) /\
  forall l d', l ∈ results ->
    heap (foldM (extend_detection self time_lag) [] results w).2 !! l = Some d' ->
    tracked self d' = true -> labelled_by names d'.
Proof. intros Hn Hrefs. by apply class_filter_loop. Qed.

End Labels.

(** * The further properties on the scene *)

Section Instances.
#[local] Existing Instance toy_library.

(** Costs for one track and two detections: the first detection is in
    reach of the track, the second is not. *)
Definition near_and_far : array Q :=
  mk_array 2 1 (fun i _ => if (i =? 0)%nat then 1%Q else sentinel).

(** The first car alive, and the second car as the class filter
    leaves it. *)
Definition second_frame : world :=
  mk_world 1 [0%nat] (<[1%nat := seen_car 10]> (<[0%nat := live_car]> scene)).

Lemma reshape_pairs_the_arrays_witness :
  (length [0; 1]%nat <= length [1; 0; 5]%nat)%nat /\
  reshape ([0; 1]%nat, [1; 0; 5]%nat) = Ok [(0, 1); (1, 0)]%nat /\
  column_of (PairArray [(0, 1); (1, 0)]%nat) 0 = Ok [0; 1]%nat /\
  column_of (PairArray [(0, 1); (1, 0)]%nat) 1 = Ok [1; 0]%nat.
Proof.
  split; [simpl; lia|].
  apply (reshape_pairs_the_arrays [0; 1]%nat [1; 0; 5]%nat). simpl. lia.
Defined.

Lemma reshape_short_second_array_witness :
  (length [1]%nat < length [0; 1]%nat)%nat /\
  reshape ([0; 1]%nat, [1]%nat) = Raise IndexError.
Proof.
  split; [simpl; lia|].
  apply (reshape_short_second_array [0; 1]%nat [1]%nat). simpl. lia.
Defined.

Lemma near_and_far_in_range p :
  p ∈ [(0, 0); (1, 0)]%nat -> in_range near_and_far p.
Proof.
  intros Hp. apply elem_of_cons in Hp as [->|Hp]; [split; simpl; lia|].
  apply list_elem_of_singleton in Hp as ->. split; simpl; lia.
Qed.

Lemma tail_on_pairs_witness :
  unmatched_and_matches optimal_tracker (Some near_and_far)
    (PairArray [(0, 0); (1, 0)]%nat) [(0, 0)%Q] [(1, 0)%Q; (10, 0)%Q]
  = Ok (PairArray [(0, 0)%nat], [], [1%nat]).
Proof.
  apply (tail_on_pairs optimal_tracker near_and_far [(0, 0); (1, 0)]%nat
           [(0, 0)%Q] [(1, 0)%Q; (10, 0)%Q]).
  intros _ p. apply near_and_far_in_range.
Defined.

Lemma tail_partition_witness :
  unmatched_and_matches optimal_tracker (Some near_and_far) (PairArray [(1, 0)%nat])
    [(0, 0)%Q] [(1, 0)%Q; (10, 0)%Q] = Ok (PairArray [], [], [0; 1]%nat) /\
  exists matches : list (nat * nat),
    PairArray [] = PairArray matches /\
    (length matches + length [0; 1]%nat = length [(1, 0)%Q; (10, 0)%Q])%nat /\
    (forall d, (d < length [(1, 0)%Q; (10, 0)%Q])%nat ->
       (d ∈ [0; 1]%nat <-> d ∉ matches.*1)) /\
    (length matches + length (@nil nat) + (length [(1, 0)%nat] - length matches)
     = length [(0, 0)%Q])%nat /\
    (forall t, t ∈ @nil nat -> t ∉ matches.*2) /\
    (hungarian optimal_tracker = false -> matches = [(1, 0)%nat]).
Proof.
  assert (Hrun : unmatched_and_matches optimal_tracker (Some near_and_far)
                   (PairArray [(1, 0)%nat]) [(0, 0)%Q] [(1, 0)%Q; (10, 0)%Q]
                 = Ok (PairArray [], [], [0; 1]%nat)) by (by vm_compute).
  split; [exact Hrun|].
  apply (tail_partition optimal_tracker near_and_far [(1, 0)%nat]
           [(0, 0)%Q] [(1, 0)%Q; (10, 0)%Q] (PairArray []) [] [0; 1]%nat).
  - intros _ p Hp. apply near_and_far_in_range, elem_of_cons. by right.
  - apply NoDup_singleton.
  - apply NoDup_singleton.
  - intros p Hp. apply list_elem_of_singleton in Hp as ->. split; simpl; lia.
  - exact Hrun.
Defined.

Lemma discarded_pair_loses_track_witness :
  (sentinel_cut < cell near_and_far 1 0)%Q /\
  1%nat ∈ [0; 1]%nat /\ (0%nat ∉ @nil nat) /\
  forall d, [d; 0%nat] ∉ items (PairArray []).
Proof.
  assert (Hcost : (sentinel_cut < cell near_and_far 1 0)%Q) by (by vm_compute).
  split; [exact Hcost|].
  apply (discarded_pair_loses_track optimal_tracker near_and_far [(1, 0)%nat]
           [(0, 0)%Q] [(1, 0)%Q; (10, 0)%Q] (PairArray []) [] [0; 1]%nat (1, 0)%nat).
  - done.
  - intros p Hp. apply near_and_far_in_range, elem_of_cons. by right.
  - apply NoDup_singleton.
  - by vm_compute.
  - by apply list_elem_of_singleton.
  - exact Hcost.
Defined.

Lemma nuscenes_thresholds_small n thr :
  dict_get n NUSCENE_CLS_VELOCITY_ERROR = Some thr -> (thr <= sentinel_cut)%Q.
Proof.
  unfold NUSCENE_CLS_VELOCITY_ERROR. cbn [dict_get].
  repeat (destruct (decide _); [intros [= <-]; by vm_compute|]). done.
Qed.

Lemma gated_pair_is_kept_witness :
  gated optimal_tracker [live_car] [seen_car 1] [(0, 0)%Q] [(1#2, 0)%Q] 0 0 /\
  [0%nat; 0%nat] ∈ items (PairArray [(0, 0)%nat]).
Proof.
  assert (Hgated : gated optimal_tracker [live_car] [seen_car 1]
                     [(0, 0)%Q] [(1#2, 0)%Q] 0 0).
  { exists (seen_car 1), live_car, (1#2, 0)%Q, (0, 0)%Q, NUSCENE_CLS_VELOCITY_ERROR, 3%Q.
    split_and!; try done; try (by eexists); by vm_compute. }
  split; [exact Hgated|].
  eapply (gated_pair_is_kept optimal_tracker [live_car] [seen_car 1]
            [(0, 0)%Q] [(1#2, 0)%Q] _ [(0, 0)%nat] (PairArray [(0, 0)%nat]) [] []).
  - done.
  - done.
  - done.
  - intros table n thr [= <-]. apply nuscenes_thresholds_small.
  - by vm_compute.
  - intros p Hp. apply list_elem_of_singleton in Hp as ->. split; simpl; lia.
  - by vm_compute.
  - by apply list_elem_of_singleton.
  - exact Hgated.
Defined.

Lemma seen_car_labelled x : labelled [seen_car x].
Proof. intros d Hd. apply list_elem_of_singleton in Hd as ->. by eexists. Qed.

Lemma seen_car_has_threshold self0 x :
  velocity_error self0 = Some NUSCENE_CLS_VELOCITY_ERROR ->
  has_threshold self0 [seen_car x].
Proof.
  intros Hv d Hd. apply list_elem_of_singleton in Hd as ->.
  exists NUSCENE_CLS_VELOCITY_ERROR. split; [done|]. by eexists.
Qed.

Lemma no_track_all_unmatched_witness :
  comparing_positions optimal_tracker [] [seen_car 10] [] [(19#2, 0)%Q]
    = Ok (PairArray [], [], [0%nat]).
Proof.
  apply (no_track_all_unmatched optimal_tracker [seen_car 10] [(19#2, 0)%Q]).
  - apply seen_car_labelled.
  - by apply seen_car_has_threshold.
Defined.

Lemma assignment_stage_exception_witness :
  comparing_positions point_tracker [live_car] [seen_car 10] [(0, 0)%Q] [(19#2, 0)%Q]
    = Raise NotImplementedError /\
  comparing_positions optimal_tracker [live_car] [seen_car 10] [(0, 0)%Q] [(19#2, 0)%Q]
    = Raise TypeError.
Proof.
  split.
  - apply (assignment_stage_exception point_tracker [live_car] [seen_car 10]
             [(0, 0)%Q] [(19#2, 0)%Q]); try done.
    + intros d Hd. apply list_elem_of_singleton in Hd as ->. by eexists.
    + apply seen_car_labelled.
    + by apply seen_car_has_threshold.
  - apply (assignment_stage_exception optimal_tracker [live_car] [seen_car 10]
             [(0, 0)%Q] [(19#2, 0)%Q]); try done.
    + intros d Hd. apply list_elem_of_singleton in Hd as ->. by eexists.
    + apply seen_car_labelled.
    + by apply seen_car_has_threshold.
Defined.

Lemma missing_label_raises_witness :
  label_preds (detection "car" 10 0 (1#2)) = None /\
  comparing_positions point_tracker [live_car] [detection "car" 10 0 (1#2)]
    [(0, 0)%Q] [(10, 0)%Q] = Raise KeyError.
Proof.
  split; [done|].
  apply (missing_label_raises point_tracker [live_car] [detection "car" 10 0 (1#2)]
           [(0, 0)%Q] [(10, 0)%Q] (detection "car" 10 0 (1#2))); [|done].
  right. split; [|by apply list_elem_of_singleton].
  intros d Hd. apply list_elem_of_singleton in Hd as ->. by eexists.
Defined.

Lemma live_tracker_takes_no_frame_witness :
  tracks (one_track point_tracker) = [0%nat] /\
  is_ok (step_centertrack point_tracker [1%nat] (1#2) (one_track point_tracker)).1 = false /\
  id_count (step_centertrack point_tracker [1%nat] (1#2) (one_track point_tracker)).2
    = id_count (one_track point_tracker) /\
  tracks (step_centertrack point_tracker [1%nat] (1#2) (one_track point_tracker)).2
    = tracks (one_track point_tracker).
Proof.
  split; [by vm_compute|].
  apply (live_tracker_takes_no_frame point_tracker [1%nat] (1#2) (one_track point_tracker)).
  - by vm_compute.
  - done.
Defined.

Lemma scene_refs (ls : list loc) :
  (forall l, l ∈ ls -> (l < 3)%nat) -> forall l, l ∈ ls -> is_Some (heap fresh !! l).
Proof.
  intros Hlt l Hl. specialize (Hlt l Hl).
  destruct l as [|[|[|l]]]; [by vm_compute; eauto..|lia].
Qed.

Lemma NoDup_two (a b : nat) : a <> b -> NoDup [a; b].
Proof.
  intros Hne. apply NoDup_cons. split; [|apply NoDup_singleton].
  by intros ?%list_elem_of_singleton.
Qed.

Lemma first_frame_births_witness :
  exists ret w',
    step_centertrack filter_tracker [1%nat; 0%nat] (1#2) fresh = (Ok ret, w') /\
    ret = filter (fun l => tracked_at filter_tracker fresh l = true) [1%nat; 0%nat] /\
    tracks w' = ret /\
    id_count w' = id_count fresh + Z.of_nat (length ret) /\
    forall k l d, ret !! k = Some l -> heap fresh !! l = Some d ->
      exists d', heap w' !! l = Some d' /\
        tracking_id d' = Some (id_count fresh + Z.of_nat k + 1) /\
        age d' = Some 1 /\ active d' = Some (min_hits filter_tracker) /\
        ct d' = Some (first2 (translation d)) /\
        detection_score d' = detection_score d /\
        (tracker filter_tracker = PointTracker ->
         tracking d' = Some (scale (scale (first2 (velocity d)) (-1)%Q) (1#2))) /\
        (tracker filter_tracker = KF ->
         kf d' = Some (KalmanFilter (use_vel filter_tracker) (first2 (translation d))
                         (first2 (velocity d)))).
Proof.
  apply (first_frame_births filter_tracker [1%nat; 0%nat] (1#2) fresh).
  - done.
  - by eexists.
  - apply scene_refs. intros l Hl. apply elem_of_cons in Hl as [->|Hl]; [lia|].
    apply list_elem_of_singleton in Hl as ->. lia.
  - by apply NoDup_two.
Defined.

Lemma returned_tracks_are_retained_witness :
  step_centertrack point_tracker [0%nat] (1#2) fresh
    = (Ok [0%nat], one_track point_tracker) /\
  tracks (one_track point_tracker) = [0%nat].
Proof.
  assert (Hrun : step_centertrack point_tracker [0%nat] (1#2) fresh
                 = (Ok [0%nat], one_track point_tracker)) by (by vm_compute).
  split; [exact Hrun|].
  apply (returned_tracks_are_retained point_tracker [0%nat] (1#2) (PairArray [], [], [])
           fresh [0%nat] (one_track point_tracker)).
  by left.
Defined.

(** A tracker built for a dataset that is neither nuScenes nor Waymo,
    and one built with an unknown tracker name. *)
Definition stray_tracker : PubTracker :=
  init false 6 (1#20) 1 1 false 0 0 OtherDataset false None.

Definition odd_tracker : PubTracker := nuscenes_tracker false 6 (Some OtherTracker).

Lemma unknown_dataset_raises_witness :
  tracking_names stray_tracker = None /\
  step_centertrack stray_tracker [0%nat; 1%nat] (1#2) fresh = (Raise AttributeError, fresh).
Proof.
  split; [done|].
  apply (unknown_dataset_raises stray_tracker 0%nat [1%nat] (1#2) fresh).
  - done.
  - vm_compute. eauto.
Defined.

Lemma unknown_tracker_raises_witness :
  tracks (one_track odd_tracker) = [0%nat] /\
  (step_centertrack odd_tracker [1%nat] (1#2) (one_track odd_tracker)).1
    = Raise UnboundLocalError /\
  id_count (step_centertrack odd_tracker [1%nat] (1#2) (one_track odd_tracker)).2
    = id_count (one_track odd_tracker) /\
  tracks (step_centertrack odd_tracker [1%nat] (1#2) (one_track odd_tracker)).2
    = tracks (one_track odd_tracker).
Proof.
  split; [by vm_compute|].
  apply (unknown_tracker_raises odd_tracker [1%nat] (1#2) (one_track odd_tracker)).
  - done.
  - by vm_compute.
  - done.
  - by eexists.
  - intros l Hl. apply list_elem_of_singleton in Hl as ->. vm_compute. eauto.
Defined.

Lemma reset_restarts_identities_witness :
  id_count (one_track point_tracker) = 1 /\
  exists ret w',
    (reset ;; step_centertrack point_tracker [1%nat] (1#2)) (one_track point_tracker)
      = (Ok ret, w') /\
    ret = filter (fun l => tracked_at point_tracker (one_track point_tracker) l = true)
            [1%nat] /\
    tracks w' = ret /\
    id_count w' = Z.of_nat (length ret) /\
    forall k l, ret !! k = Some l ->
      exists d', heap w' !! l = Some d' /\ tracking_id d' = Some (Z.of_nat k + 1).
Proof.
  split; [by vm_compute|].
  apply (reset_restarts_identities point_tracker [1%nat] (1#2) (one_track point_tracker)).
  - by eexists.
  - intros l Hl. apply list_elem_of_singleton in Hl as ->. vm_compute. eauto.
  - apply NoDup_singleton.
Defined.

Lemma empty_frame_then_births_witness :
  id_count (one_track point_tracker) = 1 /\
  exists ret w',
    (step_centertrack point_tracker [] (1#2) ;;
     step_centertrack point_tracker [0%nat] (1#2)) (one_track point_tracker)
      = (Ok ret, w') /\
    ret = filter (fun l => tracked_at point_tracker (one_track point_tracker) l = true)
            [0%nat] /\
    tracks w' = ret /\
    id_count w' = id_count (one_track point_tracker) + Z.of_nat (length ret) /\
    forall k l, ret !! k = Some l ->
      exists d', heap w' !! l = Some d' /\
        tracking_id d' = Some (id_count (one_track point_tracker) + Z.of_nat k + 1) /\
        age d' = Some 1.
Proof.
  split; [by vm_compute|].
  apply (empty_frame_then_births point_tracker [0%nat] (1#2) (1#2)
           (one_track point_tracker)).
  - by eexists.
  - intros l Hl. apply list_elem_of_singleton in Hl as ->. vm_compute. eauto.
  - apply NoDup_singleton.
Defined.

(** The second frame as the update meets it: the first car is alive
    and the second car is the only detection. *)
Lemma second_frame_ready self0 :
  tracker self0 = PointTracker ->
  ready_world self0 (tracks second_frame) [1%nat] second_frame.
Proof.
  intros Htr. split_and!; [done| |].
  - intros l Hl. apply list_elem_of_singleton in Hl as ->.
    exists live_car. split; [by vm_compute|].
    split_and!; simpl; eauto. by rewrite Htr.
  - intros l Hl. apply list_elem_of_singleton in Hl as ->.
    exists (seen_car 10). split; [by vm_compute|]. intros Hkf. by rewrite Htr in Hkf.
Qed.

Lemma second_frame_matched self0 :
  tracker self0 = PointTracker ->
  well_formed self0 [1%nat] [(0, 0)%nat] [] [] second_frame.
Proof.
  intros Htr. split.
  - by apply second_frame_ready.
  - intros p Hp. apply list_elem_of_singleton in Hp as ->. split; simpl; lia.
  - intros i Hi. by apply elem_of_nil in Hi.
  - intros i Hi. by apply elem_of_nil in Hi.
  - apply NoDup_singleton.
  - apply NoDup_singleton.
  - intros l Hl Hl'. apply list_elem_of_singleton in Hl as ->.
    by apply list_elem_of_singleton in Hl'.
  - apply NoDup_singleton.
  - apply NoDup_nil_2.
Qed.

Lemma second_frame_unmatched self0 :
  tracker self0 = PointTracker ->
  well_formed self0 [1%nat] [] [0%nat] [0%nat] second_frame.
Proof.
  intros Htr. split.
  - by apply second_frame_ready.
  - intros p Hp. by apply elem_of_nil in Hp.
  - intros i Hi. apply list_elem_of_singleton in Hi as ->. simpl. lia.
  - intros i Hi. apply list_elem_of_singleton in Hi as ->. simpl. lia.
  - apply NoDup_singleton.
  - apply NoDup_singleton.
  - intros l Hl Hl'. apply list_elem_of_singleton in Hl as ->.
    by apply list_elem_of_singleton in Hl'.
  - apply NoDup_singleton.
  - apply NoDup_singleton.
Qed.

Lemma update_returns_in_order_witness :
  exists w',
    update_tracks point_tracker [1%nat] (PairArray [], [0%nat], [0%nat]) second_frame
      = (Ok (locs_at [1%nat] (@nil (nat * nat)).*1 ++ locs_at [1%nat] [0%nat] ++
             survivors point_tracker second_frame [0%nat]), w') /\
    length (locs_at [1%nat] (@nil (nat * nat)).*1) = length (@nil (nat * nat)) /\
    length (locs_at [1%nat] [0%nat]) = length [0%nat] /\
    id_count w' = id_count second_frame + Z.of_nat (length [0%nat]) /\
    (tracker point_tracker = PointTracker ->
     forall x, x ∉ locs_at [1%nat] ((@nil (nat * nat)).*1 ++ [0%nat]) ->
       x ∉ locs_at (tracks second_frame) [0%nat] ->
       heap w' !! x = heap second_frame !! x).
Proof.
  apply (update_returns_in_order point_tracker [1%nat] [] [0%nat] [0%nat] second_frame).
  by apply second_frame_unmatched.
Defined.

Lemma matched_detection_continues_track_witness :
  exists ret w' d',
    update_tracks point_tracker [1%nat] (PairArray [(0, 0)%nat], [], []) second_frame
      = (Ok ret, w') /\
    1%nat ∈ ret /\ heap w' !! 1%nat = Some d' /\
    tracking_id d' = Some 1 /\ age d' = Some 1 /\ active d' = Some (1 + 1) /\
    detection_score d' = detection_score (seen_car 10) /\
    (tracker point_tracker <> KF ->
     d' = set_active (1 + 1) (set_age 1 (set_tracking_id 1 (seen_car 10)))) /\
    (tracker point_tracker = KF ->
     forall k c, kf live_car = Some k -> ct (seen_car 10) = Some c ->
       kf d' = Some (kf_update (observation point_tracker (seen_car 10) c) k) /\
       first2 (translation d')
         = (kf_x (kf_update (observation point_tracker (seen_car 10) c) k) 0%nat,
            kf_x (kf_update (observation point_tracker (seen_car 10) c) k) 1%nat) /\
       first2 (velocity d')
         = (kf_x (kf_update (observation point_tracker (seen_car 10) c) k) 2%nat,
            kf_x (kf_update (observation point_tracker (seen_car 10) c) k) 3%nat)).
Proof.
  apply (matched_detection_continues_track point_tracker [1%nat] [(0, 0)%nat] [] []
           second_frame (0, 0)%nat 1%nat 0%nat (seen_car 10) live_car 1 1).
  - by apply second_frame_matched.
  - apply NoDup_singleton.
  - by apply list_elem_of_singleton.
  - done.
  - done.
  - by vm_compute.
  - by vm_compute.
  - done.
  - done.
Defined.

Lemma unmatched_track_ages_or_goes_witness :
  exists ret w' d',
    update_tracks point_tracker [1%nat] (PairArray [], [0%nat], [0%nat]) second_frame
      = (Ok ret, w') /\
    tracks w' = ret /\ heap w' !! 0%nat = Some d' /\
    detection_score d' = decayed_score point_tracker live_car /\
    tracking_id d' = tracking_id live_car /\
    (1 < max_age point_tracker ->
     (del_th point_tracker < decayed_score point_tracker live_car)%Q ->
     0%nat ∈ ret /\ age d' = Some (1 + 1) /\
     active d' = Some (if Qgtb (decayed_score point_tracker live_car) (s_th point_tracker)
                       then 1 + 1 else 0) /\
     forall t c, tracking live_car = Some t -> ct live_car = Some c ->
       ct d' = Some (plus2 c (scale t (-1)%Q)) /\
       first2 (translation d') = plus2 c (scale t (-1)%Q)) /\
    (max_age point_tracker <= 1 \/
     (decayed_score point_tracker live_car <= del_th point_tracker)%Q ->
     (0%nat ∉ ret) /\ age d' = Some 1).
Proof.
  apply (unmatched_track_ages_or_goes point_tracker [1%nat] [] [0%nat] [0%nat]
           second_frame 0%nat 0%nat live_car 1 1).
  - by apply second_frame_unmatched.
  - by apply list_elem_of_singleton.
  - done.
  - by vm_compute.
  - done.
  - done.
Defined.

Lemma tracked_class_has_threshold_witness :
  tracked point_tracker (detection "bus" 0 0 1) = true /\
  exists table thr,
    velocity_error point_tracker = Some table /\
    dict_get (Name "bus") table = Some thr /\ (0 < thr)%Q /\ (thr <= sentinel_cut)%Q.
Proof.
  split; [by vm_compute|].
  apply (tracked_class_has_threshold false 6 (1#20) 1 1 false 0 0 Nuscenes false None
           (detection "bus" 0 0 1)).
  by vm_compute.
Defined.

Lemma point_mode_prediction_witness :
  exists dets trks,
    predict_positions point_tracker (1#2) [1%nat] second_frame
      = (Ok (dets, trks), second_frame) /\
    Forall2 (fun l p => exists d c t, heap second_frame !! l = Some d /\ ct d = Some c /\
                                      tracking d = Some t /\ p = plus2 c t)
            [1%nat] dets /\
    Forall2 (fun l q => exists d, heap second_frame !! l = Some d /\ ct d = Some q)
            (tracks second_frame) trks.
Proof.
  apply (point_mode_prediction point_tracker (1#2) [1%nat] second_frame).
  - done.
  - done.
  - intros l Hl. apply list_elem_of_singleton in Hl as ->.
    exists (seen_car 10). split; [by vm_compute|]. split; by eexists.
  - intros l Hl. apply list_elem_of_singleton in Hl as ->.
    exists live_car. split; [by vm_compute|]. by eexists.
Defined.

Lemma class_filter_labels_witness :
  (foldM (extend_detection point_tracker (1#2)) [] [0%nat; 2%nat] fresh).1
    = Ok (filter (fun l => tracked_at point_tracker fresh l = true) [0%nat; 2%nat]) /\
  forall l d', l ∈ [0%nat; 2%nat] ->
    heap (foldM (extend_detection point_tracker (1#2)) [] [0%nat; 2%nat] fresh).2 !! l
      = Some d' ->
    tracked point_tracker d' = true -> labelled_by NUSCENES_TRACKING_NAMES d'.
Proof.
  apply (class_filter_labels point_tracker (1#2) NUSCENES_TRACKING_NAMES
           [0%nat; 2%nat] fresh).
  - done.
  - apply scene_refs. intros l Hl. apply elem_of_cons in Hl as [->|Hl]; [lia|].
    apply list_elem_of_singleton in Hl as ->. lia.
Defined.

End Instances.
